(** * Event engine, query engine and free-roam state: a shallow embedding

    The development follows the Python sources module by module:
    - [Py]           the fragment of Python's dynamic semantics the code relies on
                     (exceptions, truthiness, slicing, [sorted], [round]);
    - [QueryEngine]  app/engine/query_engine.py;
    - [Items]        app/data/database/items.py;
    - [Roam]         app/engine/roam_state.py;
    - [EventCommands] the command grammar behind the event editor, from its
                     specification;
    - [EventEditor]  app/editor/event_editor/event_properties.py;
    - [SpriteBackground], [Foreground], [PanoramaBackground]
                     app/engine/background.py. *)

From Stdlib Require Import ZArith QArith Qround Qabs Lia Lqa Ascii String.
From stdpp Require Import gmap strings list fin_maps sorting.

Open Scope string_scope.
Open Scope Z_scope.

(* ===================================================================== *)
(** * Python values and control effects                                   *)
(* ===================================================================== *)

Module Py.

(** The exceptions the modelled code can raise. *)
Inductive exn : Type :=
| AttributeError   (* attribute access on None *)
| TypeError        (* unpacking or subscripting None *)
| KeyError.

(** Outcome of running a piece of Python: a value or a raised exception. *)
Inductive Res (A : Type) : Type :=
| Ok (a : A)
| Raise (e : exn).
Arguments Ok {A} a.
Arguments Raise {A} e.

(** Truthiness of an optional string argument ([None] and [''] are falsy). *)
Definition truthy_str (o : option string) : bool :=
  match o with
  | None => false
  | Some s => negb (String.eqb s "")
  end.

(** [o == s] for an optional string [o] and a string literal [s]. *)
Definition opt_str_eq (o : option string) (s : string) : bool :=
  match o with
  | None => false
  | Some s' => String.eqb s' s
  end.

(** [l[:num]]: a non-negative bound keeps the first [num] elements, a negative
    one drops the last [-num]. *)
Definition slice_to {A} (l : list A) (num : Z) : list A :=
  if 0 <=? num then firstn (Z.to_nat num) l
  else firstn (length l - Z.to_nat (- num)) l.

Section Sorted.
Context {A : Type} (key : A → Z).

(** Insertion of [p] in front of the first element whose key is not
    smaller: elements with equal keys keep their relative order. *)
Fixpoint insert_by (p : A) (l : list A) : list A :=
  match l with
  | [] => [p]
  | q :: l' => if key p <=? key q then p :: q :: l' else q :: insert_by p l'
  end.

(** [sorted(l, key=key)]: Python's sort is stable. *)
Definition sorted (l : list A) : list A := foldr insert_by [] l.
End Sorted.

(** [round(x)] on a number with a fractional part: ties go to the even
    neighbour. Floats are idealised as rationals. *)
Definition round (x : Q) : Z :=
  let n := Qfloor x in
  match Qcompare (x - inject_Z n) (1 # 2) with
  | Lt => n
  | Gt => n + 1
  | Eq => if Z.even n then n else n + 1
  end.

Example round_half_even :
  round (5 # 2) = 2 ∧ round (7 # 2) = 4 ∧ round (-(3 # 2)) = -2 ∧
  round (26 # 10) = 3 ∧ round (-(4 # 10)) = 0.
Proof. repeat split; reflexivity. Qed.

Example slice_to_negative : slice_to [1; 2; 3] (-1) = [1; 2] ∧ slice_to [1; 2; 3] 2 = [1; 2].
Proof. split; reflexivity. Qed.

Example sorted_is_stable :
  sorted snd [("c", 2); ("a", 1); ("d", 2); ("b", 1)]
  = [("a", 1); ("b", 1); ("c", 2); ("d", 2)].
Proof. reflexivity. Qed.

End Py.

(* ===================================================================== *)
(** * app/engine/query_engine.py                                          *)
(* ===================================================================== *)

Module QueryEngine.
Import Py.

(** ** Game objects as the query engine sees them *)

Definition Pos : Type := Z * Z.

Record ItemObject := { item_uid : Z; item_nid : string }.
Record SkillObject := { skill_uid : Z; skill_nid : string; negative : bool }.

(** Regions are named rectangles; [contains] is the test of app.events.regions. *)
Record Region := {
  region_nid : string;
  region_position : Pos;
  region_size : Pos }.

Record UnitObject := {
  unit_nid : string;
  team : string;
  tags : list string;
  position : option Pos;
  items : list ItemObject;
  skills : list SkillObject }.

(** The arguments of the lookups are dynamically typed: an identifier (string
    or instance number), a live object, a position, or [None]. *)
Inductive pyval : Type :=
| VNone
| VStr (s : string)
| VInt (z : Z)
| VPos (p : Pos)
| VUnit (u : UnitObject)
| VItem (i : ItemObject)
| VSkill (s : SkillObject)
| VRegion (r : Region).

(** The game-state surface the engine reads. [get_unit] and [get_region]
    answer [None] for an unknown identifier (roam_state.py tests the result
    of [game.get_unit] for truth before using it). *)
Record GameState := {
  game_get_unit : string → option UnitObject;
  game_get_region : string → option Region;
  game_get_all_units : list UnitObject;
  game_get_all_units_in_party : string → list UnitObject;
  game_get_player_units : list UnitObject;
  game_get_convoy_inventory : list ItemObject;
  (* get_convoy_inventory(get_party(party)) *)
  game_get_party_convoy : string → list ItemObject;
  game_check_dead : option UnitObject → bool }.

(** ** Effects: state passing with exceptions *)

Definition M (A : Type) : Type := GameState → Res A * GameState.

Definition ret {A} (a : A) : M A := λ g, (Ok a, g).
Definition bind {A B} (m : M A) (f : A → M B) : M B :=
  λ g, match m g with
       | (Ok a, g') => f a g'
       | (Raise e, g') => (Raise e, g')
       end.
Definition raise {A} (e : exn) : M A := λ g, (Raise e, g).
Definition ask {A} (f : GameState → A) : M A := λ g, (Ok (f g), g).
(** [try: m  except: h] with a bare [except]. *)
Definition try_except {A} (m h : M A) : M A :=
  λ g, match m g with
       | (Ok a, g') => (Ok a, g')
       | (Raise _, g') => h g'
       end.

#[export] Instance M_ret : MRet M := @ret.
#[export] Instance M_bind : MBind M := λ A B f m, bind m f.

Definition run {A} (m : M A) (g : GameState) : Res A := fst (m g).
Definition final {A} (m : M A) (g : GameState) : GameState := snd (m g).

(** A list comprehension whose element expression may raise. *)
Fixpoint for_each {A B} (f : A → M B) (l : list A) : M (list B) :=
  match l with
  | [] => ret []
  | a :: l' => b ← f a; bs ← for_each f l'; ret (b :: bs)
  end.

(** ** Resolution of loosely typed references *)

(** [_resolve_to_nid]: the [uid] attribute if there is one, else the [nid]
    attribute, else the argument itself. Items and skills carry both, units
    and regions only a [nid]. *)
Definition _resolve_to_nid (obj_or_nid : pyval) : pyval :=
  match obj_or_nid with
  | VItem i => VInt (item_uid i)
  | VSkill s => VInt (skill_uid s)
  | VUnit u => VStr (unit_nid u)
  | VRegion r => VStr (region_nid r)
  | v => v
  end.

(** Registry lookups are keyed by nid strings; any other key finds nothing. *)
Definition get_unit (nid : pyval) : M (option UnitObject) :=
  ask (λ g, match nid with VStr s => game_get_unit g s | _ => None end).

Definition get_region (nid : pyval) : M (option Region) :=
  ask (λ g, match nid with VStr s => game_get_region g s | _ => None end).

Definition _resolve_to_unit (unit_or_nid : pyval) : M (option UnitObject) :=
  get_unit (_resolve_to_nid unit_or_nid).

Definition _resolve_to_region (region_or_nid : pyval) : M (option Region) :=
  get_region (_resolve_to_nid region_or_nid).

(** Attribute access on the result of a resolution: [None] has no attributes. *)
Definition attr {O A} (o : option O) (f : O → A) : M A :=
  match o with
  | Some x => ret (f x)
  | None => raise AttributeError
  end.

Definition pos_to_val (p : option Pos) : pyval :=
  match p with Some p => VPos p | None => VNone end.

(** What a name holds once the result of [_resolve_to_unit] is assigned to it. *)
Definition unit_to_val (u : option UnitObject) : pyval :=
  match u with Some u => VUnit u | None => VNone end.

(** [_resolve_pos]: the [try] body first assigns the unit the argument
    resolves to to the name [has_pos_or_is_pos] itself and then reads its
    [position]. The bare [except] returns what the name holds at that moment:
    the argument when the resolution raised, but the resolved unit -- [None]
    when there is no such unit -- when reading [position] raised. An argument
    that resolves to no unit, coordinates included, therefore comes back as
    [None]. *)
Definition _resolve_pos (has_pos_or_is_pos : pyval) : M pyval :=
  try_except
    (u ← _resolve_to_unit has_pos_or_is_pos;
     (* from here on the name is bound to [u] *)
     try_except
       (p ← attr u position;
        ret (pos_to_val p))
       (ret (unit_to_val u)))
    (ret has_pos_or_is_pos).

(** ** Items *)

(** [it.uid == item or it.nid == item] for a resolved reference [item]. *)
Definition item_matches (item : pyval) (it : ItemObject) : bool :=
  match item with
  | VInt z => Z.eqb (item_uid it) z
  | VStr s => String.eqb (item_nid it) s
  | _ => false
  end.

Definition is_convoy (unit : pyval) : bool :=
  match unit with VStr s => String.eqb s "convoy" | _ => false end.

Definition get_item (unit item : pyval) : M (option ItemObject) :=
  let item := _resolve_to_nid item in
  found_items ←
    (if is_convoy unit then
       convoy ← ask game_get_convoy_inventory;
       ret (filter (λ it, item_matches item it = true) convoy)
     else
       unit ← _resolve_to_unit unit;
       its ← attr unit items;
       ret (filter (λ it, item_matches item it = true) its));
  ret (head found_items).

(** The loop of [has_item] over [all_units], with its three [continue]
    filters and the early [return True]. *)
Fixpoint has_item_loop (item : pyval) (nid team tag : option string)
    (all_units : list UnitObject) : M bool :=
  match all_units with
  | [] => ret false
  | unit :: rest =>
    if truthy_str nid && negb (opt_str_eq nid (unit_nid unit)) then
      has_item_loop item nid team tag rest
    else if truthy_str team && negb (opt_str_eq team (QueryEngine.team unit)) then
      has_item_loop item nid team tag rest
    else if truthy_str tag &&
            negb (existsb (λ t, opt_str_eq tag t) (tags unit)) then
      has_item_loop item nid team tag rest
    else
      found ← get_item (VUnit unit) item;
      if bool_decide (is_Some found) then ret true
      else has_item_loop item nid team tag rest
  end.

Definition has_item (item : pyval) (nid team tag party : option string) : M bool :=
  all_units ←
    (match party with
     | Some p => if truthy_str party then ask (λ g, game_get_all_units_in_party g p)
                 else ask game_get_all_units
     | None => ask game_get_all_units
     end);
  let item := _resolve_to_nid item in
  convoy ←
    (if negb (truthy_str nid) || opt_str_eq nid "convoy" then
       if opt_str_eq nid "convoy" || opt_str_eq team "player" then
         c ← ask game_get_convoy_inventory; ret (Some c)
       else
         match party with
         | Some p => if truthy_str party
                     then c ← ask (λ g, game_get_party_convoy g p); ret (Some c)
                     else ret None
         | None => ret None
         end
     else ret None);
  if match convoy with
     | Some c => existsb (item_matches item) c   (* an empty convoy is falsy *)
     | None => false
     end
  then ret true
  else has_item_loop item nid team tag all_units.

(** ** Skills *)

(** [sk.nid == skill] for a resolved reference [skill]. *)
Definition skill_matches (skill : pyval) (sk : SkillObject) : bool :=
  match skill with
  | VStr s => String.eqb (skill_nid sk) s
  | _ => false
  end.

Definition get_skill (unit skill : pyval) : M (option SkillObject) :=
  unit ← _resolve_to_unit unit;
  let skill := _resolve_to_nid skill in
  sks ← attr unit skills;
  ret (find (skill_matches skill) sks).

Definition has_skill (unit skill : pyval) : M bool :=
  sk ← get_skill unit skill;
  ret (bool_decide (is_Some sk)).

Definition get_debuff_count (unit : pyval) : M Z :=
  unit ← _resolve_to_unit unit;
  sks ← attr unit skills;
  ret (Z.of_nat (length (filter (λ sk, negative sk = true) sks))).

(** ** Map functions *)

Section Distance.
(** [utils.calculate_distance] on two actual positions. *)
Variable calculate_distance : Pos → Pos → Z.

(** The call as the engine makes it: both arguments are subscripted, which
    a missing position (or anything that is not a position) does not
    support. *)
Definition distance_to (position : pyval) (unit : UnitObject) : M Z :=
  match QueryEngine.position unit, position with
  | Some p, VPos q => ret (calculate_distance p q)
  | _, _ => raise TypeError
  end.

Definition get_closest_allies (position : pyval) (num : Z)
    : M (list (UnitObject * Z)) :=
  position ← _resolve_pos position;
  players ← ask game_get_player_units;
  pairs ← for_each (λ unit, d ← distance_to position unit; ret (unit, d)) players;
  ret (slice_to (sorted snd pairs) num).

(** The comprehension of [get_allies_within_distance]: the filter is
    evaluated first, then the pair. *)
Fixpoint within_distance_loop (position : pyval) (dist : Z)
    (players : list UnitObject) : M (list (UnitObject * Z)) :=
  match players with
  | [] => ret []
  | unit :: rest =>
    d ← distance_to position unit;
    if d <=? dist then
      d' ← distance_to position unit;
      tl ← within_distance_loop position dist rest;
      ret ((unit, d') :: tl)
    else within_distance_loop position dist rest
  end.

Definition get_allies_within_distance (position : pyval) (dist : Z)
    : M (list (UnitObject * Z)) :=
  position ← _resolve_pos position;
  players ← ask game_get_player_units;
  within_distance_loop position dist players.
End Distance.

(** [x1 <= ux <= x2 and y1 <= uy <= y2] *)
Definition in_bounds (x1 y1 x2 y2 : Z) (p : Pos) : bool :=
  (x1 <=? fst p) && (fst p <=? x2) && (y1 <=? snd p) && (snd p <=? y2).

Fixpoint area_loop (x1 y1 x2 y2 : Z) (units : list UnitObject)
    : M (list UnitObject) :=
  match units with
  | [] => ret []
  | unit :: rest =>
    match position unit with
    | None => raise TypeError        (* ux, uy = None *)
    | Some p =>
      tl ← area_loop x1 y1 x2 y2 rest;
      ret (if in_bounds x1 y1 x2 y2 p then unit :: tl else tl)
    end
  end.

Definition get_units_in_area (position_corner_1 position_corner_2 : Pos)
    : M (list UnitObject) :=
  let '(x1, y1) := position_corner_1 in
  let '(x2, y2) := position_corner_2 in
  let '(x1, x2) := if x2 <? x1 then (x2, x1) else (x1, x2) in
  let '(y1, y2) := if y2 <? y1 then (y2, y1) else (y1, y2) in
  units ← ask game_get_all_units;
  area_loop x1 y1 x2 y2 units.

(** Modelled from the spec: [Region.contains] of app/events/regions.py, the
    membership test of a rectangular area given by its corner and its size. *)
Definition contains (r : Region) (p : option Pos) : M bool :=
  match p with
  | None => raise TypeError
  | Some (x, y) =>
    let '(rx, ry) := region_position r in
    let '(w, h) := region_size r in
    ret ((rx <=? x) && (x <? rx + w) && (ry <=? y) && (y <? ry + h))
  end.

Fixpoint region_loop (region : option Region) (nid team tag : option string)
    (units : list UnitObject) : M (list UnitObject) :=
  match units with
  | [] => ret []
  | unit :: rest =>
    if truthy_str nid && negb (opt_str_eq nid (unit_nid unit)) then
      region_loop region nid team tag rest
    else if truthy_str team && negb (opt_str_eq team (QueryEngine.team unit)) then
      region_loop region nid team tag rest
    else if truthy_str tag &&
            negb (existsb (λ t, opt_str_eq tag t) (tags unit)) then
      region_loop region nid team tag rest
    else
      match region with
      | None => raise AttributeError     (* None.contains *)
      | Some r =>
        inside ← contains r (position unit);
        tl ← region_loop region nid team tag rest;
        ret (if (inside : bool) then unit :: tl else tl)
      end
  end.

Definition get_units_in_region (region : pyval) (nid team tag : option string)
    : M (list UnitObject) :=
  region ← _resolve_to_region region;
  units ← ask game_get_all_units;
  region_loop region nid team tag units.

Definition any_unit_in_region (region : pyval) (nid team tag : option string)
    : M bool :=
  us ← get_units_in_region region nid team tag;
  ret (match us with [] => false | _ :: _ => true end).

Definition is_dead (unit : pyval) : M bool :=
  unit ← _resolve_to_unit unit;
  ask (λ g, game_check_dead g unit).

(** ** Reads never write *)

(** A computation is read-only when it hands back the state it was given. *)
Definition readonly {A} (m : M A) : Prop := ∀ g, final m g = g.

Lemma readonly_ret {A} (a : A) : readonly (ret a).
Proof. by intros g. Qed.

Lemma readonly_mret {A} (a : A) : readonly (mret a : M A).
Proof. by intros g. Qed.

Lemma readonly_raise {A} e : readonly (raise e : M A).
Proof. by intros g. Qed.

Lemma readonly_ask {A} (f : GameState → A) : readonly (ask f).
Proof. by intros g. Qed.

Lemma readonly_bind {A B} (m : M A) (f : A → M B) :
  readonly m → (∀ a, readonly (f a)) → readonly (m ≫= f).
Proof.
  intros Hm Hf g. unfold final, mbind, M_bind, bind.
  specialize (Hm g). unfold final in Hm.
  destruct (m g) as [[a|e] g']; simpl in *; subst; [apply Hf | done].
Qed.

Lemma readonly_try_except {A} (m h : M A) :
  readonly m → readonly h → readonly (try_except m h).
Proof.
  intros Hm Hh g. unfold final, try_except.
  specialize (Hm g). unfold final in Hm.
  destruct (m g) as [[a|e] g']; simpl in *; subst; [done | apply Hh].
Qed.

Lemma readonly_attr {O A} (o : option O) (f : O → A) : readonly (attr o f).
Proof. destruct o; by intros g. Qed.

Create HintDb readonly.
#[export] Hint Resolve readonly_ret readonly_mret readonly_raise readonly_ask
  readonly_attr : readonly.
#[export] Hint Extern 2 (readonly (_ ≫= _)) =>
  apply readonly_bind; [| intros ?] : readonly.
#[export] Hint Extern 2 (readonly (try_except _ _)) =>
  apply readonly_try_except : readonly.
#[export] Hint Extern 3 (readonly (if ?b then _ else _)) => destruct b : readonly.
#[export] Hint Extern 3 (readonly (match ?o with Some _ => _ | None => _ end)) =>
  destruct o : readonly.

Lemma readonly_get_unit nid : readonly (get_unit nid).
Proof. apply readonly_ask. Qed.

Lemma readonly_get_region nid : readonly (get_region nid).
Proof. apply readonly_ask. Qed.

Lemma readonly_resolve_to_unit v : readonly (_resolve_to_unit v).
Proof. apply readonly_ask. Qed.

Lemma readonly_resolve_to_region v : readonly (_resolve_to_region v).
Proof. apply readonly_ask. Qed.

#[export] Hint Resolve readonly_get_unit readonly_get_region
  readonly_resolve_to_unit readonly_resolve_to_region : readonly.

Ltac ro := auto 20 with readonly.

Lemma readonly_for_each {A B} (f : A → M B) l :
  (∀ a, readonly (f a)) → readonly (for_each f l).
Proof. intros Hf. induction l; simpl; ro. Qed.

Lemma readonly_resolve_pos v : readonly (_resolve_pos v).
Proof. unfold _resolve_pos. ro. Qed.

Lemma readonly_get_item unit item : readonly (get_item unit item).
Proof. unfold get_item. ro. Qed.

Lemma readonly_has_item_loop item nid team tag us :
  readonly (has_item_loop item nid team tag us).
Proof.
  induction us as [|u us IH]; simpl; [ro|].
  repeat (match goal with |- readonly (if ?b then _ else _) => destruct b end);
    try done.
  apply readonly_bind; [apply readonly_get_item|]. intros found.
  destruct (bool_decide _); ro.
Qed.

Lemma readonly_has_item item nid team tag party :
  readonly (has_item item nid team tag party).
Proof.
  unfold has_item. apply readonly_bind; [ro|]. intros us.
  apply readonly_bind; [ro|]. intros c.
  match goal with |- readonly (if ?b then _ else _) => destruct b end;
    [ro | apply readonly_has_item_loop].
Qed.

Lemma readonly_get_skill unit skill : readonly (get_skill unit skill).
Proof. unfold get_skill. ro. Qed.

Lemma readonly_has_skill unit skill : readonly (has_skill unit skill).
Proof. unfold has_skill. apply readonly_bind; [apply readonly_get_skill | ro]. Qed.

Lemma readonly_get_debuff_count unit : readonly (get_debuff_count unit).
Proof. unfold get_debuff_count. ro. Qed.

Lemma readonly_distance_to cd pos unit : readonly (distance_to cd pos unit).
Proof. unfold distance_to. destruct (position unit), pos; ro. Qed.

Lemma readonly_get_closest_allies cd position num :
  readonly (get_closest_allies cd position num).
Proof.
  unfold get_closest_allies. apply readonly_bind; [apply readonly_resolve_pos|].
  intros p. apply readonly_bind; [ro|]. intros us.
  apply readonly_bind; [|ro]. apply readonly_for_each. intros u.
  apply readonly_bind; [apply readonly_distance_to | ro].
Qed.

Lemma readonly_within_distance_loop cd position dist us :
  readonly (within_distance_loop cd position dist us).
Proof.
  induction us as [|u us IH]; simpl; [ro|].
  apply readonly_bind; [apply readonly_distance_to|]. intros d.
  destruct (d <=? dist); [|done].
  apply readonly_bind; [apply readonly_distance_to|]. intros d'.
  apply readonly_bind; [done | ro].
Qed.

Lemma readonly_get_allies_within_distance cd position dist :
  readonly (get_allies_within_distance cd position dist).
Proof.
  unfold get_allies_within_distance.
  apply readonly_bind; [apply readonly_resolve_pos|]. intros p.
  apply readonly_bind; [ro|]. intros us. apply readonly_within_distance_loop.
Qed.

Lemma readonly_area_loop x1 y1 x2 y2 us : readonly (area_loop x1 y1 x2 y2 us).
Proof.
  induction us as [|u us IH]; simpl; [ro|].
  destruct (position u); [|ro]. apply readonly_bind; [done | ro].
Qed.

Lemma readonly_get_units_in_area p1 p2 : readonly (get_units_in_area p1 p2).
Proof.
  destruct p1 as [x1 y1], p2 as [x2 y2]. unfold get_units_in_area.
  destruct (x2 <? x1), (y2 <? y1);
    (apply readonly_bind; [ro | intros us; apply readonly_area_loop]).
Qed.

Lemma readonly_contains r p : readonly (contains r p).
Proof.
  unfold contains. destruct p as [[x y]|]; [|ro].
  destruct (region_position r), (region_size r). ro.
Qed.

Lemma readonly_region_loop region nid team tag us :
  readonly (region_loop region nid team tag us).
Proof.
  induction us as [|u us IH]; simpl; [ro|].
  repeat (match goal with |- readonly (if ?b then _ else _) => destruct b end);
    try done.
  destruct region; [|ro].
  apply readonly_bind; [apply readonly_contains|]. intros b.
  apply readonly_bind; [done | ro].
Qed.

Lemma readonly_get_units_in_region region nid team tag :
  readonly (get_units_in_region region nid team tag).
Proof.
  unfold get_units_in_region. apply readonly_bind; [ro|]. intros r.
  apply readonly_bind; [ro|]. intros us. apply readonly_region_loop.
Qed.

Lemma readonly_any_unit_in_region region nid team tag :
  readonly (any_unit_in_region region nid team tag).
Proof.
  unfold any_unit_in_region.
  apply readonly_bind; [apply readonly_get_units_in_region | ro].
Qed.

Lemma readonly_is_dead unit : readonly (is_dead unit).
Proof. unfold is_dead. ro. Qed.

(** ** Running a lookup *)

Lemma run_bind {A B} (m : M A) (f : A → M B) g :
  readonly m →
  run (m ≫= f) g = match run m g with
                    | Ok a => run (f a) g
                    | Raise e => Raise e
                    end.
Proof.
  intros Hm. specialize (Hm g). unfold run, final, mbind, M_bind, bind in *.
  destruct (m g) as [[a|e] g']; simpl in *; by subst.
Qed.

Lemma run_ask {A} (f : GameState → A) g : run (ask f) g = Ok (f g).
Proof. done. Qed.

Lemma run_ret {A} (a : A) g : run (ret a) g = Ok a.
Proof. done. Qed.

(** ** Units in a rectangle *)

(** The rectangle spanned by two corners, whichever way round they come. *)
Definition in_rectangle (p1 p2 : Pos) (u : UnitObject) : bool :=
  match position u with
  | Some (ux, uy) =>
    (Z.min (fst p1) (fst p2) <=? ux) && (ux <=? Z.max (fst p1) (fst p2)) &&
    (Z.min (snd p1) (snd p2) <=? uy) && (uy <=? Z.max (snd p1) (snd p2))
  | None => false
  end.

Definition has_position (u : UnitObject) : bool :=
  match position u with Some _ => true | None => false end.

Lemma run_area_loop x1 y1 x2 y2 us g :
  run (area_loop x1 y1 x2 y2 us) g =
  if forallb has_position us
  then Ok (List.filter
             (λ u, match position u with
                   | Some p => in_bounds x1 y1 x2 y2 p
                   | None => false
                   end) us)
  else Raise TypeError.
Proof.
  induction us as [|u us IH]; [done|].
  cbn [area_loop forallb List.filter]. unfold has_position at 1.
  destruct (position u) as [p|]; [|done].
  rewrite run_bind by apply readonly_area_loop. rewrite IH.
  destruct (forallb has_position us); [|done].
  cbn. by destruct (in_bounds x1 y1 x2 y2 p).
Qed.

Lemma in_bounds_sorted_corners x1 y1 x2 y2 (u : UnitObject) :
  match position u with
  | Some p => in_bounds (Z.min x1 x2) (Z.min y1 y2) (Z.max x1 x2) (Z.max y1 y2) p
  | None => false
  end = in_rectangle (x1, y1) (x2, y2) u.
Proof. unfold in_rectangle, in_bounds. by destruct (position u) as [[ux uy]|]. Qed.

Lemma run_get_units_in_area p1 p2 g :
  run (get_units_in_area p1 p2) g =
  if forallb has_position (game_get_all_units g)
  then Ok (List.filter (in_rectangle p1 p2) (game_get_all_units g))
  else Raise TypeError.
Proof.
  destruct p1 as [x1 y1], p2 as [x2 y2]. unfold get_units_in_area.
  assert (Hx : (if x2 <? x1 then (x2, x1) else (x1, x2)) = (Z.min x1 x2, Z.max x1 x2)).
  { destruct (Z.ltb_spec x2 x1); f_equal; lia. }
  assert (Hy : (if y2 <? y1 then (y2, y1) else (y1, y2)) = (Z.min y1 y2, Z.max y1 y2)).
  { destruct (Z.ltb_spec y2 y1); f_equal; lia. }
  rewrite Hx, Hy. rewrite run_bind by ro. rewrite run_ask, run_area_loop.
  destruct (forallb _ _); [|done]. f_equal.
  apply filter_ext. intros u. apply in_bounds_sorted_corners.
Qed.

Lemma in_rectangle_comm p1 p2 u : in_rectangle p1 p2 u = in_rectangle p2 p1 u.
Proof.
  unfold in_rectangle. destruct (position u) as [[ux uy]|]; [|done].
  by rewrite (Z.min_comm (fst p1)), (Z.max_comm (fst p1)),
             (Z.min_comm (snd p1)), (Z.max_comm (snd p1)).
Qed.

(** C7. [get_units_in_area] gives the same outcome whichever corner comes
    first, and when it returns, the list holds, in registry order, exactly the
    units whose position lies within the inclusive bounds of the rectangle
    spanned by the two corners. (A unit without a position makes the unpacking
    of its position raise, for either corner order alike.) *)
Theorem get_units_in_area_corner_order (g : GameState) (p1 p2 : Pos) :
  run (get_units_in_area p1 p2) g = run (get_units_in_area p2 p1) g ∧
  run (get_units_in_area p1 p2) g =
    (if forallb has_position (game_get_all_units g)
     then Ok (List.filter (in_rectangle p1 p2) (game_get_all_units g))
     else Raise TypeError) ∧
  ∀ u us, run (get_units_in_area p1 p2) g = Ok us →
    (In u us ↔
     In u (game_get_all_units g) ∧
     ∃ ux uy, position u = Some (ux, uy) ∧
       Z.min (fst p1) (fst p2) ≤ ux ≤ Z.max (fst p1) (fst p2) ∧
       Z.min (snd p1) (snd p2) ≤ uy ≤ Z.max (snd p1) (snd p2)).
Proof.
  split; [|split].
  - rewrite !run_get_units_in_area. destruct (forallb _ _); [|done].
    f_equal. apply filter_ext. intros u. apply in_rectangle_comm.
  - apply run_get_units_in_area.
  - intros u us. rewrite run_get_units_in_area.
    destruct (forallb _ _); [|done]. intros [= <-].
    rewrite filter_In. unfold in_rectangle.
    split.
    + intros [Hin Hb]. split; [done|].
      destruct (position u) as [[ux uy]|]; [|done].
      exists ux, uy. split; [done|]. lia.
    + intros [Hin (ux & uy & -> & Hx & Hy)]. split; [done|]. lia.
Qed.

(** ** Items held by the player side *)

Lemma resolve_to_nid_idem v : _resolve_to_nid (_resolve_to_nid v) = _resolve_to_nid v.
Proof. by destruct v. Qed.

(** The comparison of the code against the reading "the item's uid or its nid
    equals the reference". *)
Lemma item_matches_spec ref it :
  item_matches ref it = true ↔ VInt (item_uid it) = ref ∨ VStr (item_nid it) = ref.
Proof.
  destruct ref; simpl; try (split; [done | intros [?|?]; done]).
  - rewrite String.eqb_eq. split; [intros ->; by right | intros [?|[=]]; done].
  - rewrite Z.eqb_eq. split; [intros ->; by left | intros [[=]|?]; done].
Qed.

Lemma head_filter_is_Some {A} (P : A → Prop) `{!∀ x, Decision (P x)} (l : list A) :
  bool_decide (is_Some (head (filter P l))) = existsb (λ x, bool_decide (P x)) l.
Proof.
  induction l as [|x l IH]; [done|].
  rewrite filter_cons. cbn [existsb]. destruct (decide (P x)) as [Hx|Hx].
  - rewrite (bool_decide_eq_true_2 _ Hx). cbn [orb head].
    apply bool_decide_eq_true_2. by eexists.
  - by rewrite (bool_decide_eq_false_2 _ Hx).
Qed.

(** A unit of the registry looked up through its own nid is found again. *)
Definition registry_coherent (g : GameState) (us : list UnitObject) : Prop :=
  ∀ u, In u us → game_get_unit g (unit_nid u) = Some u.

Lemma run_get_item_unit g u ref :
  game_get_unit g (unit_nid u) = Some u →
  run (get_item (VUnit u) (_resolve_to_nid ref)) g =
  Ok (head (filter (λ it, item_matches (_resolve_to_nid ref) it = true) (items u))).
Proof.
  intros Hu. unfold get_item. rewrite resolve_to_nid_idem. cbn [is_convoy].
  unfold run, mbind, M_bind, bind, _resolve_to_unit, get_unit, ask. simpl.
  by rewrite Hu.
Qed.

Definition holds_item (ref : pyval) (u : UnitObject) : bool :=
  existsb (item_matches ref) (items u).

Lemma run_has_item_loop_team g ref tm us :
  tm ≠ "" →
  registry_coherent g us →
  run (has_item_loop (_resolve_to_nid ref) None (Some tm) None us) g =
  Ok (existsb (λ u, String.eqb (team u) tm && holds_item (_resolve_to_nid ref) u) us).
Proof.
  intros Htm Hcoh. induction us as [|u us IH]; [done|].
  cbn [has_item_loop existsb truthy_str opt_str_eq andb].
  assert (Ht : negb (String.eqb tm "") = true).
  { apply negb_true_iff, String.eqb_neq, Htm. }
  rewrite Ht. cbn [andb].
  assert (IH' := IH (λ v Hv, Hcoh v (or_intror Hv))).
  rewrite (String.eqb_sym tm).
  destruct (String.eqb (team u) tm); cbn [negb andb orb]; [|done].
  rewrite run_bind by apply readonly_get_item.
  rewrite run_get_item_unit by (apply Hcoh; by left).
  rewrite head_filter_is_Some. unfold holds_item.
  assert (He : existsb (λ x, bool_decide (item_matches (_resolve_to_nid ref) x = true))
                 (items u) = existsb (item_matches (_resolve_to_nid ref)) (items u)).
  { induction (items u) as [|it its IHits]; [done|]. cbn [existsb].
    rewrite IHits. by destruct (item_matches _ it). }
  rewrite He. clear He.
  destruct (existsb _ (items u)); [reflexivity | exact IH'].
Qed.

(** C5. On a game whose units are found under their own nid,
    [has_item(item, team='player')] returns, and it returns True exactly when
    the player convoy or the inventory of some unit of team 'player' holds an
    item whose uid or nid equals the (resolved) item reference. *)
Theorem has_item_player_iff (g : GameState) (item : pyval)
    (Hcoh : registry_coherent g (game_get_all_units g)) :
  ∃ b : bool,
    run (has_item item None (Some "player") None None) g = Ok b ∧
    (b = true ↔
     (∃ it, In it (game_get_convoy_inventory g) ∧
        (VInt (item_uid it) = _resolve_to_nid item ∨
         VStr (item_nid it) = _resolve_to_nid item)) ∨
     (∃ u it, In u (game_get_all_units g) ∧ team u = "player" ∧
        In it (items u) ∧
        (VInt (item_uid it) = _resolve_to_nid item ∨
         VStr (item_nid it) = _resolve_to_nid item))).
Proof.
  set (ref := _resolve_to_nid item).
  exists (existsb (item_matches ref) (game_get_convoy_inventory g) ||
          existsb (λ u, String.eqb (team u) "player" && holds_item ref u)
            (game_get_all_units g)).
  split.
  - unfold has_item. cbn [truthy_str opt_str_eq negb orb].
    rewrite String.eqb_refl.
    rewrite run_bind by ro. rewrite run_ask.
    rewrite run_bind by ro.
    rewrite run_bind by ro. rewrite run_ask. rewrite run_ret. fold ref.
    destruct (existsb (item_matches ref) (game_get_convoy_inventory g)); [done|].
    unfold ref. by rewrite run_has_item_loop_team.
  - rewrite orb_true_iff, !existsb_exists. split.
    + intros [(it & Hin & Hm)|(u & Hin & Hm)].
      * left. exists it. split; [done|]. by apply item_matches_spec.
      * right. apply andb_true_iff in Hm as [Ht Hh].
        apply String.eqb_eq in Ht. unfold holds_item in Hh.
        apply existsb_exists in Hh as (it & Hit & Hm).
        exists u, it. repeat split; try done. by apply item_matches_spec.
    + intros [(it & Hin & Hm)|(u & it & Hin & Ht & Hit & Hm)].
      * left. exists it. split; [done|]. by apply item_matches_spec.
      * right. exists u. split; [done|]. apply andb_true_iff. split.
        { by apply String.eqb_eq. }
        unfold holds_item. apply existsb_exists. exists it.
        split; [done|]. by apply item_matches_spec.
Qed.

(** ** Sorting by a key *)

Section SortedFacts.
Context {A : Type} (key : A → Z).

Definition key_le (a b : A) : Prop := key a ≤ key b.
Definition key_is (d : Z) (a : A) : bool := key a =? d.

Lemma insert_by_perm p l : insert_by key p l ≡ₚ p :: l.
Proof.
  induction l as [|q l IH]; [done|]. simpl.
  destruct (key p <=? key q); [done|]. rewrite IH. apply Permutation_swap.
Qed.

Lemma sorted_perm l : sorted key l ≡ₚ l.
Proof.
  induction l as [|p l IH]; [done|]. unfold sorted in *. simpl.
  by rewrite insert_by_perm, IH.
Qed.

Lemma sorted_length l : length (sorted key l) = length l.
Proof. apply Permutation_length, sorted_perm. Qed.

Lemma insert_by_sorted p l :
  StronglySorted key_le l → StronglySorted key_le (insert_by key p l).
Proof.
  induction 1 as [|q l Hl IH Hq]; simpl.
  - repeat constructor.
  - destruct (Z.leb_spec (key p) (key q)) as [Hle|Hgt].
    + constructor; [by constructor|]. constructor; [done|].
      eapply Forall_impl; [exact Hq|]. unfold key_le. intros; lia.
    + constructor; [done|]. rewrite insert_by_perm.
      constructor; [unfold key_le; lia | done].
Qed.

Lemma sorted_sorted l : StronglySorted key_le (sorted key l).
Proof.
  induction l as [|p l IH]; [constructor|]. by apply insert_by_sorted.
Qed.

(** Stability: insertion never lets an element overtake one with the same key. *)
Lemma insert_by_filter d p l :
  List.filter (key_is d) (insert_by key p l) = List.filter (key_is d) (p :: l).
Proof.
  induction l as [|q l IH]; [done|]. cbn [insert_by].
  destruct (Z.leb_spec (key p) (key q)) as [Hle|Hgt]; [done|].
  cbn [List.filter] in *. rewrite IH. unfold key_is.
  destruct (Z.eqb_spec (key q) d), (Z.eqb_spec (key p) d); try done. lia.
Qed.

Lemma sorted_filter d l :
  List.filter (key_is d) (sorted key l) = List.filter (key_is d) l.
Proof.
  induction l as [|p l IH]; [done|]. unfold sorted in *. cbn [foldr].
  rewrite insert_by_filter. cbn [List.filter]. by rewrite IH.
Qed.

Lemma firstn_sorted n l :
  StronglySorted key_le l → StronglySorted key_le (firstn n l).
Proof.
  intros Hl. revert n. induction Hl as [|q l Hl IH Hq]; intros [|n]; simpl;
    try constructor; [apply IH|].
  apply Forall_forall. intros x Hx. apply (subseteq_take n l) in Hx.
  by eapply Forall_forall in Hq.
Qed.

Lemma firstn_filter_prefix (f : A → bool) n l :
  List.filter f (firstn n l) `prefix_of` List.filter f l.
Proof.
  exists (List.filter f (skipn n l)).
  by rewrite <-List.filter_app, firstn_skipn.
Qed.
End SortedFacts.

(** ** Closest allies *)

(** The (unit, distance) pairs of the player units, in iteration order. *)
Definition ally_pairs (cd : Pos → Pos → Z) (g : GameState) (q : Pos)
    : list (UnitObject * Z) :=
  map (λ u, (u, cd (default (0, 0) (position u)) q)) (game_get_player_units g).

Lemma for_each_cons {A B} (f : A → M B) a l :
  for_each f (a :: l) = (b ← f a; bs ← for_each f l; ret (b :: bs)).
Proof. done. Qed.

Lemma run_distance_to cd g q u :
  run (distance_to cd (VPos q) u) g =
  match position u with
  | Some p => Ok (cd p q)
  | None => Raise TypeError
  end.
Proof. unfold distance_to. by destruct (position u). Qed.

Lemma run_ally_pairs cd g q us :
  forallb has_position us = true →
  run (for_each (λ unit, d ← distance_to cd (VPos q) unit; ret (unit, d)) us) g =
  Ok (map (λ u, (u, cd (default (0, 0) (position u)) q)) us).
Proof.
  induction us as [|u us IH]; [done|]. rewrite for_each_cons.
  cbn [forallb map].
  intros [Hu Hus]%andb_true_iff. unfold has_position in Hu.
  rewrite run_bind.
  2:{ apply readonly_bind; [apply readonly_distance_to | ro]. }
  rewrite run_bind by apply readonly_distance_to.
  rewrite run_distance_to. destruct (position u) as [p|]; [|done].
  rewrite run_ret. cbn [default].
  rewrite run_bind.
  2:{ apply readonly_for_each. intros v.
      apply readonly_bind; [apply readonly_distance_to | ro]. }
  by rewrite (IH Hus).
Qed.

Lemma run_get_closest_allies cd g position num q :
  run (_resolve_pos position) g = Ok (VPos q) →
  forallb has_position (game_get_player_units g) = true →
  run (get_closest_allies cd position num) g =
  Ok (slice_to (sorted snd (ally_pairs cd g q)) num).
Proof.
  intros Hpos Hus. unfold get_closest_allies.
  rewrite run_bind by apply readonly_resolve_pos. rewrite Hpos.
  rewrite run_bind by ro. rewrite run_ask.
  rewrite run_bind.
  2:{ apply readonly_for_each. intros v.
      apply readonly_bind; [apply readonly_distance_to | ro]. }
  by rewrite run_ally_pairs.
Qed.

(** The pairs of a comprehension that went through: one per unit, in order,
    each with the distance from the unit's position to the position given. *)
Lemma run_for_each_pairs cd g pv us ps :
  run (for_each (λ unit, d ← distance_to cd pv unit; ret (unit, d)) us) g = Ok ps →
  map fst ps = us ∧
  ∀ u d, In (u, d) ps →
    ∃ p q, pv = VPos q ∧ QueryEngine.position u = Some p ∧ d = cd p q.
Proof.
  revert ps. induction us as [|u us IH]; intros ps.
  - intros [= <-]. split; [done | by intros ? ? []].
  - rewrite for_each_cons. rewrite run_bind.
    2:{ apply readonly_bind; [apply readonly_distance_to | ro]. }
    rewrite run_bind by apply readonly_distance_to.
    unfold distance_to at 1.
    destruct (QueryEngine.position u) as [p|] eqn:Hp; [|done].
    destruct pv as [| | |q| | | |]; try done.
    rewrite !run_ret. rewrite run_bind.
    2:{ apply readonly_for_each. intros v.
        apply readonly_bind; [apply readonly_distance_to | ro]. }
    destruct (run (for_each _ us) g) as [ps'|] eqn:Hps; [|done].
    rewrite run_ret. intros [= <-]. destruct (IH ps' eq_refl) as [Hfst Hin].
    split; [cbn; by rewrite Hfst|].
    intros v d [[= <- <-]|Hv]; [by exists p, q | by apply Hin].
Qed.

Lemma run_get_closest_allies_inv cd g position num pairs :
  run (get_closest_allies cd position num) g = Ok pairs →
  ∃ pv all_pairs,
    run (_resolve_pos position) g = Ok pv ∧
    run (for_each (λ unit, d ← distance_to cd pv unit; ret (unit, d))
           (game_get_player_units g)) g = Ok all_pairs ∧
    pairs = slice_to (sorted snd all_pairs) num.
Proof.
  unfold get_closest_allies.
  rewrite run_bind by apply readonly_resolve_pos.
  destruct (run (_resolve_pos position) g) as [pv|]; [|done].
  rewrite run_bind by ro. rewrite run_ask.
  rewrite run_bind.
  2:{ apply readonly_for_each. intros v.
      apply readonly_bind; [apply readonly_distance_to | ro]. }
  destruct (run (for_each _ _) g) as [ps|] eqn:Hps; [|done].
  rewrite run_ret. intros [= <-]. by exists pv, ps.
Qed.

(** C6 (amended). For a non-negative [num]: [get_closest_allies] returns
    whenever [_resolve_pos] turns the position argument into map coordinates
    (those of the unit it refers to) and the player units all stand on the
    map; and whenever it returns, the result is the first
    [num] pairs of the stably sorted list of (unit, distance) pairs, one per
    player unit — hence at most [num] pairs, all of them when there are no
    more than [num] player units, in ascending order of distance, units at
    the same distance in player-unit iteration order. *)
Theorem get_closest_allies_sorted (cd : Pos → Pos → Z) (g : GameState)
    (position : pyval) (num : Z)
    (Hnum : 0 ≤ num) :
  (∀ q, run (_resolve_pos position) g = Ok (VPos q) →
        forallb has_position (game_get_player_units g) = true →
        ∃ pairs, run (get_closest_allies cd position num) g = Ok pairs) ∧
  ∀ pairs, run (get_closest_allies cd position num) g = Ok pairs →
    ∃ all_pairs,
      map fst all_pairs = game_get_player_units g ∧
      (∀ u d, In (u, d) all_pairs →
         ∃ p q, run (_resolve_pos position) g = Ok (VPos q) ∧
                QueryEngine.position u = Some p ∧ d = cd p q) ∧
      pairs = firstn (Z.to_nat num) (sorted snd all_pairs) ∧
      Z.of_nat (length pairs) ≤ num ∧
      length pairs = Nat.min (Z.to_nat num) (length (game_get_player_units g)) ∧
      StronglySorted (key_le snd) pairs ∧
      (∀ d, List.filter (key_is snd d) pairs
            `prefix_of` List.filter (key_is snd d) all_pairs) ∧
      ((length (game_get_player_units g) ≤ Z.to_nat num)%nat →
         map fst pairs ≡ₚ game_get_player_units g).
Proof.
  split.
  - intros q Hpos Hplayers. eexists.
    apply (run_get_closest_allies cd g position num q Hpos Hplayers).
  - intros pairs (pv & all_pairs & Hpv & Hall & ->)%run_get_closest_allies_inv.
    destruct (run_for_each_pairs cd g pv _ _ Hall) as [Hfst Hin].
    assert (Hlen : length all_pairs = length (game_get_player_units g)).
    { by rewrite <-Hfst, length_map. }
    assert (Hslice : slice_to (sorted snd all_pairs) num
                     = firstn (Z.to_nat num) (sorted snd all_pairs)).
    { unfold slice_to. by rewrite (proj2 (Z.leb_le 0 num) Hnum). }
    rewrite Hslice. exists all_pairs.
    assert (Hl : length (firstn (Z.to_nat num) (sorted snd all_pairs))
                 = Nat.min (Z.to_nat num) (length (game_get_player_units g))).
    { by rewrite length_take, sorted_length, Hlen. }
    split; [done|]. split; [|split; [done|split; [lia|split; [done|split; [|split]]]]].
    + intros u d Hud. destruct (Hin u d Hud) as (p & q & -> & Hp & Hd).
      by exists p, q.
    + apply firstn_sorted, sorted_sorted.
    + intros d. rewrite <-(sorted_filter snd d all_pairs).
      apply firstn_filter_prefix.
    + intros Hfew. rewrite firstn_all2 by (rewrite sorted_length; lia).
      by rewrite sorted_perm, Hfst.
Qed.

(** ** What an unresolved reference does to each lookup *)

(** The unit a reference resolves to, if any. *)
Definition resolved_unit (g : GameState) (unit : pyval) : option UnitObject :=
  match _resolve_to_nid unit with
  | VStr s => game_get_unit g s
  | _ => None
  end.

Definition resolved_region (g : GameState) (region : pyval) : option Region :=
  match _resolve_to_nid region with
  | VStr s => game_get_region g s
  | _ => None
  end.

Lemma run_resolve_to_unit g unit :
  run (_resolve_to_unit unit) g = Ok (resolved_unit g unit).
Proof. done. Qed.

Lemma run_resolve_to_region g region :
  run (_resolve_to_region region) g = Ok (resolved_region g region).
Proof. done. Qed.

Lemma run_get_item g unit item :
  run (get_item unit item) g =
  if is_convoy unit
  then Ok (head (filter (λ it, item_matches (_resolve_to_nid item) it = true)
                   (game_get_convoy_inventory g)))
  else match resolved_unit g unit with
       | Some u => Ok (head (filter (λ it, item_matches (_resolve_to_nid item) it = true)
                              (items u)))
       | None => Raise AttributeError
       end.
Proof.
  unfold get_item. rewrite run_bind by ro. destruct (is_convoy unit).
  - rewrite run_bind by ro. by rewrite run_ask.
  - rewrite run_bind by ro. rewrite run_resolve_to_unit.
    destruct (resolved_unit g unit); [|done].
    rewrite run_bind by ro. done.
Qed.

Lemma run_get_skill g unit skill :
  run (get_skill unit skill) g =
  match resolved_unit g unit with
  | Some u => Ok (find (skill_matches (_resolve_to_nid skill)) (skills u))
  | None => Raise AttributeError
  end.
Proof.
  unfold get_skill. rewrite run_bind by ro. rewrite run_resolve_to_unit.
  destruct (resolved_unit g unit); [|done]. by rewrite run_bind by ro.
Qed.

Lemma run_has_skill g unit skill :
  run (has_skill unit skill) g =
  match resolved_unit g unit with
  | Some u => Ok (bool_decide
                    (is_Some (find (skill_matches (_resolve_to_nid skill)) (skills u))))
  | None => Raise AttributeError
  end.
Proof.
  unfold has_skill. rewrite run_bind by apply readonly_get_skill.
  rewrite run_get_skill. by destruct (resolved_unit g unit).
Qed.

Lemma run_get_debuff_count g unit :
  run (get_debuff_count unit) g =
  match resolved_unit g unit with
  | Some u => Ok (Z.of_nat (length (filter (λ sk, negative sk = true) (skills u))))
  | None => Raise AttributeError
  end.
Proof.
  unfold get_debuff_count. rewrite run_bind by ro. rewrite run_resolve_to_unit.
  destruct (resolved_unit g unit); [|done]. by rewrite run_bind by ro.
Qed.

Lemma head_filter_none {A} (P : A → Prop) `{!∀ x, Decision (P x)} (l : list A) :
  (∀ x, In x l → ¬ P x) → head (filter P l) = None.
Proof.
  intros Hl. induction l as [|x l IH]; [done|]. rewrite filter_cons.
  destruct (decide (P x)) as [Hx|Hx].
  - destruct (Hl x); [by left | done].
  - apply IH. intros y Hy. apply Hl. by right.
Qed.

Lemma find_none_skill ref (l : list SkillObject) :
  (∀ sk, In sk l → skill_matches ref sk = false) → find (skill_matches ref) l = None.
Proof.
  intros Hl. induction l as [|x l IH]; [done|]. simpl.
  rewrite (Hl x) by (by left). apply IH. intros y Hy. apply Hl. by right.
Qed.

(** [has_item] answers with a boolean on any argument, provided the units it
    visits are found again under their nid. *)
Lemma has_item_loop_total g item nid team tag us :
  registry_coherent g us →
  ∃ b, run (has_item_loop item nid team tag us) g = Ok b.
Proof.
  intros Hcoh. induction us as [|u us IH]; [by exists false|].
  assert (IH' := IH (λ v Hv, Hcoh v (or_intror Hv))). clear IH.
  cbn [has_item_loop].
  repeat (match goal with |- context [if ?b then _ else _] => destruct b end);
    try done.
  - rewrite run_bind by apply readonly_get_item. rewrite run_get_item.
    cbn [is_convoy]. unfold resolved_unit. cbn [_resolve_to_nid].
    rewrite (Hcoh u) by (by left).
    destruct (bool_decide _); [by exists true | done].
Qed.

Lemma run_region_loop_unknown g us :
  run (region_loop None None None None us) g =
  match us with [] => Ok [] | _ :: _ => Raise AttributeError end.
Proof. by destruct us. Qed.

(** The units [has_item] iterates over. *)
Definition has_item_units (g : GameState) (party : option string) : list UnitObject :=
  match party with
  | Some p => if truthy_str party then game_get_all_units_in_party g p
              else game_get_all_units g
  | None => game_get_all_units g
  end.

Lemma has_item_total g item nid team tag party :
  registry_coherent g (has_item_units g party) →
  ∃ b, run (has_item item nid team tag party) g = Ok b.
Proof.
  intros Hcoh. unfold has_item. rewrite run_bind.
  2:{ destruct party; [destruct (truthy_str _)|]; ro. }
  assert (Hus : run (match party with
                     | Some p => if truthy_str party
                                 then ask (λ g, game_get_all_units_in_party g p)
                                 else ask game_get_all_units
                     | None => ask game_get_all_units
                     end) g = Ok (has_item_units g party)).
  { unfold has_item_units. destruct party; [destruct (truthy_str _)|]; done. }
  rewrite Hus. rewrite run_bind.
  2:{ repeat (match goal with
              | |- readonly (if ?b then _ else _) => destruct b
              | |- readonly (match ?o with Some _ => _ | None => _ end) => destruct o
              end); ro. }
  match goal with |- context [run ?m g] =>
    assert (Hc : ∃ c, run m g = Ok c) end.
  { repeat (match goal with
            | |- context [if ?b then _ else _] => destruct b
            | |- context [match ?o with Some _ => _ | None => _ end] => destruct o
            end); by eexists. }
  destruct Hc as [c ->].
  match goal with |- context [if ?b then _ else _] => destruct b end;
    [by exists true | by apply has_item_loop_total].
Qed.

(** ** A small game for the examples *)

Definition manhattan (p q : Pos) : Z :=
  Z.abs (fst p - fst q) + Z.abs (snd p - snd q).

Definition iron_sword : ItemObject := {| item_uid := 101; item_nid := "Iron Sword" |}.
Definition vulnerary : ItemObject := {| item_uid := 102; item_nid := "Vulnerary" |}.
Definition canto : SkillObject :=
  {| skill_uid := 7; skill_nid := "Canto"; negative := false |}.

Definition eirika : UnitObject :=
  {| unit_nid := "Eirika"; team := "player"; tags := ["Lord"];
     position := Some (1, 1); items := [iron_sword]; skills := [] |}.
Definition seth : UnitObject :=
  {| unit_nid := "Seth"; team := "player"; tags := [];
     position := Some (3, 1); items := []; skills := [canto] |}.
Definition bandit : UnitObject :=
  {| unit_nid := "Bandit"; team := "enemy"; tags := [];
     position := Some (5, 5); items := []; skills := [] |}.
(** A unit that is registered but not on the map. *)
Definition franz : UnitObject :=
  {| unit_nid := "Franz"; team := "player"; tags := [];
     position := None; items := []; skills := [] |}.

Definition registry_of (us : list UnitObject) (nid : string) : option UnitObject :=
  find (λ u, String.eqb (unit_nid u) nid) us.

Definition demo_game : GameState :=
  {| game_get_unit := registry_of [eirika; seth; bandit];
     game_get_region := λ _, None;
     game_get_all_units := [eirika; seth; bandit];
     game_get_all_units_in_party := λ _, [eirika; seth];
     game_get_player_units := [eirika; seth];
     game_get_convoy_inventory := [vulnerary];
     game_get_party_convoy := λ _, [vulnerary];
     game_check_dead := λ _, false |}.

(** The same game after Franz joined without being placed. *)
Definition bench_game : GameState :=
  {| game_get_unit := registry_of [eirika; seth; bandit; franz];
     game_get_region := λ _, None;
     game_get_all_units := [eirika; seth; bandit; franz];
     game_get_all_units_in_party := λ _, [eirika; seth; franz];
     game_get_player_units := [eirika; seth; franz];
     game_get_convoy_inventory := [vulnerary];
     game_get_party_convoy := λ _, [vulnerary];
     game_check_dead := λ _, false |}.

(** The same game with a villager standing between Eirika and Seth. *)
Definition natasha : UnitObject :=
  {| unit_nid := "Natasha"; team := "other"; tags := [];
     position := Some (2, 1); items := []; skills := [] |}.

Definition village_game : GameState :=
  {| game_get_unit := registry_of [eirika; seth; bandit; natasha];
     game_get_region := λ _, None;
     game_get_all_units := [eirika; seth; bandit; natasha];
     game_get_all_units_in_party := λ _, [eirika; seth];
     game_get_player_units := [eirika; seth];
     game_get_convoy_inventory := [vulnerary];
     game_get_party_convoy := λ _, [vulnerary];
     game_check_dead := λ _, false |}.

Lemma demo_game_coherent : registry_coherent demo_game (game_get_all_units demo_game).
Proof. intros u [<-|[<-|[<-|[]]]]; reflexivity. Qed.

Example get_item_demo :
  run (get_item (VStr "Eirika") (VStr "Iron Sword")) demo_game = Ok (Some iron_sword).
Proof. reflexivity. Qed.

Example get_item_by_uid_demo :
  run (get_item (VUnit eirika) (VItem iron_sword)) demo_game = Ok (Some iron_sword).
Proof. reflexivity. Qed.

Example get_item_unknown_item_demo :
  run (get_item (VStr "Eirika") (VStr "Sacred Stone")) demo_game = Ok None.
Proof. reflexivity. Qed.

Example has_item_convoy_demo :
  run (has_item (VStr "Vulnerary") None (Some "player") None None) demo_game = Ok true.
Proof. reflexivity. Qed.

Example has_item_enemy_demo :
  run (has_item (VStr "Iron Sword") None (Some "enemy") None None) demo_game = Ok false.
Proof. reflexivity. Qed.

(** Equal distances keep the iteration order of the player units. *)
Example get_closest_allies_demo :
  run (get_closest_allies manhattan (VStr "Natasha") 2) village_game
  = Ok [(eirika, 1); (seth, 1)].
Proof. reflexivity. Qed.

(** Coordinates are looked up as a unit nid, find no unit, and come back from
    [_resolve_pos] as [None]: the distance to the first player unit raises. *)
Example get_closest_allies_coordinates_demo :
  run (_resolve_pos (VPos (2, 1))) demo_game = Ok VNone ∧
  run (get_closest_allies manhattan (VPos (2, 1)) 2) demo_game = Raise TypeError.
Proof. split; reflexivity. Qed.

Example get_closest_allies_of_unit_demo :
  run (get_closest_allies manhattan (VStr "Bandit") 1) demo_game = Ok [(seth, 6)].
Proof. reflexivity. Qed.

Example get_units_in_area_demo :
  run (get_units_in_area (5, 5) (2, 0)) demo_game = Ok [seth; bandit].
Proof. reflexivity. Qed.

(** C2 (amended). No lookup writes to the game state. A reference to an item
    or a skill that the resolved unit (or the convoy) does not carry yields
    [None] (and [has_skill] False), and [has_item] answers with a boolean
    whenever the units it visits are found under their nid. A unit reference
    that does not resolve, however, makes [get_item], [get_skill], [has_skill]
    and [get_debuff_count] raise AttributeError; an unknown region makes
    [get_units_in_region] raise AttributeError as soon as there is a unit to
    test (and return the empty list when there is none); a unit without a
    position makes [get_units_in_area] raise TypeError; [is_dead] passes the
    resolved unit, or [None], on to [game.check_dead]. *)
Theorem lookups_read_only_resolution (cd : Pos → Pos → Z) (g : GameState) :
  (* pure reads *)
  (∀ unit item, final (get_item unit item) g = g) ∧
  (∀ item nid team tag party, final (has_item item nid team tag party) g = g) ∧
  (∀ unit skill, final (get_skill unit skill) g = g) ∧
  (∀ unit skill, final (has_skill unit skill) g = g) ∧
  (∀ unit, final (get_debuff_count unit) g = g) ∧
  (∀ position num, final (get_closest_allies cd position num) g = g) ∧
  (∀ position dist, final (get_allies_within_distance cd position dist) g = g) ∧
  (∀ p1 p2, final (get_units_in_area p1 p2) g = g) ∧
  (∀ region nid team tag, final (get_units_in_region region nid team tag) g = g) ∧
  (∀ region nid team tag, final (any_unit_in_region region nid team tag) g = g) ∧
  (∀ unit, final (is_dead unit) g = g) ∧
  (* an unknown item or skill on a unit that resolves *)
  (∀ unit item u,
     is_convoy unit = false → resolved_unit g unit = Some u →
     (∀ it, In it (items u) → item_matches (_resolve_to_nid item) it = false) →
     run (get_item unit item) g = Ok None) ∧
  (∀ item,
     (∀ it, In it (game_get_convoy_inventory g) →
            item_matches (_resolve_to_nid item) it = false) →
     run (get_item (VStr "convoy") item) g = Ok None) ∧
  (∀ unit skill u,
     resolved_unit g unit = Some u →
     (∀ sk, In sk (skills u) → skill_matches (_resolve_to_nid skill) sk = false) →
     run (get_skill unit skill) g = Ok None ∧
     run (has_skill unit skill) g = Ok false) ∧
  (∀ item nid team tag party,
     registry_coherent g (has_item_units g party) →
     ∃ b, run (has_item item nid team tag party) g = Ok b) ∧
  (* a unit that does not resolve *)
  (∀ unit x,
     is_convoy unit = false → resolved_unit g unit = None →
     run (get_item unit x) g = Raise AttributeError ∧
     run (get_skill unit x) g = Raise AttributeError ∧
     run (has_skill unit x) g = Raise AttributeError ∧
     run (get_debuff_count unit) g = Raise AttributeError) ∧
  (* a region that does not resolve *)
  (∀ region,
     resolved_region g region = None →
     run (get_units_in_region region None None None) g =
     match game_get_all_units g with
     | [] => Ok []
     | _ :: _ => Raise AttributeError
     end) ∧
  (* a unit without a position *)
  (∀ p1 p2,
     forallb has_position (game_get_all_units g) = false →
     run (get_units_in_area p1 p2) g = Raise TypeError) ∧
  (* [is_dead] hands whatever the reference resolves to on to the game *)
  (∀ unit, run (is_dead unit) g = Ok (game_check_dead g (resolved_unit g unit))).
Proof.
  repeat match goal with |- _ ∧ _ => split end.
  - intros. apply readonly_get_item.
  - intros. apply readonly_has_item.
  - intros. apply readonly_get_skill.
  - intros. apply readonly_has_skill.
  - intros. apply readonly_get_debuff_count.
  - intros. apply readonly_get_closest_allies.
  - intros. apply readonly_get_allies_within_distance.
  - intros. apply readonly_get_units_in_area.
  - intros. apply readonly_get_units_in_region.
  - intros. apply readonly_any_unit_in_region.
  - intros. apply readonly_is_dead.
  - intros unit item u Hc Hu Hno. rewrite run_get_item, Hc, Hu.
    f_equal. apply head_filter_none. intros it Hit. by rewrite (Hno it Hit).
  - intros item Hno. rewrite run_get_item. cbn [is_convoy].
    rewrite String.eqb_refl. f_equal. apply head_filter_none.
    intros it Hit. by rewrite (Hno it Hit).
  - intros unit skill u Hu Hno. rewrite run_get_skill, run_has_skill, Hu.
    by rewrite (find_none_skill _ _ Hno).
  - intros. by apply has_item_total.
  - intros unit x Hc Hu.
    by rewrite run_get_item, run_get_skill, run_has_skill, run_get_debuff_count, Hc, Hu.
  - intros region Hr. unfold get_units_in_region.
    rewrite run_bind by ro. rewrite run_resolve_to_region, Hr.
    rewrite run_bind by ro. rewrite run_ask. apply run_region_loop_unknown.
  - intros p1 p2 Hp. by rewrite run_get_units_in_area, Hp.
  - intros unit. unfold is_dead. rewrite run_bind by ro.
    by rewrite run_resolve_to_unit.
Qed.

(** The claim of C2 fails on [get_skill]: asked about a unit that is not in
    the game, it raises instead of returning [None]. *)
Lemma get_skill_unknown_unit_raises :
  run (get_skill (VStr "Ghost") (VStr "Canto")) demo_game = Raise AttributeError.
Proof. reflexivity. Qed.

Example get_units_in_area_unplaced_unit :
  run (get_units_in_area (0, 0) (5, 5)) bench_game = Raise TypeError.
Proof. reflexivity. Qed.

Example get_units_in_region_unknown_region :
  run (get_units_in_region (VStr "NorthReinforcements") None None None) demo_game
  = Raise AttributeError.
Proof. reflexivity. Qed.

(** C5 at the demo game. *)
Lemma has_item_player_iff_witness :
  ∃ b : bool,
    run (has_item (VStr "Iron Sword") None (Some "player") None None) demo_game = Ok b ∧
    (b = true ↔
     (∃ it, In it (game_get_convoy_inventory demo_game) ∧
        (VInt (item_uid it) = _resolve_to_nid (VStr "Iron Sword") ∨
         VStr (item_nid it) = _resolve_to_nid (VStr "Iron Sword"))) ∨
     (∃ u it, In u (game_get_all_units demo_game) ∧ team u = "player" ∧
        In it (items u) ∧
        (VInt (item_uid it) = _resolve_to_nid (VStr "Iron Sword") ∨
         VStr (item_nid it) = _resolve_to_nid (VStr "Iron Sword")))).
Proof.
  apply (has_item_player_iff demo_game (VStr "Iron Sword")).
  intros u [<-|[<-|[<-|[]]]]; reflexivity.
Defined.

(** C6 at the demo game, for the two allies closest to the bandit, who
    stands on (5, 5). *)
Lemma get_closest_allies_sorted_witness :
  ∃ pairs,
    run (get_closest_allies manhattan (VStr "Bandit") 2) demo_game = Ok pairs ∧
    Z.of_nat (length pairs) ≤ 2 ∧
    StronglySorted (key_le snd) pairs.
Proof.
  destruct (get_closest_allies_sorted manhattan demo_game (VStr "Bandit") 2)
    as [Hret Hres].
  - lia.
  - destruct (Hret (5, 5) eq_refl eq_refl) as [pairs Hrun].
    destruct (Hres pairs Hrun) as (_ & _ & _ & _ & Hle & _ & Hsorted & _).
    exists pairs. split; [exact Hrun | split; [exact Hle | exact Hsorted]].
Defined.

(** The claim of C6 fails for a negative [num]: asked for the [-1] allies
    closest to the bandit, the slice [[:-1]] drops the last pair only, so one
    pair comes back although [num] is [-1]. *)
Lemma get_closest_allies_negative_num :
  run (get_closest_allies manhattan (VStr "Bandit") (-1)) demo_game = Ok [(seth, 6)]
  ∧ -1 < Z.of_nat (length [(seth, 6)]).
Proof. split; [reflexivity | simpl; lia]. Qed.

(** ** Allies within a distance *)

Lemma run_within_distance_loop cd g q dist us :
  run (within_distance_loop cd (VPos q) dist us) g =
  if forallb has_position us
  then Ok (List.filter (λ p, snd p <=? dist)
             (map (λ u, (u, cd (default (0, 0) (position u)) q)) us))
  else Raise TypeError.
Proof.
  induction us as [|u us IH]; [done|].
  cbn [within_distance_loop forallb map List.filter]. unfold has_position at 1.
  rewrite run_bind by apply readonly_distance_to. rewrite run_distance_to.
  destruct (position u) as [p|] eqn:Hp; [|done].
  cbn [default from_option id snd andb].
  destruct (cd p q <=? dist).
  - rewrite run_bind by apply readonly_distance_to. rewrite run_distance_to, Hp.
    rewrite run_bind by apply readonly_within_distance_loop. rewrite IH.
    by destruct (forallb has_position us).
  - exact IH.
Qed.

(** X1. When [_resolve_pos] turns the position argument into map coordinates
    (those of the unit it refers to),
    [get_allies_within_distance] raises TypeError if some player unit is off
    the map, and otherwise returns the (unit, distance) pairs of the player
    units whose distance is at most [dist], in player-unit iteration order:
    a pair is returned exactly for the player units within the distance,
    each with its own distance. *)
Theorem allies_within_distance_filter (cd : Pos → Pos → Z) (g : GameState)
    (position : pyval) (dist : Z) (q : Pos)
    (Hpos : run (_resolve_pos position) g = Ok (VPos q)) :
  run (get_allies_within_distance cd position dist) g =
    (if forallb has_position (game_get_player_units g)
     then Ok (List.filter (λ p, snd p <=? dist) (ally_pairs cd g q))
     else Raise TypeError) ∧
  ∀ pairs, run (get_allies_within_distance cd position dist) g = Ok pairs →
    map fst pairs `sublist_of` game_get_player_units g ∧
    ∀ u d, In (u, d) pairs ↔
      In u (game_get_player_units g) ∧ d ≤ dist ∧
      ∃ p, QueryEngine.position u = Some p ∧ d = cd p q.
Proof.
  assert (Hrun : run (get_allies_within_distance cd position dist) g =
    (if forallb has_position (game_get_player_units g)
     then Ok (List.filter (λ p, snd p <=? dist) (ally_pairs cd g q))
     else Raise TypeError)).
  { unfold get_allies_within_distance.
    rewrite run_bind by apply readonly_resolve_pos. rewrite Hpos.
    rewrite run_bind by ro. rewrite run_ask. apply run_within_distance_loop. }
  split; [exact Hrun|]. intros pairs. rewrite Hrun.
  destruct (forallb has_position (game_get_player_units g)) eqn:Hall; [|done].
  intros [= <-]. unfold ally_pairs. split.
  - clear Hall. induction (game_get_player_units g) as [|u us IH]; [done|].
    cbn [map List.filter]. destruct (snd _ <=? dist).
    + cbn [map fst]. by apply sublist_skip.
    + by apply sublist_cons.
  - intros u d. rewrite filter_In, in_map_iff. cbn [snd]. split.
    + intros [(v & [= -> <-] & Hv) Hd]. split; [done|].
      apply Z.leb_le in Hd. split; [done|].
      rewrite forallb_forall in Hall. specialize (Hall u Hv).
      unfold has_position in Hall.
      destruct (QueryEngine.position u) as [p|]; [|done]. by exists p.
    + intros (Hu & Hd & p & Hp & ->). split.
      * exists u. by rewrite Hp.
      * apply Z.leb_le. exact Hd.
Qed.

(** X1 for the allies within distance 1 of the villager, who stands on
    (2, 1), for those within distance 6 of the bandit, and at the game with an
    unplaced player unit. *)
Lemma allies_within_distance_filter_witness :
  run (get_allies_within_distance manhattan (VStr "Natasha") 1) village_game =
    Ok [(eirika, 1); (seth, 1)] ∧
  run (get_allies_within_distance manhattan (VUnit bandit) 6) demo_game =
    Ok [(seth, 6)] ∧
  run (get_allies_within_distance manhattan (VStr "Bandit") 6) bench_game =
    Raise TypeError.
Proof.
  split; [|split].
  - apply (proj1 (allies_within_distance_filter manhattan village_game
                    (VStr "Natasha") 1 (2, 1) eq_refl)).
  - apply (proj1 (allies_within_distance_filter manhattan demo_game
                    (VUnit bandit) 6 (5, 5) eq_refl)).
  - apply (proj1 (allies_within_distance_filter manhattan bench_game
                    (VStr "Bandit") 6 (5, 5) eq_refl)).
Defined.

(** ** First matches *)

(** The first element of a list that satisfies a test, with what comes
    before it. *)
Lemma find_first_match {A} (f : A → bool) (l : list A) :
  match find f l with
  | Some x => ∃ before after,
      l = (before ++ x :: after)%list ∧ f x = true ∧ ∀ y, In y before → f y = false
  | None => ∀ y, In y l → f y = false
  end.
Proof.
  induction l as [|a l IH]; [by intros y []|]. cbn [find].
  destruct (f a) eqn:Ha.
  - exists [], l. by repeat split.
  - destruct (find f l) as [x|].
    + destruct IH as (before & after & -> & Hx & Hb).
      exists (a :: before), after. repeat split; [done|].
      intros y [<-|Hy]; [done | by apply Hb].
    + intros y [<-|Hy]; [done | by apply IH].
Qed.

Lemma head_filter_find {A} (f : A → bool) (l : list A) :
  head (filter (λ x, f x = true) l) = find f l.
Proof.
  induction l as [|a l IH]; [done|]. rewrite filter_cons. cbn [find].
  destruct (f a) eqn:Ha.
  - by rewrite decide_True by done.
  - by rewrite decide_False by done.
Qed.

Lemma skill_matches_spec ref sk :
  skill_matches ref sk = true ↔ VStr (skill_nid sk) = ref.
Proof.
  destruct ref; simpl; try (split; done).
  rewrite String.eqb_eq. split; [by intros -> | by intros [=]].
Qed.

(** X2. On a unit that resolves, [get_skill] returns the first skill of the
    unit, in the order of [unit.skills], whose nid equals the resolved skill
    reference, and [None] when the unit has no such skill; [has_skill]
    returns True exactly when [get_skill] returns a skill. *)
Theorem get_skill_first_match (g : GameState) (unit skill : pyval) (u : UnitObject)
    (Hu : resolved_unit g unit = Some u) :
  ∃ r,
    run (get_skill unit skill) g = Ok r ∧
    run (has_skill unit skill) g = Ok (bool_decide (is_Some r)) ∧
    match r with
    | Some sk => ∃ before after,
        skills u = (before ++ sk :: after)%list ∧
        VStr (skill_nid sk) = _resolve_to_nid skill ∧
        ∀ s, In s before → VStr (skill_nid s) ≠ _resolve_to_nid skill
    | None => ∀ s, In s (skills u) → VStr (skill_nid s) ≠ _resolve_to_nid skill
    end.
Proof.
  exists (find (skill_matches (_resolve_to_nid skill)) (skills u)).
  rewrite run_get_skill, run_has_skill, Hu. split; [done|]. split; [done|].
  pose proof (find_first_match (skill_matches (_resolve_to_nid skill)) (skills u)) as H.
  destruct (find _ _) as [sk|].
  - destruct H as (before & after & Hl & Hsk & Hb).
    exists before, after. split; [done|]. split; [by apply skill_matches_spec|].
    intros s Hs Heq. apply skill_matches_spec in Heq. by rewrite (Hb s Hs) in Heq.
  - intros s Hs Heq. apply skill_matches_spec in Heq. by rewrite (H s Hs) in Heq.
Qed.

(** X2 at the demo game: Seth has Canto. *)
Lemma get_skill_first_match_witness :
  ∃ r,
    run (get_skill (VStr "Seth") (VStr "Canto")) demo_game = Ok r ∧
    run (has_skill (VStr "Seth") (VStr "Canto")) demo_game = Ok (bool_decide (is_Some r)).
Proof.
  destruct (get_skill_first_match demo_game (VStr "Seth") (VStr "Canto") seth eq_refl)
    as (r & Hget & Hhas & _).
  exists r. split; [exact Hget | exact Hhas].
Defined.

(** The inventory [get_item] searches: the convoy for the string 'convoy',
    the items of the unit the reference resolves to otherwise. *)
Definition searched_inventory (g : GameState) (unit : pyval) : option (list ItemObject) :=
  if is_convoy unit then Some (game_get_convoy_inventory g)
  else option_map items (resolved_unit g unit).

(** X3. [get_item] returns the first item of the searched inventory (the
    convoy for 'convoy', the unit's items otherwise), in inventory order,
    whose uid or nid equals the resolved item reference, and [None] when the
    inventory holds no such item. *)
Theorem get_item_first_match (g : GameState) (unit item : pyval)
    (inventory : list ItemObject)
    (Hinv : searched_inventory g unit = Some inventory) :
  ∃ r,
    run (get_item unit item) g = Ok r ∧
    match r with
    | Some it => ∃ before after,
        inventory = (before ++ it :: after)%list ∧
        (VInt (item_uid it) = _resolve_to_nid item ∨
         VStr (item_nid it) = _resolve_to_nid item) ∧
        ∀ x, In x before →
          VInt (item_uid x) ≠ _resolve_to_nid item ∧
          VStr (item_nid x) ≠ _resolve_to_nid item
    | None => ∀ x, In x inventory →
        VInt (item_uid x) ≠ _resolve_to_nid item ∧
        VStr (item_nid x) ≠ _resolve_to_nid item
    end.
Proof.
  set (ref := _resolve_to_nid item).
  exists (find (item_matches ref) inventory). split.
  - rewrite run_get_item. fold ref. unfold searched_inventory in Hinv.
    destruct (is_convoy unit).
    + injection Hinv as <-. by rewrite head_filter_find.
    + destruct (resolved_unit g unit) as [u|]; [|done].
      injection Hinv as <-. by rewrite head_filter_find.
  - assert (Hno : ∀ x, item_matches ref x = false →
              VInt (item_uid x) ≠ ref ∧ VStr (item_nid x) ≠ ref).
    { intros x Hx. split; intros Heq.
      - assert (Hm : item_matches ref x = true)
          by (apply item_matches_spec; by left).
        by rewrite Hx in Hm.
      - assert (Hm : item_matches ref x = true)
          by (apply item_matches_spec; by right).
        by rewrite Hx in Hm. }
    pose proof (find_first_match (item_matches ref) inventory) as H.
    destruct (find _ _) as [it|].
    + destruct H as (before & after & Hl & Hit & Hb).
      exists before, after. split; [done|]. split; [by apply item_matches_spec|].
      intros x Hx. apply Hno. by apply Hb.
    + intros x Hx. apply Hno. by apply H.
Qed.

(** X3 at the demo game: Eirika's sword, looked up by its uid. *)
Lemma get_item_first_match_witness :
  ∃ r, run (get_item (VStr "Eirika") (VItem iron_sword)) demo_game = Ok r ∧
       ∃ it, r = Some it ∧ item_uid it = 101.
Proof.
  destruct (get_item_first_match demo_game (VStr "Eirika") (VItem iron_sword)
              [iron_sword] eq_refl) as (r & Hrun & Hr).
  exists r. split; [exact Hrun|].
  destruct r as [it|].
  - exists it. split; [reflexivity|].
    destruct Hr as (before & after & _ & [Huid|Hnid] & _).
    + injection Huid as Huid. exact Huid.
    + discriminate Hnid.
  - destruct (Hr iron_sword (or_introl eq_refl)) as [Huid _].
    exfalso. apply Huid. reflexivity.
Defined.

(** ** The selection criteria of [has_item] and [get_units_in_region] *)

(** A unit passes the three [continue] tests: each criterion is either
    falsy ([None] or the empty string) or met by the unit. *)
Definition selected (nid team tag : option string) (u : UnitObject) : bool :=
  negb (truthy_str nid && negb (opt_str_eq nid (unit_nid u))) &&
  negb (truthy_str team && negb (opt_str_eq team (QueryEngine.team u))) &&
  negb (truthy_str tag && negb (existsb (λ t, opt_str_eq tag t) (tags u))).

Definition criterion (c : option string) (P : string → Prop) : Prop :=
  c = None ∨ c = Some "" ∨ ∃ s, c = Some s ∧ P s.

Lemma criterion_spec c (f : string → bool) (P : string → Prop) :
  (∀ s, f s = true ↔ P s) →
  negb (truthy_str c && negb (match c with Some s => f s | None => false end)) = true
  ↔ criterion c P.
Proof.
  intros Hf. unfold criterion. destruct c as [s|]; cbn [truthy_str].
  - destruct (String.eqb_spec s "") as [->|Hs]; cbn [negb andb].
    + split; [by right; left | done].
    + rewrite negb_involutive, Hf. split.
      * intros HP. right. right. by exists s.
      * intros [?|[[= ?]|(s' & [= <-] & HP)]]; done.
  - split; [by left | done].
Qed.

Lemma selected_spec nid team tag u :
  selected nid team tag u = true ↔
  criterion nid (λ s, unit_nid u = s) ∧
  criterion team (λ s, QueryEngine.team u = s) ∧
  criterion tag (λ s, In s (tags u)).
Proof.
  unfold selected. rewrite !andb_true_iff.
  assert (H1 : negb (truthy_str nid && negb (opt_str_eq nid (unit_nid u))) = true
               ↔ criterion nid (λ s, unit_nid u = s)).
  { rewrite <-(criterion_spec nid (λ s, String.eqb s (unit_nid u))).
    - by destruct nid.
    - intros s. rewrite String.eqb_eq. split; congruence. }
  assert (H2 : negb (truthy_str team && negb (opt_str_eq team (QueryEngine.team u)))
               = true ↔ criterion team (λ s, QueryEngine.team u = s)).
  { rewrite <-(criterion_spec team (λ s, String.eqb s (QueryEngine.team u))).
    - by destruct team.
    - intros s. rewrite String.eqb_eq. split; congruence. }
  assert (H3 : negb (truthy_str tag &&
                     negb (existsb (λ t, opt_str_eq tag t) (tags u))) = true
               ↔ criterion tag (λ s, In s (tags u))).
  { rewrite <-(criterion_spec tag (λ s, existsb (String.eqb s) (tags u))).
    - destruct tag as [s|]; [done|]. cbn [truthy_str andb]. done.
    - intros s. rewrite existsb_exists. split.
      + intros (t & Ht & ->%String.eqb_eq). done.
      + intros Hs. exists s. split; [done | apply String.eqb_refl]. }
  rewrite H1, H2, H3. tauto.
Qed.

Lemma existsb_item_matches ref (l : list ItemObject) :
  existsb (λ x, bool_decide (item_matches ref x = true)) l = existsb (item_matches ref) l.
Proof.
  induction l as [|it l IH]; [done|]. cbn [existsb]. rewrite IH.
  by destruct (item_matches ref it).
Qed.

Lemma run_has_item_loop g ref nid team tag us :
  registry_coherent g us →
  run (has_item_loop (_resolve_to_nid ref) nid team tag us) g =
  Ok (existsb (λ u, selected nid team tag u && holds_item (_resolve_to_nid ref) u) us).
Proof.
  intros Hcoh. induction us as [|u us IH]; [done|].
  assert (IH' := IH (λ v Hv, Hcoh v (or_intror Hv))). clear IH.
  cbn [has_item_loop existsb]. unfold selected at 1.
  destruct (truthy_str nid && negb (opt_str_eq nid (unit_nid u))); [exact IH'|].
  destruct (truthy_str team && negb (opt_str_eq team (QueryEngine.team u)));
    [exact IH'|].
  destruct (truthy_str tag && negb (existsb _ (tags u))); [exact IH'|].
  cbn [negb andb].
  rewrite run_bind by apply readonly_get_item.
  rewrite run_get_item_unit by (apply Hcoh; by left).
  rewrite head_filter_is_Some, existsb_item_matches. unfold holds_item at 1.
  destruct (existsb _ (items u)); [reflexivity | exact IH'].
Qed.

(** A unit nid that no unit carries lets the loop skip every unit. *)
Lemma run_has_item_loop_skips g ref n team tag us :
  n ≠ "" → (∀ u, In u us → unit_nid u ≠ n) →
  run (has_item_loop ref (Some n) team tag us) g = Ok false.
Proof.
  intros Hn Hus. induction us as [|u us IH]; [done|].
  cbn [has_item_loop truthy_str opt_str_eq].
  apply String.eqb_neq in Hn. rewrite Hn. cbn [negb andb].
  assert (Hu : String.eqb n (unit_nid u) = false).
  { apply String.eqb_neq. intros ->. by apply (Hus u); [left|]. }
  rewrite Hu. cbn [negb]. apply IH. intros v Hv. apply Hus. by right.
Qed.

Lemma run_has_item_units g party :
  run (match party with
       | Some p => if truthy_str party
                   then ask (λ g, game_get_all_units_in_party g p)
                   else ask game_get_all_units
       | None => ask game_get_all_units
       end) g = Ok (has_item_units g party).
Proof. unfold has_item_units. destruct party; [destruct (truthy_str _)|]; done. Qed.

Lemma readonly_has_item_units party :
  readonly (match party with
            | Some p => if truthy_str party
                        then ask (λ g, game_get_all_units_in_party g p)
                        else ask game_get_all_units
            | None => ask game_get_all_units
            end).
Proof. destruct party; [destruct (truthy_str _)|]; ro. Qed.

(** X4. [has_item(item, nid='convoy', ...)] answers for the convoy alone:
    when no unit it iterates over is itself called 'convoy', it returns True
    exactly when the convoy inventory holds an item whose uid or nid equals
    the resolved reference, whatever [team], [tag] and [party] are, and
    without looking at any unit. *)
Theorem has_item_convoy_only (g : GameState) (item : pyval)
    (team tag party : option string)
    (Hno : ∀ u, In u (has_item_units g party) → unit_nid u ≠ "convoy") :
  ∃ b : bool,
    run (has_item item (Some "convoy") team tag party) g = Ok b ∧
    (b = true ↔
     ∃ it, In it (game_get_convoy_inventory g) ∧
       (VInt (item_uid it) = _resolve_to_nid item ∨
        VStr (item_nid it) = _resolve_to_nid item)).
Proof.
  exists (existsb (item_matches (_resolve_to_nid item)) (game_get_convoy_inventory g)).
  split.
  - unfold has_item. rewrite run_bind by apply readonly_has_item_units.
    rewrite run_has_item_units.
    cbn [truthy_str opt_str_eq negb orb]. rewrite String.eqb_refl. cbn [orb].
    rewrite orb_true_r.
    rewrite run_bind by ro. rewrite run_bind by ro. rewrite run_ask, run_ret.
    destruct (existsb _ (game_get_convoy_inventory g)); [done|].
    by apply run_has_item_loop_skips.
  - rewrite existsb_exists. split.
    + intros (it & Hin & Hm). exists it. split; [done|]. by apply item_matches_spec.
    + intros (it & Hin & Hm). exists it. split; [done|]. by apply item_matches_spec.
Qed.

(** X4 at the demo game: the convoy holds a vulnerary. *)
Lemma has_item_convoy_only_witness :
  ∃ b : bool,
    run (has_item (VStr "Vulnerary") (Some "convoy") (Some "enemy") None None)
      demo_game = Ok b ∧
    (b = true ↔
     ∃ it, In it (game_get_convoy_inventory demo_game) ∧
       (VInt (item_uid it) = VStr "Vulnerary" ∨ VStr (item_nid it) = VStr "Vulnerary")).
Proof.
  apply (has_item_convoy_only demo_game (VStr "Vulnerary") (Some "enemy") None None).
  intros u [<-|[<-|[<-|[]]]]; discriminate.
Defined.

(** X5. [has_item(item, nid=n, ...)] for a unit nid [n] other than 'convoy'
    never consults a convoy, not even for team 'player' or with a party:
    on a game whose units are found under their nid, it returns True exactly
    when some unit it iterates over has nid [n], meets the [team] and [tag]
    criteria and holds a matching item. *)
Theorem has_item_named_unit (g : GameState) (item : pyval) (n : string)
    (team tag party : option string)
    (Hn : n ≠ "") (Hc : n ≠ "convoy")
    (Hcoh : registry_coherent g (has_item_units g party)) :
  ∃ b : bool,
    run (has_item item (Some n) team tag party) g = Ok b ∧
    (b = true ↔
     ∃ u it, In u (has_item_units g party) ∧ unit_nid u = n ∧
       criterion team (λ s, QueryEngine.team u = s) ∧
       criterion tag (λ s, In s (tags u)) ∧
       In it (items u) ∧
       (VInt (item_uid it) = _resolve_to_nid item ∨
        VStr (item_nid it) = _resolve_to_nid item)).
Proof.
  set (ref := _resolve_to_nid item).
  exists (existsb (λ u, selected (Some n) team tag u && holds_item ref u)
            (has_item_units g party)).
  split.
  - unfold has_item. rewrite run_bind by apply readonly_has_item_units.
    rewrite run_has_item_units.
    cbn [truthy_str opt_str_eq]. apply String.eqb_neq in Hn, Hc. rewrite Hn, Hc.
    cbn [negb orb]. rewrite run_bind by ro. rewrite run_ret.
    by apply run_has_item_loop.
  - rewrite existsb_exists. split.
    + intros (u & Hin & [Hsel Hh]%andb_true_iff).
      apply selected_spec in Hsel as (Hnid & Hteam & Htag).
      apply existsb_exists in Hh as (it & Hit & Hm).
      exists u, it. split; [done|]. split.
      { destruct Hnid as [?|[[= ->]|(s & [= <-] & Hs)]]; done. }
      repeat split; try done. by apply item_matches_spec.
    + intros (u & it & Hin & Hnid & Hteam & Htag & Hit & Hm).
      exists u. split; [done|]. apply andb_true_iff. split.
      * apply selected_spec. split; [|done]. right. right. by exists n.
      * apply existsb_exists. exists it. split; [done|]. by apply item_matches_spec.
Qed.

(** X5 at the demo game: Eirika holds the sword; the vulnerary of the convoy
    is not hers. *)
Lemma has_item_named_unit_witness :
  ∃ b : bool,
    run (has_item (VStr "Vulnerary") (Some "Eirika") (Some "player") None None)
      demo_game = Ok b ∧
    b = false.
Proof.
  destruct (has_item_named_unit demo_game (VStr "Vulnerary") "Eirika"
              (Some "player") None None) as (b & Hrun & Hb).
  - discriminate.
  - discriminate.
  - intros u [<-|[<-|[<-|[]]]]; reflexivity.
  - exists b. split; [exact Hrun|].
    destruct b; [|reflexivity]. exfalso.
    destruct (proj1 Hb eq_refl) as (u & it & Hu & Hnid & _ & _ & Hit & Hm).
    destruct Hu as [<-|[<-|[<-|[]]]]; try discriminate Hnid.
    destruct Hit as [<-|[]]. destruct Hm as [Hm|Hm]; discriminate Hm.
Defined.

(** ** Units in a region *)

Lemma region_loop_cons region nid team tag u us :
  region_loop region nid team tag (u :: us) =
  if selected nid team tag u then
    match region with
    | None => raise AttributeError
    | Some r =>
      inside ← contains r (position u);
      tl ← region_loop region nid team tag us;
      ret (if (inside : bool) then u :: tl else tl)
    end
  else region_loop region nid team tag us.
Proof.
  cbn [region_loop]. unfold selected.
  destruct (truthy_str nid && negb (opt_str_eq nid (unit_nid u))); [done|].
  destruct (truthy_str team && negb (opt_str_eq team (QueryEngine.team u))); [done|].
  by destruct (truthy_str tag && negb (existsb _ (tags u))).
Qed.

Lemma run_region_loop g r nid team tag us :
  (∀ u, In u us → selected nid team tag u = true →
        ∃ b, run (contains r (position u)) g = Ok b) →
  ∃ res,
    run (region_loop (Some r) nid team tag us) g = Ok res ∧
    res `sublist_of` us ∧
    ∀ u, In u res ↔
      In u us ∧ selected nid team tag u = true ∧
      run (contains r (position u)) g = Ok true.
Proof.
  induction us as [|u us IH]; intros Hc.
  - exists []. split; [done|]. split; [done|]. intros u. split; [done | by intros [[] _]].
  - destruct IH as (res & Hrun & Hsub & Hres).
    { intros v Hv. apply Hc. by right. }
    rewrite region_loop_cons. specialize (Hc u (or_introl eq_refl)).
    destruct (selected nid team tag u) eqn:Hsel.
    + destruct (Hc eq_refl) as [b Hb].
      rewrite run_bind by apply readonly_contains. rewrite Hb.
      rewrite run_bind by apply readonly_region_loop. rewrite Hrun, run_ret.
      destruct b.
      * exists (u :: res). split; [done|]. split; [by apply sublist_skip|].
        intros v. cbn [In]. rewrite Hres. split.
        -- intros [<-|(Hv & Hs & Hin)]; [by split; [left|] | by split; [right|]].
        -- intros ([<-|Hv] & Hs & Hin); [by left | by right].
      * exists res. split; [done|]. split; [by apply sublist_cons|].
        intros v. rewrite Hres. split.
        -- intros (Hv & Hs & Hin). by split; [right|].
        -- intros ([<-|Hv] & Hs & Hin); [congruence | done].
    + exists res. split; [done|]. split; [by apply sublist_cons|].
      intros v. rewrite Hres. split.
      * intros (Hv & Hs & Hin). by split; [right|].
      * intros ([<-|Hv] & Hs & Hin); [congruence | done].
Qed.

(** X6. On a region that resolves, [get_units_in_region] examines the
    position of the selected units only: when [region.contains] answers for
    every unit that meets the [nid], [team] and [tag] criteria, the call
    returns, in registry order, exactly the units that meet the criteria and
    that the region contains; units that fail a criterion are skipped before
    their position is looked at. [any_unit_in_region] returns True exactly
    when that list is not empty. *)
Theorem get_units_in_region_selected (g : GameState) (region : pyval)
    (nid team tag : option string) (r : Region)
    (Hr : resolved_region g region = Some r)
    (Hc : ∀ u, In u (game_get_all_units g) → selected nid team tag u = true →
            ∃ b, run (contains r (position u)) g = Ok b) :
  ∃ res,
    run (get_units_in_region region nid team tag) g = Ok res ∧
    res `sublist_of` game_get_all_units g ∧
    (∀ u, In u res ↔
       In u (game_get_all_units g) ∧
       (criterion nid (λ s, unit_nid u = s) ∧
        criterion team (λ s, QueryEngine.team u = s) ∧
        criterion tag (λ s, In s (tags u))) ∧
       run (contains r (position u)) g = Ok true) ∧
    run (any_unit_in_region region nid team tag) g =
      Ok (match res with [] => false | _ :: _ => true end).
Proof.
  destruct (run_region_loop g r nid team tag (game_get_all_units g) Hc)
    as (res & Hrun & Hsub & Hres).
  assert (Hget : run (get_units_in_region region nid team tag) g = Ok res).
  { unfold get_units_in_region. rewrite run_bind by ro.
    rewrite run_resolve_to_region, Hr. rewrite run_bind by ro. by rewrite run_ask. }
  exists res. split; [exact Hget|]. split; [exact Hsub|]. split.
  - intros u. rewrite Hres, selected_spec. tauto.
  - unfold any_unit_in_region.
    rewrite run_bind by apply readonly_get_units_in_region. by rewrite Hget.
Qed.

(** A game with a region and a unit that is not on the map. *)
Definition throne_room : Region :=
  {| region_nid := "Throne"; region_position := (0, 0); region_size := (2, 2) |}.

Definition throne_game : GameState :=
  {| game_get_unit := registry_of [eirika; seth; bandit; franz];
     game_get_region := λ n, if String.eqb n "Throne" then Some throne_room else None;
     game_get_all_units := [eirika; seth; bandit; franz];
     game_get_all_units_in_party := λ _, [eirika; seth; franz];
     game_get_player_units := [eirika; seth; franz];
     game_get_convoy_inventory := [vulnerary];
     game_get_party_convoy := λ _, [vulnerary];
     game_check_dead := λ _, false |}.

(** X6 at a game where Franz, a player unit, is off the map: asking for the
    enemy units in the throne room never looks at him. *)
Lemma get_units_in_region_selected_witness :
  ∃ res,
    run (get_units_in_region (VStr "Throne") None (Some "enemy") None) throne_game
      = Ok res ∧
    run (any_unit_in_region (VStr "Throne") None (Some "enemy") None) throne_game
      = Ok (match res with [] => false | _ :: _ => true end).
Proof.
  destruct (get_units_in_region_selected throne_game (VStr "Throne") None
              (Some "enemy") None throne_room eq_refl) as (res & Hrun & _ & _ & Hany).
  - intros u [<-|[<-|[<-|[<-|[]]]]] Hs; try discriminate Hs. by exists false.
  - exists res. split; [exact Hrun | exact Hany].
Defined.

Example get_units_in_region_unplaced_unit :
  run (get_units_in_region (VStr "Throne") None None None) throne_game = Raise TypeError ∧
  run (get_units_in_region (VStr "Throne") None (Some "enemy") None) throne_game = Ok [] ∧
  run (get_units_in_region (VStr "Throne") (Some "Eirika") None None) throne_game
    = Ok [eirika].
Proof. repeat split; reflexivity. Qed.

(** ** A position argument that is not a position *)

Lemma run_for_each_no_coordinates cd g pv u us :
  (∀ q, pv ≠ VPos q) →
  run (for_each (λ unit, d ← distance_to cd pv unit; ret (unit, d)) (u :: us)) g
  = Raise TypeError.
Proof.
  intros Hpv. rewrite for_each_cons. rewrite run_bind.
  2:{ apply readonly_bind; [apply readonly_distance_to | ro]. }
  rewrite run_bind by apply readonly_distance_to.
  unfold distance_to at 1. destruct (QueryEngine.position u); [|done].
  destruct pv; try done. by destruct (Hpv p0).
Qed.

Lemma run_within_distance_no_coordinates cd g pv dist u us :
  (∀ q, pv ≠ VPos q) →
  run (within_distance_loop cd pv dist (u :: us)) g = Raise TypeError.
Proof.
  intros Hpv. cbn [within_distance_loop].
  rewrite run_bind by apply readonly_distance_to.
  unfold distance_to at 1. destruct (QueryEngine.position u); [|done].
  destruct pv; try done. by destruct (Hpv p0).
Qed.

Lemma slice_to_nil {A} num : slice_to (@nil A) num = [].
Proof. unfold slice_to. destruct (0 <=? num); by rewrite firstn_nil. Qed.

(** The coordinates a position argument stands for: those of the unit it
    resolves to, if that unit is on the map. *)
Definition resolved_position (g : GameState) (v : pyval) : option Pos :=
  resolved_unit g v ≫= QueryEngine.position.

(** X23. [_resolve_pos] never raises and never hands its argument back: it
    returns the position of the unit the argument resolves to, and [None]
    both for a unit that is off the map and for an argument that resolves to
    no unit, coordinates included. So [get_closest_allies] and
    [get_allies_within_distance] work for a reference to a unit on the map
    only: for any other position argument they raise TypeError as soon as
    there is a player unit, and return the empty list when there is none. *)
Theorem allies_need_coordinates (cd : Pos → Pos → Z) (g : GameState)
    (position : pyval) (num dist : Z) :
  run (_resolve_pos position) g = Ok (pos_to_val (resolved_position g position)) ∧
  (∀ q, run (_resolve_pos (VPos q)) g = Ok VNone) ∧
  (resolved_position g position = None →
   match game_get_player_units g with
   | [] => run (get_closest_allies cd position num) g = Ok [] ∧
           run (get_allies_within_distance cd position dist) g = Ok []
   | _ :: _ => run (get_closest_allies cd position num) g = Raise TypeError ∧
               run (get_allies_within_distance cd position dist) g = Raise TypeError
   end).
Proof.
  assert (Hpos : ∀ v, run (_resolve_pos v) g = Ok (pos_to_val (resolved_position g v))).
  { intros v.
    unfold _resolve_pos, run, try_except, mbind, M_bind, bind, _resolve_to_unit,
      get_unit, ask, resolved_position, resolved_unit. cbn.
    destruct (_resolve_to_nid v) as [| s | | | | | |];
      try destruct (game_get_unit g s); done. }
  split; [apply Hpos|]. split; [intros q; apply Hpos|].
  intros Hnone. unfold get_closest_allies, get_allies_within_distance.
  rewrite !(run_bind (_resolve_pos position)) by apply readonly_resolve_pos.
  rewrite Hpos, Hnone. cbn [pos_to_val].
  rewrite !(run_bind (ask game_get_player_units)) by ro.
  rewrite run_ask. destruct (game_get_player_units g) as [|u us].
  - split; [|done]. cbn [for_each]. rewrite run_bind by ro.
    rewrite !run_ret. f_equal. apply (slice_to_nil num).
  - split; [|by apply run_within_distance_no_coordinates].
    rewrite run_bind.
    2:{ apply readonly_for_each. intros v.
        apply readonly_bind; [apply readonly_distance_to | ro]. }
    by rewrite run_for_each_no_coordinates.
Qed.

Example resolve_pos_demo :
  run (_resolve_pos (VStr "Seth")) demo_game = Ok (VPos (3, 1)) ∧
  run (_resolve_pos (VStr "Franz")) bench_game = Ok VNone ∧
  run (_resolve_pos (VStr "Ghost")) demo_game = Ok VNone ∧
  run (_resolve_pos (VPos (2, 1))) demo_game = Ok VNone ∧
  run (get_allies_within_distance manhattan (VPos (2, 1)) 1) demo_game = Raise TypeError ∧
  run (get_closest_allies manhattan (VStr "Franz") 1) bench_game = Raise TypeError.
Proof. repeat split; reflexivity. Qed.

End QueryEngine.

(* ===================================================================== *)
(** * app/data/database/items.py                                          *)
(* ===================================================================== *)

Module Items.
Import Py.

Section Restore.
(** The serialised value of a component: any Python value. *)
Context {Value : Type}.

(** An item component: its nid, its value, and the nids of the components it
    must be paired with. *)
Record Component := {
  nid : string;
  value : Value;
  paired_with : list string }.

(** The serialised form of an item as [save] writes it. *)
Record ItemData := {
  dat_nid : string;
  dat_name : string;
  dat_desc : string;
  dat_icon_nid : option string;
  dat_icon_index : Z * Z;
  dat_components : list (string * Value) }.

(** An entry of the component container is whatever was appended to it:
    a component, or [None]. *)
Record ItemPrefab := {
  item_nid : string;
  name : string;
  desc : string;
  icon_nid : option string;
  icon_index : Z * Z;
  components : list (option Component) }.

(** The component registry of app.engine.item_component_access:
    [restore_component] rebuilds a component from a (nid, value) pair and
    answers [None] when it cannot; [get_component] looks a component up by
    nid. *)
Variable restore_component : string * Value → option Component.
Variable get_component : string → option Component.

(** [[c for c in components if c]] over the restored entries. *)
Definition restored (saved : list (string * Value)) : list Component :=
  omap restore_component saved.

(** [any([paired_nid == component.nid for component in components])] *)
Definition has_component (components : list Component) (paired_nid : string) : bool :=
  existsb (λ c, String.eqb paired_nid (nid c)) components.

(** The inner loop over [component.paired_with]: a missing partner is
    default-initialised and appended. *)
Fixpoint add_paired (components : list Component) (paired : list string)
    (all_components : list (option Component)) : Res (list (option Component)) :=
  match paired with
  | [] => Ok all_components
  | paired_nid :: rest =>
    if has_component components paired_nid then
      add_paired components rest all_components
    else
      match get_component paired_nid with
      | None => Raise AttributeError          (* component_class.value *)
      | Some component_class =>
        let new_paired := restore_component (paired_nid, value component_class) in
        add_paired components rest (all_components ++ [new_paired])
      end
  end.

(** The outer loop over the restored components. *)
Fixpoint add_components (components todo : list Component)
    (all_components : list (option Component)) : Res (list (option Component)) :=
  match todo with
  | [] => Ok all_components
  | component :: rest =>
    match add_paired components (paired_with component)
            (all_components ++ [Some component]) with
    | Ok all_components' => add_components components rest all_components'
    | Raise e => Raise e
    end
  end.

Definition restore (dat : ItemData) : Res ItemPrefab :=
  let components := restored (dat_components dat) in
  match add_components components components [] with
  | Ok all_components =>
    Ok {| item_nid := dat_nid dat; name := dat_name dat; desc := dat_desc dat;
          icon_nid := dat_icon_nid dat; icon_index := dat_icon_index dat;
          components := all_components |}
  | Raise e => Raise e
  end.

(** The saved data with the entries that fail to restore struck out. *)
Definition restorable (v : string * Value) : bool :=
  match restore_component v with Some _ => true | None => false end.

Definition without_failed (dat : ItemData) : ItemData :=
  {| dat_nid := dat_nid dat; dat_name := dat_name dat; dat_desc := dat_desc dat;
     dat_icon_nid := dat_icon_nid dat; dat_icon_index := dat_icon_index dat;
     dat_components := List.filter restorable (dat_components dat) |}.

(** The registry is coherent when a component it knows by nid can be rebuilt
    from its own default value. *)
Definition registry_coherent : Prop :=
  ∀ paired_nid c, get_component paired_nid = Some c →
    restore_component (paired_nid, value c) ≠ None.

Lemma restored_without_failed saved :
  restored (List.filter restorable saved) = restored saved.
Proof.
  unfold restored. induction saved as [|v saved IH]; [done|].
  cbn [List.filter]. unfold restorable at 1.
  destruct (restore_component v) eqn:Hv; cbn [omap list_omap]; rewrite ?Hv, IH; done.
Qed.

Lemma restored_length saved :
  (length (restored saved) ≤ length saved)%nat.
Proof.
  unfold restored. induction saved as [|v saved IH]; [done|].
  cbn [omap list_omap]. destruct (restore_component v); simpl; lia.
Qed.

Lemma restored_all_fail saved :
  forallb (λ v, negb (restorable v)) saved = true → restored saved = [].
Proof.
  unfold restored, restorable. induction saved as [|v saved IH]; [done|].
  simpl. destruct (restore_component v); [done|]. exact IH.
Qed.

Lemma add_paired_no_None components paired acc acc' :
  registry_coherent →
  add_paired components paired acc = Ok acc' →
  ¬ In None acc → ¬ In None acc'.
Proof.
  intros Hcoh. revert acc. induction paired as [|p paired IH]; intros acc; simpl.
  - by intros [= <-].
  - destruct (has_component components p); [apply IH|].
    destruct (get_component p) as [c|] eqn:Hc; [|done].
    intros Hrun Hacc. eapply IH; [exact Hrun|].
    rewrite in_app_iff. intros [?|[Hn|[]]]; [done|].
    by apply (Hcoh p c Hc).
Qed.

Lemma add_components_no_None components todo acc acc' :
  registry_coherent →
  add_components components todo acc = Ok acc' →
  ¬ In None acc → ¬ In None acc'.
Proof.
  intros Hcoh. revert acc. induction todo as [|c todo IH]; intros acc; simpl.
  - by intros [= <-].
  - destruct (add_paired _ _ _) as [acc1|] eqn:H1; [|done].
    intros Hrun Hacc. eapply IH; [exact Hrun|].
    eapply add_paired_no_None; [done | exact H1 |].
    rewrite in_app_iff. intros [?|[?|[]]]; done.
Qed.

Lemma add_paired_keeps components paired acc acc' x :
  add_paired components paired acc = Ok acc' → In x acc → In x acc'.
Proof.
  revert acc. induction paired as [|p paired IH]; intros acc; simpl.
  - by intros [= <-].
  - destruct (has_component components p); [apply IH|].
    destruct (get_component p) as [c|]; [|done].
    intros Hrun Hacc. eapply IH; [exact Hrun|]. apply in_app_iff. by left.
Qed.

Lemma add_components_keeps components todo acc acc' x :
  add_components components todo acc = Ok acc' →
  In x acc ∨ (∃ c, x = Some c ∧ In c todo) → In x acc'.
Proof.
  revert acc. induction todo as [|c todo IH]; intros acc; simpl.
  - intros [= <-] [?|(c & _ & [])]. done.
  - destruct (add_paired _ _ _) as [acc1|] eqn:H1; [|done].
    intros Hrun Hx. eapply IH; [exact Hrun|].
    destruct Hx as [Hx|(c' & -> & [->|Hc'])].
    + left. eapply add_paired_keeps; [exact H1|]. apply in_app_iff. by left.
    + left. eapply add_paired_keeps; [exact H1|]. apply in_app_iff. right. by left.
    + right. by exists c'.
Qed.
(** ** When [restore] returns *)

(** The nids of [paired] that none of the restored components carries: the
    partners the inner loop default-initialises. *)
Definition missing (components : list Component) (paired : list string) : list string :=
  List.filter (λ paired_nid, negb (has_component components paired_nid)) paired.

(** All of them, in the order the two loops meet them. A nid that several
    components lack is met once for each. *)
Definition missing_partners (components : list Component) : list string :=
  flat_map (λ component, missing components (paired_with component)) components.

(** [ICA.get_component(paired_nid)] answers with a component class. *)
Definition known (paired_nid : string) : bool :=
  match get_component paired_nid with Some _ => true | None => false end.

(** The entry appended for a missing partner the registry knows. *)
Definition default_entry (paired_nid : string) : option Component :=
  match get_component paired_nid with
  | Some component_class => restore_component (paired_nid, value component_class)
  | None => None
  end.

Lemma add_paired_outcome components paired acc :
  add_paired components paired acc =
  if forallb known (missing components paired)
  then Ok (acc ++ map default_entry (missing components paired))%list
  else Raise AttributeError.
Proof.
  revert acc. induction paired as [|p paired IH]; intros acc.
  - cbn. by rewrite app_nil_r.
  - cbn [add_paired missing List.filter].
    destruct (has_component components p); cbn [negb]; [apply IH|].
    cbn [forallb map]. unfold known at 1, default_entry at 1.
    destruct (get_component p) as [c|]; [|done]. cbn [andb].
    rewrite IH. fold (missing components paired).
    destruct (forallb known (missing components paired)); [|done].
    by rewrite <-app_assoc.
Qed.

(** The entries the outer loop appends for the components [todo]: each
    component, followed by the defaults of the partners it lacks. *)
Definition appended (components todo : list Component) : list (option Component) :=
  flat_map (λ component,
              Some component ::
              map default_entry (missing components (paired_with component))) todo.

Lemma add_components_outcome components todo acc :
  add_components components todo acc =
  if forallb known (flat_map (λ c, missing components (paired_with c)) todo)
  then Ok (acc ++ appended components todo)%list
  else Raise AttributeError.
Proof.
  revert acc. induction todo as [|c todo IH]; intros acc.
  - cbn. by rewrite app_nil_r.
  - cbn [add_components flat_map appended]. rewrite add_paired_outcome, forallb_app.
    destruct (forallb known (missing components (paired_with c))); [|done].
    cbn [andb]. rewrite IH.
    destruct (forallb known (flat_map _ todo)); [|done].
    unfold appended. by rewrite <-!app_assoc.
Qed.

Lemma appended_length components todo :
  length (appended components todo) =
  (length todo +
   length (flat_map (λ c, missing components (paired_with c)) todo))%nat.
Proof.
  induction todo as [|c todo IH]; [done|].
  cbn [appended flat_map]. fold (appended components todo).
  cbn [length app]. rewrite !length_app, length_map, IH. lia.
Qed.

(** [restore] in closed form: it raises as soon as a missing partner is
    unknown to the registry, and otherwise returns the restored components,
    each followed by the defaults of the partners it lacks. *)
Lemma restore_outcome dat :
  restore dat =
  let components := restored (dat_components dat) in
  if forallb known (missing_partners components)
  then Ok {| item_nid := dat_nid dat; name := dat_name dat; desc := dat_desc dat;
             icon_nid := dat_icon_nid dat; icon_index := dat_icon_index dat;
             components := appended components components |}
  else Raise AttributeError.
Proof.
  unfold restore, missing_partners. cbn zeta. rewrite add_components_outcome.
  by destruct (forallb known _).
Qed.
End Restore.

Arguments Component : clear implicits.
Arguments ItemData : clear implicits.
Arguments ItemPrefab : clear implicits.

(** C10 (amended). [restore] drops every saved component whose restoration
    fails, without reporting that failure: the outcome is the one the saved
    data would have had without those entries. It returns exactly when the
    registry knows every partner it has to default-initialise, that is every
    nid a restored component is paired with and no restored component
    carries, and raises AttributeError otherwise. When it returns, the item
    holds the restored components and one default per missing partner, so
    every entry that does restore is in the item; on a coherent component
    registry the item holds no failed ([None]) entry at all; and saved data
    whose entries all fail restores to an item with fewer components than
    were saved. *)
Theorem restore_omits_failed_components {Value : Type}
    (restore_component : string * Value → option (Component Value))
    (get_component : string → option (Component Value)) :
  (∀ dat,
     restore restore_component get_component dat =
     restore restore_component get_component (without_failed restore_component dat)) ∧
  (∀ dat,
     (∀ p, In p (missing_partners (restored restore_component (dat_components dat))) →
           get_component p ≠ None) →
     ∃ item,
       restore restore_component get_component dat = Ok item ∧
       components item =
         appended restore_component get_component
           (restored restore_component (dat_components dat))
           (restored restore_component (dat_components dat)) ∧
       length (components item) =
         (length (restored restore_component (dat_components dat)) +
          length (missing_partners (restored restore_component (dat_components dat))))%nat) ∧
  (∀ dat p,
     In p (missing_partners (restored restore_component (dat_components dat))) →
     get_component p = None →
     restore restore_component get_component dat = Raise AttributeError) ∧
  (∀ dat item,
     restore restore_component get_component dat = Ok item →
     (∀ v c, In v (dat_components dat) → restore_component v = Some c →
             In (Some c) (components item)) ∧
     (registry_coherent restore_component get_component →
      ¬ In None (components item))) ∧
  (∀ dat,
     dat_components dat ≠ [] →
     forallb (λ v, negb (restorable restore_component v)) (dat_components dat) = true →
     ∃ item,
       restore restore_component get_component dat = Ok item ∧
       (length (components item) < length (dat_components dat))%nat).
Proof.
  split; [|split; [|split; [|split]]].
  - intros dat. unfold restore, without_failed. cbn [dat_components dat_nid
      dat_name dat_desc dat_icon_nid dat_icon_index].
    by rewrite restored_without_failed.
  - intros dat Hknown. rewrite restore_outcome. cbn zeta.
    assert (Hall : forallb (known get_component)
              (missing_partners (restored restore_component (dat_components dat))) = true).
    { apply forallb_forall. intros p Hp. specialize (Hknown p Hp).
      unfold known. by destruct (get_component p). }
    rewrite Hall. eexists. split; [reflexivity|]. cbn [components].
    split; [reflexivity | apply appended_length].
  - intros dat p Hp Hnone. rewrite restore_outcome. cbn zeta.
    destruct (forallb _ _) eqn:Hall; [|done].
    rewrite forallb_forall in Hall. specialize (Hall p Hp).
    unfold known in Hall. by rewrite Hnone in Hall.
  - intros dat item. unfold restore.
    destruct (add_components _ _ _ _ _) as [all|] eqn:Hall; [|done].
    intros [= <-]. cbn [components]. split.
    + intros v c Hv Hc. eapply add_components_keeps; [exact Hall|].
      right. exists c. split; [done|]. unfold restored.
      apply list_elem_of_In, list_elem_of_omap. exists v.
      split; [by apply list_elem_of_In | done].
    + intros Hcoh. eapply add_components_no_None; [exact Hcoh | exact Hall |].
      by intros [].
  - intros dat Hne Hfail. unfold restore.
    rewrite (restored_all_fail _ _ Hfail). cbn [add_components].
    eexists. split; [done|]. cbn [components length].
    destruct (dat_components dat); [done | simpl; lia].
Qed.

(** ** A small registry for the examples *)

Definition weapon : Component Z :=
  {| nid := "weapon"; value := 0; paired_with := ["target_enemy"] |}.
Definition target_enemy : Component Z :=
  {| nid := "target_enemy"; value := 0; paired_with := ["weapon"] |}.

Definition demo_get_component (n : string) : option (Component Z) :=
  if String.eqb n "weapon" then Some weapon
  else if String.eqb n "target_enemy" then Some target_enemy
  else None.

Definition demo_restore_component (dat : string * Z) : option (Component Z) :=
  match demo_get_component (fst dat) with
  | Some c => Some {| nid := nid c; value := snd dat; paired_with := paired_with c |}
  | None => None
  end.

Definition saved_sword : ItemData Z :=
  {| dat_nid := "Iron Sword"; dat_name := "Iron Sword"; dat_desc := "";
     dat_icon_nid := None; dat_icon_index := (0, 0);
     dat_components := [("weapon", 5); ("retired_component", 1)] |}.

(** The retired component is gone after the restore, and the partner of
    [weapon] is filled in with its default. *)
Example restore_saved_sword :
  restore demo_restore_component demo_get_component saved_sword =
  Ok {| item_nid := "Iron Sword"; name := "Iron Sword"; desc := "";
        icon_nid := None; icon_index := (0, 0);
        components :=
          [Some {| nid := "weapon"; value := 5; paired_with := ["target_enemy"] |};
           Some target_enemy] |}.
Proof. reflexivity. Qed.

Example restore_all_failed :
  restore demo_restore_component demo_get_component
    {| dat_nid := "Relic"; dat_name := "Relic"; dat_desc := "";
       dat_icon_nid := None; dat_icon_index := (0, 0);
       dat_components := [("retired_component", 1)] |} =
  Ok {| item_nid := "Relic"; name := "Relic"; desc := "";
        icon_nid := None; icon_index := (0, 0); components := [] |}.
Proof. reflexivity. Qed.

(** A registry from which [target_enemy] was retired, although [weapon] is
    still paired with it. *)
Definition lone_get_component (n : string) : option (Component Z) :=
  if String.eqb n "weapon" then Some weapon else None.

Definition lone_restore_component (dat : string * Z) : option (Component Z) :=
  match lone_get_component (fst dat) with
  | Some c => Some {| nid := nid c; value := snd dat; paired_with := paired_with c |}
  | None => None
  end.

Definition saved_lance : ItemData Z :=
  {| dat_nid := "Iron Lance"; dat_name := "Iron Lance"; dat_desc := "";
     dat_icon_nid := None; dat_icon_index := (0, 0);
     dat_components := [("weapon", 7); ("target_enemy", 0)] |}.

(** The claim of C10 fails where the dropped entry is a partner: the saved
    [target_enemy] fails to restore and is left out of the restored
    components, the loop then finds [weapon] without its partner, asks the
    registry for it, and [component_class.value] raises on [None]. *)
Lemma restore_dropped_partner_raises :
  lone_restore_component ("target_enemy", 0) = None ∧
  restored lone_restore_component (dat_components saved_lance)
    = [{| nid := "weapon"; value := 7; paired_with := ["target_enemy"] |}] ∧
  restore lone_restore_component lone_get_component saved_lance = Raise AttributeError.
Proof. repeat split; reflexivity. Qed.

(** A registry that knows [target_enemy] but cannot rebuild it from its
    default value: the failed partner is appended as it is. *)
Example restore_failed_default :
  restore (λ dat, if String.eqb (fst dat) "target_enemy" then None
                  else demo_restore_component dat)
          demo_get_component saved_sword =
  Ok {| item_nid := "Iron Sword"; name := "Iron Sword"; desc := "";
        icon_nid := None; icon_index := (0, 0);
        components :=
          [Some {| nid := "weapon"; value := 5; paired_with := ["target_enemy"] |};
           None] |}.
Proof. reflexivity. Qed.

(** ** Saving an item *)

Section Save.
Context {Value : Type}.
Variable restore_component : string * Value → option (Component Value).
Variable get_component : string → option (Component Value).
(** [Component.save], the serialised (nid, value) pair of a component. *)
Variable save_component : Component Value → string * Value.

(** [[c.save() for c in self.components]]: a [None] entry has no [save]. *)
Fixpoint save_components (components : list (option (Component Value)))
    : Res (list (string * Value)) :=
  match components with
  | [] => Ok []
  | None :: _ => Raise AttributeError
  | Some c :: rest =>
    match save_components rest with
    | Ok saved => Ok (save_component c :: saved)
    | Raise e => Raise e
    end
  end.

Definition save (i : ItemPrefab Value) : Res (ItemData Value) :=
  match save_components (components i) with
  | Ok saved =>
    Ok {| dat_nid := item_nid i; dat_name := name i; dat_desc := desc i;
          dat_icon_nid := icon_nid i; dat_icon_index := icon_index i;
          dat_components := saved |}
  | Raise e => Raise e
  end.

Lemma save_components_map cs :
  save_components (map Some cs) = Ok (map save_component cs).
Proof. induction cs as [|c cs IH]; [done|]. cbn. by rewrite IH. Qed.

Lemma restored_saved cs :
  (∀ c, In c cs → restore_component (save_component c) = Some c) →
  restored restore_component (map save_component cs) = cs.
Proof.
  unfold restored. induction cs as [|c cs IH]; intros Hcs; [done|].
  cbn [map omap list_omap]. rewrite (Hcs c) by (by left).
  cbn. f_equal. apply IH. intros c' Hc'. apply Hcs. by right.
Qed.

Lemma has_component_In (cs : list (Component Value)) p :
  (∃ c, In c cs ∧ nid c = p) → has_component cs p = true.
Proof.
  intros (c & Hc & <-). unfold has_component. apply existsb_exists.
  exists c. split; [done | apply String.eqb_refl].
Qed.

Lemma add_paired_complete (cs : list (Component Value)) paired acc :
  (∀ p, In p paired → ∃ c, In c cs ∧ nid c = p) →
  add_paired restore_component get_component cs paired acc = Ok acc.
Proof.
  induction paired as [|p paired IH]; intros Hp; [done|]. cbn [add_paired].
  rewrite has_component_In by (apply Hp; by left).
  apply IH. intros q Hq. apply Hp. by right.
Qed.

Lemma add_components_complete (cs todo : list (Component Value)) acc :
  (∀ c p, In c todo → In p (paired_with c) → ∃ c', In c' cs ∧ nid c' = p) →
  add_components restore_component get_component cs todo acc =
  Ok (acc ++ map Some todo)%list.
Proof.
  revert acc. induction todo as [|c todo IH]; intros acc Hp; cbn [add_components map].
  - by rewrite app_nil_r.
  - rewrite add_paired_complete by (intros p; apply Hp; by left).
    rewrite IH by (intros c' p Hc'; apply Hp; by right).
    by rewrite <-app_assoc.
Qed.

(** X13. [restore] undoes [save]: for an item without failed entries whose
    components are rebuilt from their own saved form and whose pairings are
    complete (every nid a component is paired with is the nid of a component
    of the item), [save] returns and restoring the saved data gives the item
    back, with the same components in the same order and no partner added. *)
Theorem save_restore_round_trip (item : ItemPrefab Value)
    (cs : list (Component Value))
    (Hcs : components item = map Some cs)
    (Hinv : ∀ c, In c cs → restore_component (save_component c) = Some c)
    (Hpaired : ∀ c p, In c cs → In p (paired_with c) → ∃ c', In c' cs ∧ nid c' = p) :
  ∃ dat,
    save item = Ok dat ∧
    dat_components dat = map save_component cs ∧
    restore restore_component get_component dat = Ok item.
Proof.
  unfold save. rewrite Hcs, save_components_map. eexists. split; [reflexivity|].
  split; [reflexivity|]. unfold restore. cbn [dat_components dat_nid dat_name
    dat_desc dat_icon_nid dat_icon_index].
  rewrite (restored_saved cs Hinv), (add_components_complete cs cs [] Hpaired).
  cbn [app]. rewrite <-Hcs. by destruct item.
Qed.

(** A [None] entry among the components makes [save] fail. *)
Lemma save_failed_entry (item : ItemPrefab Value) :
  In None (components item) → save item = Raise AttributeError.
Proof.
  unfold save. intros Hin.
  assert (H : save_components (components item) = Raise AttributeError).
  { induction (components item) as [|[c|] l IH]; [done| |done].
    destruct Hin as [?|Hin]; [done|]. cbn. by rewrite IH. }
  by rewrite H.
Qed.
End Save.

Definition demo_save_component (c : Component Z) : string * Z := (nid c, value c).

Definition iron_sword : ItemPrefab Z :=
  {| item_nid := "Iron Sword"; name := "Iron Sword"; desc := "";
     icon_nid := None; icon_index := (0, 0);
     components :=
       [Some {| nid := "weapon"; value := 5; paired_with := ["target_enemy"] |};
        Some target_enemy] |}.

(** X13 at the demo registry. *)
Lemma save_restore_round_trip_witness :
  ∃ dat,
    save demo_save_component iron_sword = Ok dat ∧
    restore demo_restore_component demo_get_component dat = Ok iron_sword.
Proof.
  destruct (save_restore_round_trip demo_restore_component demo_get_component
              demo_save_component iron_sword
              [{| nid := "weapon"; value := 5; paired_with := ["target_enemy"] |};
               target_enemy] eq_refl) as (dat & Hsave & _ & Hrestore).
  - intros c [<-|[<-|[]]]; reflexivity.
  - intros c p [<-|[<-|[]]] [<-|[]].
    + exists target_enemy. split; [right; left; reflexivity | reflexivity].
    + eexists. split; [left; reflexivity | reflexivity].
  - exists dat. split; [exact Hsave | exact Hrestore].
Defined.

(** ** What a restored item is made of *)

Section Order.
Context {Value : Type}.
Variable restore_component : string * Value → option (Component Value).
Variable get_component : string → option (Component Value).

(** An entry that was added for a nid [p] the components [cs] lack: the
    default-initialised partner of a component that is paired with [p]. *)
Definition default_partner (cs : list (Component Value))
    (x : option (Component Value)) : Prop :=
  ∃ asking p c, In asking cs ∧ In p (paired_with asking) ∧
    has_component cs p = false ∧ get_component p = Some c ∧
    x = restore_component (p, value c).

Lemma add_paired_extends cs asking paired acc acc' :
  In asking cs → (∀ p, In p paired → In p (paired_with asking)) →
  add_paired restore_component get_component cs paired acc = Ok acc' →
  ∃ added, acc' = (acc ++ added)%list ∧ Forall (default_partner cs) added.
Proof.
  intros Hasking. revert acc. induction paired as [|p paired IH]; intros acc Hp.
  - intros [= <-]. exists []. by rewrite app_nil_r.
  - cbn [add_paired]. destruct (has_component cs p) eqn:Hhas.
    + apply IH. intros q Hq. apply Hp. by right.
    + destruct (get_component p) as [c|] eqn:Hc; [|done]. intros Hrun.
      destruct (IH _ (λ q Hq, Hp q (or_intror Hq)) Hrun) as (added & -> & Hadded).
      exists (restore_component (p, value c) :: added). split.
      * by rewrite <-app_assoc.
      * constructor; [|done]. exists asking, p, c. repeat split; try done.
        apply Hp. by left.
Qed.

Lemma add_components_extends cs todo acc acc' :
  (∀ c, In c todo → In c cs) →
  add_components restore_component get_component cs todo acc = Ok acc' →
  ∃ rest, acc' = (acc ++ rest)%list ∧
    map Some todo `sublist_of` rest ∧
    Forall (λ x, (∃ c, x = Some c ∧ In c todo) ∨ default_partner cs x) rest.
Proof.
  revert acc. induction todo as [|c todo IH]; intros acc Hsub; cbn [add_components].
  - intros [= <-]. exists []. by rewrite app_nil_r.
  - destruct (add_paired _ _ _ _ _) as [acc1|] eqn:H1; [|done]. intros Hrun.
    destruct (add_paired_extends cs c (paired_with c) _ _
                (Hsub c (or_introl eq_refl)) (λ p Hp, Hp) H1) as (added & -> & Hadded).
    destruct (IH _ (λ c' Hc', Hsub c' (or_intror Hc')) Hrun) as (rest & -> & Hsl & Hrest).
    exists (Some c :: added ++ rest)%list. split; [|split].
    + rewrite <-!app_assoc. done.
    + cbn [map]. apply sublist_skip. by apply sublist_inserts_l.
    + constructor; [left; exists c; split; [done | by left]|].
      apply Forall_app. split.
      * eapply Forall_impl; [exact Hadded|]. intros x Hx. by right.
      * eapply Forall_impl; [exact Hrest|].
        intros x [(c' & -> & Hc')|Hx]; [left; exists c'; split; [done | by right] | by right].
Qed.

(** X24. A restored item holds the components that restored from the saved
    data, in the order they were saved in, and nothing else but
    default-initialised partners: every other entry was built from the
    registry default of a nid that some restored component is paired with
    and that no restored component carries. *)
Theorem restore_keeps_saved_order (dat : ItemData Value) (item : ItemPrefab Value)
    (Hrun : restore restore_component get_component dat = Ok item) :
  let cs := restored restore_component (dat_components dat) in
  map Some cs `sublist_of` components item ∧
  (∀ x, In x (components item) →
     (∃ c, x = Some c ∧ In c cs) ∨ default_partner cs x) ∧
  item_nid item = dat_nid dat ∧ name item = dat_name dat ∧ desc item = dat_desc dat ∧
  icon_nid item = dat_icon_nid dat ∧ icon_index item = dat_icon_index dat.
Proof.
  cbn zeta. revert Hrun. unfold restore.
  destruct (add_components _ _ _ _ _) as [all|] eqn:Hall; [|done].
  intros [= <-]. cbn [components item_nid name desc icon_nid icon_index].
  destruct (add_components_extends _ _ _ _ (λ c Hc, Hc) Hall) as (rest & -> & Hsl & Hrest).
  cbn [app]. split; [done|]. split; [|done].
  intros x Hx. rewrite Forall_forall in Hrest. by apply Hrest, list_elem_of_In.
Qed.
End Order.

(** X24 for the saved sword: the weapon comes first, its partner follows. *)
Lemma restore_keeps_saved_order_witness :
  map Some (restored demo_restore_component (dat_components saved_sword))
    `sublist_of`
  [Some {| nid := "weapon"; value := 5; paired_with := ["target_enemy"] |};
   Some target_enemy].
Proof.
  apply (proj1 (restore_keeps_saved_order demo_restore_component demo_get_component
                  saved_sword
                  {| item_nid := "Iron Sword"; name := "Iron Sword"; desc := "";
                     icon_nid := None; icon_index := (0, 0);
                     components :=
                       [Some {| nid := "weapon"; value := 5;
                                paired_with := ["target_enemy"] |};
                        Some target_enemy] |} eq_refl)).
Defined.

End Items.

(* ===================================================================== *)
(** * app/engine/roam_state.py                                            *)
(* ===================================================================== *)

Module Roam.
Import Py.

(** ** Game objects as the free-roam state sees them *)

(** A board tile, and a position of the roaming unit. The floats of the
    source are idealised as rationals. *)
Abbreviation Tile := (Z * Z)%type (only parsing).
Abbreviation Coord := (Q * Q)%type (only parsing).

Definition Qltb (a b : Q) : bool := negb (Qle_bool b a).

Definition of_tile (t : Tile) : Coord := (inject_Z (fst t), inject_Z (snd t)).

(** [int(x)]: truncation towards zero. *)
Definition int (x : Q) : Z := Z.quot (Qnum x) (Z.pos (Qden x)).

(** The position as a key of the board grids; wherever it is used the
    position has just been set to a whole tile. *)
Definition as_tile (p : Coord) : Tile := (int (fst p), int (snd p)).

Definition rounded (p : Coord) : Tile := (round (fst p), round (snd p)).

Record UnitObject := {
  nid : string;
  team : string;
  position : option Coord }.

Record Region := {
  region_nid : string;
  region_position : Tile;
  region_size : Tile;
  sub_nid : string;
  only_once : bool;
  interrupt_move : bool }.

(** Modelled from the spec: [Region.contains] of app/events/regions.py, the
    membership test of a rectangular area given by its corner and its size. *)
Definition contains (r : Region) (p : Tile) : bool :=
  (fst (region_position r) <=? fst p) &&
  (fst p <? fst (region_position r) + fst (region_size r)) &&
  (snd (region_position r) <=? snd p) &&
  (snd p <? snd (region_position r) + snd (region_size r)).

(** A call of [game.events.trigger] as the roam state makes it. *)
Record TriggerCall := {
  trigger_name : string;
  trigger_unit : string;
  trigger_position : option Coord;
  trigger_region : string }.

(** Unit objects are shared between the roam state, the board and the AI
    handler: they live in a store keyed by nid, and everything else holds
    nids. The fields after [regions] are the attributes of [FreeRoamState]. *)
Record State := {
  units : gmap string UnitObject;
  unit_grid : gmap Tile string;          (* game.board.get_unit *)
  team_grid : gmap Tile string;          (* game.board.get_team *)
  bounds : Z * Z * Z * Z;                (* game.board.bounds *)
  fow_vantage_point : gmap string Tile;
  regions : list Region;                 (* game.level.regions *)
  triggered : list TriggerCall;          (* calls of game.events.trigger, latest last *)
  roam_unit : option string;
  last_move : Z;
  speed : Q;
  vspeed : Q;
  hspeed : Q;
  direction : Z * Z;
  targets : list string }.               (* ai_handler.targets, by unit *)

Definition with_game (st : State) (us : gmap string UnitObject)
    (ug tg : gmap Tile string) (fow : gmap string Tile) (rs : list Region)
    (calls : list TriggerCall) : State :=
  {| units := us; unit_grid := ug; team_grid := tg; bounds := bounds st;
     fow_vantage_point := fow; regions := rs; triggered := calls;
     roam_unit := roam_unit st; last_move := last_move st; speed := speed st;
     vspeed := vspeed st; hspeed := hspeed st; direction := direction st;
     targets := targets st |}.

Definition with_self (st : State) (ru : option string) (lm : Z) (sp vs hs : Q)
    (dir : Z * Z) : State :=
  {| units := units st; unit_grid := unit_grid st; team_grid := team_grid st;
     bounds := bounds st; fow_vantage_point := fow_vantage_point st;
     regions := regions st; triggered := triggered st;
     roam_unit := ru; last_move := lm; speed := sp; vspeed := vs; hspeed := hs;
     direction := dir; targets := targets st |}.

(** [unit.position = p] *)
Definition set_position (st : State) (unit : string) (p : Coord) : State :=
  with_game st
    (alter (λ u, {| nid := nid u; team := team u; position := Some p |}) unit (units st))
    (unit_grid st) (team_grid st) (fow_vantage_point st) (regions st) (triggered st).

Definition position_of (st : State) (unit : string) : option Coord :=
  u ← units st !! unit; position u.

(** Modelled from the spec: [game.arrive], which returns a unit to normal
    board bookkeeping: the board records the unit and its team at the
    unit's position. *)
Definition arrive (st : State) (unit : string) : State :=
  match units st !! unit with
  | Some u =>
    match position u with
    | Some p =>
      with_game st (units st)
        (<[as_tile p := unit]> (unit_grid st))
        (<[as_tile p := team u]> (team_grid st))
        (fow_vantage_point st) (regions st) (triggered st)
    | None => st
    end
  | None => st
  end.

(** Modelled from the spec: [action.UpdateFogOfWar], which moves the unit's
    vantage point to its (whole-tile) position. *)
Definition update_fog_of_war (st : State) (unit : string) (p : Tile) : State :=
  with_game st (units st) (unit_grid st) (team_grid st)
    (<[unit := p]> (fow_vantage_point st)) (regions st) (triggered st).

(** Modelled from the spec: [action.RemoveRegion], which takes the region
    out of the level. *)
Definition remove_region (st : State) (r : Region) : State :=
  with_game st (units st) (unit_grid st) (team_grid st) (fow_vantage_point st)
    (List.filter (λ r', negb (String.eqb (region_nid r') (region_nid r))) (regions st))
    (triggered st).

Definition record_trigger (st : State) (c : TriggerCall) : State :=
  with_game st (units st) (unit_grid st) (team_grid st) (fow_vantage_point st)
    (regions st) (triggered st ++ [c]).

(** The keys the state polls. *)
Inductive Key : Type := LEFT | RIGHT | UP | DOWN | BACK.

Record Input := {
  is_pressed : Key → bool;
  just_pressed : Key → bool }.

(** ** The state's methods *)

Section Engine.
(** The services the state calls into. *)
Variable get_mcost : UnitObject → Tile → Z.                     (* game.movement.get_mcost *)
Variable compare_teams : string → string → bool.                (* utils.compare_teams *)
Variable get_nearest_open_tile : State → string → Tile → Tile.  (* target_system *)
Variable trigger : State → TriggerCall → bool.                  (* game.events.trigger *)

(** [no_bumps]: is the space free of an impassable unit? *)
Definition no_bumps (st : State) (roam : UnitObject) (x y : Z) : bool :=
  let new_pos := (x, y) in
  match unit_grid st !! new_pos with
  | Some _ =>
    let other_team := team_grid st !! new_pos in
    if negb (truthy_str other_team)
       || compare_teams (team roam) (default "" other_team)
    then true     (* Allies, this is fine *)
    else false    (* Enemies *)
  | None => true
  end.

Definition tolerance : Q := 4 # 10.

(** The tile [can_move] inspects for a direction. *)
Definition check_tile (pos : Coord) (direc : Key) : Tile :=
  match direc with
  | LEFT => (round (fst pos - tolerance), round (snd pos))
  | RIGHT => (round (fst pos + tolerance), round (snd pos))
  | UP => (round (fst pos), round (snd pos - tolerance))
  | DOWN => (round (fst pos), round (snd pos + tolerance))
  | BACK => rounded pos
  end.

(** [can_move] for a roaming unit standing at [pos]. *)
Definition can_move (st : State) (roam : UnitObject) (pos : Coord) (direc : Key) : bool :=
  match direc with
  | LEFT | RIGHT | UP | DOWN =>
    let '(check_x, check_y) := check_tile pos direc in
    let mcost := get_mcost roam (check_x, check_y) in
    (mcost <? 99) && no_bumps st roam check_x check_y
  | BACK => true
  end.

(** [move]: shift the unit, then refresh the fog of war from the rounded
    position; the true position is put back afterwards. *)
Definition move (st : State) (roam : string) (pos : Coord) (dx dy : Q) : State :=
  let new_pos := ((fst pos + dx)%Q, (snd pos + dy)%Q) in
  let st := set_position st roam new_pos in
  let rounded_pos := rounded new_pos in
  if bool_decide (fow_vantage_point st !! roam = Some rounded_pos) then st
  else update_fog_of_war st roam rounded_pos.

(** One axis of the direction update of [take_input]: [low] is LEFT or UP,
    [high] is RIGHT or DOWN. The result is the new direction component and
    whether the move was time-stamped. *)
Definition steer (inp : Input) (low high : Key) (coord : Q) (lo hi : Z) (d : Z)
    : Z * bool :=
  let '(d, stamped) :=
    if (is_pressed inp low || just_pressed inp low) && Qltb (inject_Z lo) coord
    then (-5, true)
    else if (is_pressed inp high || just_pressed inp high) && Qltb coord (inject_Z hi)
    then (5, true)
    else (d, false) in
  let d := if negb (is_pressed inp high) && (0 <? d) then d - 1 else d in
  let d := if negb (is_pressed inp low) && (d <? 0) then d + 1 else d in
  (d, stamped).

(** The direction the tick registers, from the keys and the old direction. *)
Definition heading (st : State) (inp : Input) (pos : Coord) : Z * Z :=
  let '(b0, b1, b2, b3) := bounds st in
  (fst (steer inp LEFT RIGHT (fst pos) b0 b2 (fst (direction st))),
   fst (steer inp UP DOWN (snd pos) b1 b3 (snd (direction st)))).

(** One axis of the speed selection of [take_input]. *)
Definition axis_speed (st : State) (roam : UnitObject) (pos : Coord)
    (low high : Key) (d : Z) : Q :=
  if (0 <? d) && can_move st roam pos high then speed st
  else if (d <? 0) && can_move st roam pos low then (- speed st)%Q
  else 0%Q.

Definition base_speed : Q := 8 # 1000.
Definition base_accel : Q := 8 # 1000.
Definition running_accel : Q := 1 # 100.

Definition any_direction (f : Key → bool) : bool :=
  f LEFT || f RIGHT || f UP || f DOWN.

(** [take_input], from its start to the speed update: the part of a tick
    that moves the unit. [time] is [engine.get_time()] and [roam_speed] the
    game variable [_roam_speed]. *)
Definition motion (st : State) (inp : Input) (time : Z) (roam_speed : Q) : Res State :=
  match roam_unit st with
  | None => Ok st
  | Some r =>
    match units st !! r with
    | None => Raise KeyError
    | Some u =>
      match position u with
      | None => Raise TypeError
      | Some pos =>
        let max_speed :=
          if is_pressed inp BACK then ((15 # 100) * roam_speed)%Q
          else ((1 # 10) * roam_speed)%Q in
        let '(b0, b1, b2, b3) := bounds st in
        let '(dx, stamped_x) :=
          steer inp LEFT RIGHT (fst pos) b0 b2 (fst (direction st)) in
        let '(dy, stamped_y) :=
          steer inp UP DOWN (snd pos) b1 b3 (snd (direction st)) in
        let last := if stamped_x || stamped_y then time else last_move st in
        let hs := axis_speed st u pos LEFT RIGHT dx in
        let vs := axis_speed st u pos UP DOWN dy in
        let st1 :=
          if Qltb base_speed (Qabs hs) || Qltb base_speed (Qabs vs)
          then move st r pos hs vs
          else st in
        let sp := speed st in
        let sp :=
          if any_direction (just_pressed inp) || any_direction (is_pressed inp) then
            if Qltb sp max_speed && is_pressed inp BACK then (sp + running_accel)%Q
            else if Qltb sp max_speed then (sp + base_accel)%Q
            else if Qltb max_speed sp then (sp - running_accel)%Q
            else sp
          else if Qle_bool base_speed sp || Qltb max_speed sp
          then (sp - running_accel)%Q
          else sp in
        Ok (with_self st1 (Some r) last sp vs hs (dx, dy))
      end
    end
  end.

(** [rationalize_unit]: put an AI-driven unit back on the grid. *)
Definition rationalize_unit (st : State) (unit : string) : Res State :=
  match units st !! unit with
  | None => Raise KeyError
  | Some u =>
    match position u with
    | None => Raise TypeError
    | Some pos =>
      let new_pos := (int (fst pos), int (snd pos)) in
      let new_pos :=
        match unit_grid st !! new_pos with
        | Some occupant =>
          if negb (String.eqb occupant unit)
          then get_nearest_open_tile st unit new_pos
          else new_pos
        | None => new_pos
        end in
      Ok (arrive (set_position st unit (of_tile new_pos)) unit)
    end
  end.

Fixpoint rationalize_targets (st : State) (ts : list string) : Res State :=
  match ts with
  | [] => Ok st
  | t :: ts' =>
    match rationalize_unit st t with
    | Ok st' => rationalize_targets st' ts'
    | Raise e => Raise e
    end
  end.

(** [rationalize]: done whenever the roam unit should be returned to a
    regular unit. *)
Definition rationalize (st : State) : Res State :=
  match roam_unit st with
  | None => Raise AttributeError
  | Some r =>
    match units st !! r with
    | None => Raise KeyError
    | Some u =>
      match position u with
      | None => Raise TypeError
      | Some pos =>
        let new_pos := rounded pos in
        let new_pos :=
          match unit_grid st !! new_pos with
          | Some _ => get_nearest_open_tile st r new_pos
          | None => new_pos
          end in
        let st := arrive (set_position st r (of_tile new_pos)) r in
        match rationalize_targets st (targets st) with
        | Ok st => Ok (with_self st None 0 0%Q 0%Q 0%Q (direction st))
        | Raise e => Raise e
        end
      end
    end
  end.

(** The body of the region loop of [take_input], up to the trigger: when the
    rounded position is occupied, the nearest open tile is computed for the
    occupant and the roam unit is put there. *)
Definition relocate (st : State) (rounded_position : Tile) : Res (State * Tile) :=
  match unit_grid st !! rounded_position with
  | Some current_occupant =>
    let rounded_position :=
      get_nearest_open_tile st current_occupant rounded_position in
    match roam_unit st with
    | None => Raise AttributeError
    | Some r => Ok (set_position st r (of_tile rounded_position), rounded_position)
    end
  | None => Ok (st, rounded_position)
  end.

Definition interrupt_call (st : State) (r : string) (region : Region) : TriggerCall :=
  {| trigger_name := "roaming_interrupt"; trigger_unit := r;
     trigger_position := position_of st r; trigger_region := region_nid region |}.

(** One iteration of the region loop. [rounded_position] is carried from one
    iteration to the next. *)
Definition interrupt (st : State) (rounded_position : Tile) (region : Region)
    : Res (State * Tile) :=
  if contains region rounded_position && interrupt_move region then
    match relocate st rounded_position with
    | Raise e => Raise e
    | Ok (st, rounded_position) =>
      match roam_unit st with
      | None => Raise AttributeError
      | Some r =>
        let call := interrupt_call st r region in
        let did_trigger := trigger st call in
        let st := record_trigger st call in
        match (if did_trigger then rationalize st else Ok st) with
        | Raise e => Raise e
        | Ok st =>
          Ok (if only_once region && did_trigger then remove_region st region else st,
              rounded_position)
        end
      end
    end
  else Ok (st, rounded_position).

(** The loop itself. The level's regions are iterated by index over the live
    list, as a Python list that shrinks during the loop is; [fuel] bounds
    the number of iterations by the length the list had at the start. *)
Fixpoint interrupt_loop (fuel i : nat) (st : State) (rounded_position : Tile)
    : Res (State * Tile) :=
  match fuel with
  | O => Ok (st, rounded_position)
  | S fuel' =>
    match regions st !! i with
    | None => Ok (st, rounded_position)
    | Some region =>
      match interrupt st rounded_position region with
      | Raise e => Raise e
      | Ok (st', rounded_position') => interrupt_loop fuel' (S i) st' rounded_position'
      end
    end
  end.

Definition interrupt_regions (st : State) (rounded_position : Tile)
    : Res (State * Tile) :=
  interrupt_loop (length (regions st)) 0 st rounded_position.

(** ** Movement *)

(** A direction is headed for when the registered direction points to it. *)
Definition heads (h : Z * Z) (direc : Key) : Prop :=
  match direc with
  | LEFT => fst h < 0
  | RIGHT => 0 < fst h
  | UP => snd h < 0
  | DOWN => 0 < snd h
  | BACK => False
  end.

Definition axis_coord (direc : Key) (p : Coord) : Q :=
  match direc with
  | LEFT | RIGHT => fst p
  | _ => snd p
  end.

Definition axis_velocity (direc : Key) (st : State) : Q :=
  match direc with
  | LEFT | RIGHT => hspeed st
  | _ => vspeed st
  end.

(** The velocity an open direction gets. *)
Definition signed_speed (direc : Key) (st : State) : Q :=
  match direc with
  | LEFT | UP => (- speed st)%Q
  | _ => speed st
  end.

Lemma can_move_impassable st u pos direc :
  direc ≠ BACK → 99 ≤ get_mcost u (check_tile pos direc) →
  can_move st u pos direc = false.
Proof.
  intros Hd Hc. unfold can_move.
  destruct direc; try done; destruct (check_tile pos _) as [cx cy];
    apply andb_false_iff; left; apply Z.ltb_ge; lia.
Qed.

Lemma no_bumps_enemy st u x y occ t :
  unit_grid st !! (x, y) = Some occ → team_grid st !! (x, y) = Some t →
  t ≠ "" → compare_teams (team u) t = false →
  no_bumps st u x y = false.
Proof.
  intros Ho Ht Hne Hc. unfold no_bumps. rewrite Ho, Ht.
  cbn [truthy_str from_option id].
  apply String.eqb_neq in Hne. by rewrite Hne, Hc.
Qed.

Lemma no_bumps_ally st u x y occ t :
  unit_grid st !! (x, y) = Some occ → team_grid st !! (x, y) = Some t →
  compare_teams (team u) t = true →
  no_bumps st u x y = true.
Proof.
  intros Ho Ht Hc. unfold no_bumps. rewrite Ho, Ht.
  destruct (negb _); [done|]. cbn [from_option id orb]. by rewrite Hc.
Qed.

Lemma can_move_enemy st u pos direc occ t :
  direc ≠ BACK →
  unit_grid st !! check_tile pos direc = Some occ →
  team_grid st !! check_tile pos direc = Some t →
  t ≠ "" → compare_teams (team u) t = false →
  can_move st u pos direc = false.
Proof.
  intros Hd Ho Ht Hne Hc. unfold can_move.
  destruct direc; try done; destruct (check_tile pos _) as [cx cy];
    rewrite (no_bumps_enemy _ _ _ _ _ _ Ho Ht Hne Hc); apply andb_false_r.
Qed.

Lemma can_move_ally st u pos direc occ t :
  direc ≠ BACK →
  unit_grid st !! check_tile pos direc = Some occ →
  team_grid st !! check_tile pos direc = Some t →
  compare_teams (team u) t = true →
  can_move st u pos direc = (get_mcost u (check_tile pos direc) <? 99).
Proof.
  intros Hd Ho Ht Hc. unfold can_move.
  destruct direc; try done; destruct (check_tile pos _) as [cx cy];
    rewrite (no_bumps_ally _ _ _ _ _ _ Ho Ht Hc); apply andb_true_r.
Qed.

Lemma position_of_set_position st r u p :
  units st !! r = Some u → position_of (set_position st r p) r = Some p.
Proof.
  intros Hu. unfold position_of, set_position, with_game. cbn [units].
  rewrite lookup_alter. case_decide; [|done]. by rewrite Hu.
Qed.

Lemma position_of_move st r u pos dx dy :
  units st !! r = Some u →
  position_of (move st r pos dx dy) r = Some ((fst pos + dx)%Q, (snd pos + dy)%Q).
Proof.
  intros Hu. unfold move. case_bool_decide.
  - by eapply position_of_set_position.
  - unfold update_fog_of_war, with_game, position_of. cbn [units].
    by eapply position_of_set_position.
Qed.

(** Whether the tick moves the unit at all. *)
Definition moves (hs vs : Q) : bool :=
  Qltb base_speed (Qabs hs) || Qltb base_speed (Qabs vs).

Lemma motion_spec st inp time roam_speed r u pos :
  roam_unit st = Some r → units st !! r = Some u → position u = Some pos →
  let h := heading st inp pos in
  let hs := axis_speed st u pos LEFT RIGHT (fst h) in
  let vs := axis_speed st u pos UP DOWN (snd h) in
  ∃ st',
    motion st inp time roam_speed = Ok st' ∧
    direction st' = h ∧ hspeed st' = hs ∧ vspeed st' = vs ∧
    position_of st' r =
      Some (if moves hs vs then ((fst pos + hs)%Q, (snd pos + vs)%Q) else pos).
Proof.
  intros Hr Hu Hpos. unfold motion, heading. rewrite Hr, Hu, Hpos.
  destruct (bounds st) as [[[b0 b1] b2] b3].
  destruct (steer inp LEFT RIGHT _ _ _ _) as [dx sx].
  destruct (steer inp UP DOWN _ _ _ _) as [dy sy]. cbn [fst snd].
  eexists. split; [reflexivity|]. cbn [direction hspeed vspeed with_self].
  repeat split. unfold moves.
  destruct (_ || _).
  - unfold position_of. cbn [units with_self].
    by apply (position_of_move st r u).
  - unfold position_of. cbn [units with_self]. by rewrite Hu.
Qed.

Lemma axis_speed_blocked_high st u pos low high d :
  0 < d → can_move st u pos high = false → axis_speed st u pos low high d = 0%Q.
Proof.
  intros Hd Hc. unfold axis_speed. rewrite Hc, andb_false_r.
  by rewrite (proj2 (Z.ltb_ge d 0)) by lia.
Qed.

Lemma axis_speed_blocked_low st u pos low high d :
  d < 0 → can_move st u pos low = false → axis_speed st u pos low high d = 0%Q.
Proof.
  intros Hd Hc. unfold axis_speed. rewrite Hc, andb_false_r.
  by rewrite (proj2 (Z.ltb_ge 0 d)) by lia.
Qed.

Lemma axis_speed_open_high st u pos low high d :
  0 < d → can_move st u pos high = true → axis_speed st u pos low high d = speed st.
Proof.
  intros Hd Hc. unfold axis_speed. by rewrite Hc, (proj2 (Z.ltb_lt 0 d)) by lia.
Qed.

Lemma axis_speed_open_low st u pos low high d :
  d < 0 → can_move st u pos low = true →
  axis_speed st u pos low high d = (- speed st)%Q.
Proof.
  intros Hd Hc. unfold axis_speed.
  rewrite Hc, (proj2 (Z.ltb_ge 0 d)), (proj2 (Z.ltb_lt d 0)) by lia. done.
Qed.

(** What a tick does along the axis of a direction it is heading for. *)
Lemma motion_heading st inp time roam_speed r u pos :
  roam_unit st = Some r → units st !! r = Some u → position u = Some pos →
  ∃ st' pos',
    motion st inp time roam_speed = Ok st' ∧
    position_of st' r = Some pos' ∧
    direction st' = heading st inp pos ∧
    ∀ direc, heads (heading st inp pos) direc →
      (can_move st u pos direc = false →
       axis_velocity direc st' = 0%Q ∧
       (axis_coord direc pos' == axis_coord direc pos)%Q) ∧
      (can_move st u pos direc = true →
       axis_velocity direc st' = signed_speed direc st).
Proof.
  intros Hr Hu Hpos.
  destruct (motion_spec st inp time roam_speed r u pos Hr Hu Hpos)
    as (st' & Hrun & Hdir & Hhs & Hvs & Hp).
  eexists st', _. split; [exact Hrun|]. split; [exact Hp|]. split; [exact Hdir|].
  intros direc Hh. split.
  - intros Hc. destruct direc; cbn [heads axis_velocity axis_coord] in *; try done.
    + rewrite Hhs, axis_speed_blocked_low by done. split; [done|].
      match goal with |- context [moves ?a ?b] => destruct (moves a b) end;
        cbn [fst]; [apply Qplus_0_r | apply Qeq_refl].
    + rewrite Hhs, axis_speed_blocked_high by done. split; [done|].
      match goal with |- context [moves ?a ?b] => destruct (moves a b) end;
        cbn [fst]; [apply Qplus_0_r | apply Qeq_refl].
    + rewrite Hvs, axis_speed_blocked_low by done. split; [done|].
      match goal with |- context [moves ?a ?b] => destruct (moves a b) end;
        cbn [snd]; [apply Qplus_0_r | apply Qeq_refl].
    + rewrite Hvs, axis_speed_blocked_high by done. split; [done|].
      match goal with |- context [moves ?a ?b] => destruct (moves a b) end;
        cbn [snd]; [apply Qplus_0_r | apply Qeq_refl].
  - intros Hc. destruct direc; cbn [heads axis_velocity signed_speed] in *; try done.
    + by rewrite Hhs, axis_speed_open_low.
    + by rewrite Hhs, axis_speed_open_high.
    + by rewrite Hvs, axis_speed_open_low.
    + by rewrite Hvs, axis_speed_open_high.
Qed.

(** A key that is held registers its direction: LEFT and UP whenever the
    unit is inside the low bound, RIGHT and DOWN when moreover the opposite
    key is not touched. *)
Definition held (st : State) (inp : Input) (pos : Coord) (direc : Key) : Prop :=
  let '(b0, b1, b2, b3) := bounds st in
  match direc with
  | LEFT => is_pressed inp LEFT = true ∧ (inject_Z b0 < fst pos)%Q
  | RIGHT => is_pressed inp RIGHT = true ∧ (fst pos < inject_Z b2)%Q ∧
             is_pressed inp LEFT = false ∧ just_pressed inp LEFT = false
  | UP => is_pressed inp UP = true ∧ (inject_Z b1 < snd pos)%Q
  | DOWN => is_pressed inp DOWN = true ∧ (snd pos < inject_Z b3)%Q ∧
            is_pressed inp UP = false ∧ just_pressed inp UP = false
  | BACK => False
  end.

Lemma Qltb_lt a b : Qltb a b = true ↔ (a < b)%Q.
Proof.
  unfold Qltb. rewrite negb_true_iff. split.
  - intros H. apply Qnot_le_lt. intros Hle. apply Qle_bool_iff in Hle. congruence.
  - intros H. destruct (Qle_bool b a) eqn:E; [|done].
    apply Qle_bool_iff in E. by apply Qlt_not_le in H.
Qed.

Lemma steer_low inp low high coord lo hi d :
  is_pressed inp low = true → (inject_Z lo < coord)%Q →
  fst (steer inp low high coord lo hi d) = -5.
Proof.
  intros Hp Hb. unfold steer. rewrite Hp. cbn [orb andb negb].
  rewrite (proj2 (Qltb_lt _ _) Hb). by destruct (is_pressed inp high).
Qed.

Lemma steer_high inp low high coord lo hi d :
  is_pressed inp high = true → (coord < inject_Z hi)%Q →
  is_pressed inp low = false → just_pressed inp low = false →
  fst (steer inp low high coord lo hi d) = 5.
Proof.
  intros Hp Hb Hl Hj. unfold steer. rewrite Hp, Hl, Hj. cbn [orb andb negb].
  by rewrite (proj2 (Qltb_lt _ _) Hb).
Qed.

Lemma held_heads st inp pos direc :
  held st inp pos direc → heads (heading st inp pos) direc.
Proof.
  unfold held, heading. destruct (bounds st) as [[[b0 b1] b2] b3].
  destruct direc; cbn [heads fst snd].
  - intros [Hp Hb]. rewrite steer_low by done. lia.
  - intros (Hp & Hb & Hl & Hj). rewrite steer_high by done. lia.
  - intros [Hp Hb]. rewrite steer_low by done. lia.
  - intros (Hp & Hb & Hl & Hj). rewrite steer_high by done. lia.
  - done.
Qed.

(** C3 (amended). In a tick of free-roam movement, for each direction the
    tick registers for the unit (the key held on that axis; LEFT and UP win
    over their opposites when both are held): if the tile the unit would
    enter in that direction costs 99 or more, or is occupied by an enemy
    unit, the velocity on that axis is zero and the movement leaves the
    position on that axis unchanged; if the tile is occupied by an allied
    unit and costs less than 99, the unit gets its speed in that
    direction. *)
Theorem roam_blocked_direction (st : State) (inp : Input) (time : Z)
    (roam_speed : Q) (r : string) (u : UnitObject) (pos : Coord)
    (Hr : roam_unit st = Some r) (Hu : units st !! r = Some u)
    (Hpos : position u = Some pos) :
  ∃ st' pos',
    motion st inp time roam_speed = Ok st' ∧
    position_of st' r = Some pos' ∧
    ∀ direc, held st inp pos direc ∨ heads (heading st inp pos) direc →
      (99 ≤ get_mcost u (check_tile pos direc) →
       axis_velocity direc st' = 0%Q ∧
       (axis_coord direc pos' == axis_coord direc pos)%Q) ∧
      (∀ occ t,
         unit_grid st !! check_tile pos direc = Some occ →
         team_grid st !! check_tile pos direc = Some t →
         t ≠ "" → compare_teams (team u) t = false →
         axis_velocity direc st' = 0%Q ∧
         (axis_coord direc pos' == axis_coord direc pos)%Q) ∧
      (∀ occ t,
         unit_grid st !! check_tile pos direc = Some occ →
         team_grid st !! check_tile pos direc = Some t →
         compare_teams (team u) t = true →
         get_mcost u (check_tile pos direc) < 99 →
         axis_velocity direc st' = signed_speed direc st).
Proof.
  destruct (motion_heading st inp time roam_speed r u pos Hr Hu Hpos)
    as (st' & pos' & Hrun & Hp & _ & Hdirs).
  exists st', pos'. split; [exact Hrun|]. split; [exact Hp|].
  intros direc Hh.
  assert (Hheads : heads (heading st inp pos) direc).
  { destruct Hh as [Hh|Hh]; [by apply held_heads | done]. }
  assert (Hne : direc ≠ BACK) by (by intros ->).
  destruct (Hdirs direc Hheads) as [Hblocked Hopen].
  split; [|split].
  - intros Hc. apply Hblocked. by apply can_move_impassable.
  - intros occ t Ho Ht Hnt Hct. apply Hblocked. by eapply can_move_enemy.
  - intros occ t Ho Ht Hct Hc. apply Hopen.
    rewrite (can_move_ally _ _ _ _ _ _ Hne Ho Ht Hct). by apply Z.ltb_lt.
Qed.

(** ** Rationalization *)

(** [get_nearest_open_tile] answers with a tile nobody stands on. *)
Definition open_tiles : Prop :=
  ∀ st unit t, unit_grid st !! get_nearest_open_tile st unit t = None.

(** A unit that is in the store and has a position. *)
Definition placed (st : State) (unit : string) : Prop :=
  ∃ u, units st !! unit = Some u ∧ is_Some (position u).

(** The tile [rationalize] picks for a roam unit at [pos]. *)
Definition landing_tile (st : State) (r : string) (pos : Coord) : Tile :=
  match unit_grid st !! rounded pos with
  | Some _ => get_nearest_open_tile st r (rounded pos)
  | None => rounded pos
  end.

Lemma int_inject_Z z : int (inject_Z z) = z.
Proof. unfold int. simpl. apply Z.quot_1_r. Qed.

Lemma as_tile_of_tile t : as_tile (of_tile t) = t.
Proof. destruct t as [x y]. unfold as_tile, of_tile. simpl. by rewrite !int_inject_Z. Qed.

(** Putting a unit of the store on a tile and letting it arrive there. *)
Lemma settle_spec st unit u tile :
  units st !! unit = Some u →
  let st' := arrive (set_position st unit (of_tile tile)) unit in
  unit_grid st' = <[tile := unit]> (unit_grid st) ∧
  position_of st' unit = Some (of_tile tile) ∧
  (∀ other, other ≠ unit → units st' !! other = units st !! other) ∧
  (∀ other, placed st other → placed st' other) ∧
  targets st' = targets st ∧ roam_unit st' = roam_unit st ∧
  regions st' = regions st ∧ triggered st' = triggered st ∧
  direction st' = direction st.
Proof.
  intros Hu. unfold arrive.
  assert (Hl : units (set_position st unit (of_tile tile)) !! unit =
               Some {| nid := nid u; team := team u; position := Some (of_tile tile) |}).
  { unfold set_position, with_game. cbn [units]. rewrite lookup_alter.
    case_decide; [by rewrite Hu | done]. }
  rewrite Hl. cbn [position]. rewrite as_tile_of_tile.
  unfold with_game, position_of. cbn.
  repeat split.
  - rewrite lookup_alter. case_decide; [by rewrite Hu | done].
  - intros other Hne. rewrite lookup_alter. case_decide; [congruence | done].
  - intros other (v & Hv & Hp). unfold placed. cbn. rewrite lookup_alter.
    case_decide as Heq.
    + subst. rewrite Hu. eexists. split; [done|]. by eexists.
    + exists v. by split.
Qed.

(** The tile [rationalize_unit] picks. *)
Definition target_tile (st : State) (unit : string) (pos : Coord) : Tile :=
  let new_pos := (int (fst pos), int (snd pos)) in
  match unit_grid st !! new_pos with
  | Some occupant =>
    if negb (String.eqb occupant unit)
    then get_nearest_open_tile st unit new_pos
    else new_pos
  | None => new_pos
  end.

Lemma rationalize_unit_eq st unit u pos :
  units st !! unit = Some u → position u = Some pos →
  rationalize_unit st unit =
  Ok (arrive (set_position st unit (of_tile (target_tile st unit pos))) unit).
Proof. intros Hu Hp. unfold rationalize_unit, target_tile. by rewrite Hu, Hp. Qed.

(** Where a target lands is never a tile somebody else stands on. *)
Lemma target_tile_free st unit pos other :
  open_tiles → other ≠ unit →
  unit_grid st !! target_tile st unit pos ≠ Some other.
Proof.
  intros Hopen Hne. unfold target_tile.
  destruct (unit_grid st !! (_, _)) as [occ|] eqn:Ho.
  - destruct (String.eqb_spec occ unit) as [->|Hocc]; cbn [negb].
    + congruence.
    + by rewrite Hopen.
  - by rewrite Ho.
Qed.

(** The roam unit, once settled on [tile], stays there while the AI-driven
    units are put back on the grid. *)
Definition settled (st : State) (r : string) (tile : Tile) : Prop :=
  unit_grid st !! tile = Some r ∧ position_of st r = Some (of_tile tile).

Lemma rationalize_unit_settled st unit r tile :
  open_tiles → placed st unit → settled st r tile →
  ∃ st', rationalize_unit st unit = Ok st' ∧ settled st' r tile ∧
         (∀ other, placed st other → placed st' other) ∧
         direction st' = direction st.
Proof.
  intros Hopen (u & Hu & [pos Hpos]) [Hgrid Hposr].
  rewrite (rationalize_unit_eq st unit u pos Hu Hpos).
  destruct (settle_spec st unit u (target_tile st unit pos) Hu)
    as (Hg & Hp & Hother & Hplaced & _ & _ & _ & _ & Hdir).
  eexists. split; [done|]. split; [|by split].
  destruct (decide (unit = r)) as [->|Hne].
  - assert (Htile : target_tile st r pos = tile).
    { unfold position_of in Hposr. rewrite Hu in Hposr. cbn in Hposr.
      rewrite Hpos in Hposr. injection Hposr as ->.
      unfold target_tile. change (int (of_tile tile).1, int (of_tile tile).2)
        with (as_tile (of_tile tile)). rewrite as_tile_of_tile, Hgrid.
      by rewrite String.eqb_refl. }
    rewrite Htile in *. split; [by rewrite Hg, lookup_insert_eq | done].
  - split.
    + rewrite Hg, lookup_insert_ne; [done|].
      intros Heq. apply (target_tile_free st unit pos r Hopen); [done|].
      by rewrite Heq.
    + unfold position_of in *. by rewrite Hother.
Qed.

Lemma rationalize_targets_settled st ts r tile :
  open_tiles → Forall (placed st) ts → settled st r tile →
  ∃ st', rationalize_targets st ts = Ok st' ∧ settled st' r tile ∧
         direction st' = direction st.
Proof.
  intros Hopen. revert st. induction ts as [|t ts IH]; intros st Hts Hs.
  - by exists st.
  - apply Forall_cons in Hts as [Ht Hts]. cbn [rationalize_targets].
    destruct (rationalize_unit_settled st t r tile Hopen Ht Hs)
      as (st1 & -> & Hs1 & Hpl & Hd1).
    destruct (IH st1) as (st' & Hrun & Hs' & Hd'); [|done|].
    { eapply Forall_impl; [exact Hts | exact Hpl]. }
    exists st'. split; [done|]. split; [done | congruence].
Qed.

(** [rationalize] returns, with the roam unit settled on its landing tile
    and the state's own attributes reset. *)
Lemma rationalize_settles st r u pos :
  open_tiles → roam_unit st = Some r → units st !! r = Some u →
  position u = Some pos → Forall (placed st) (targets st) →
  ∃ st',
    rationalize st = Ok st' ∧
    settled st' r (landing_tile st r pos) ∧
    roam_unit st' = None ∧
    speed st' = 0%Q ∧ hspeed st' = 0%Q ∧ vspeed st' = 0%Q ∧ last_move st' = 0.
Proof.
  intros Hopen Hr Hu Hpos Htargets.
  unfold rationalize. rewrite Hr, Hu, Hpos. fold (landing_tile st r pos).
  set (tile := landing_tile st r pos).
  destruct (settle_spec st r u tile Hu)
    as (Hg & Hp & Hother & Hplaced & Htg & _).
  set (st1 := arrive (set_position st r (of_tile tile)) r) in *.
  destruct (rationalize_targets_settled st1 (targets st1) r tile Hopen)
    as (st2 & Hrun & Hs2 & _).
  { rewrite Htg. eapply Forall_impl; [exact Htargets | exact Hplaced]. }
  { split; [by rewrite Hg, lookup_insert_eq | done]. }
  rewrite Hrun. eexists. split; [reflexivity|]. split; [exact Hs2|].
  repeat split; reflexivity.
Qed.

(** C4. With [get_nearest_open_tile] answering open tiles and the AI-driven
    units on the map, [rationalize] on a roam unit that has a position
    returns; the unit ends on a whole tile that nobody stood on (its rounded
    position when that is free, the nearest open tile otherwise), the board
    records it there ([game.arrive]), and the state lets go of it. *)
Theorem rationalize_places_unit (st : State) (r : string) (u : UnitObject)
    (pos : Coord)
    (Hopen : open_tiles)
    (Hr : roam_unit st = Some r) (Hu : units st !! r = Some u)
    (Hpos : position u = Some pos)
    (Htargets : Forall (placed st) (targets st)) :
  ∃ st',
    rationalize st = Ok st' ∧
    landing_tile st r pos =
      (if bool_decide (unit_grid st !! rounded pos = None) then rounded pos
       else get_nearest_open_tile st r (rounded pos)) ∧
    unit_grid st !! landing_tile st r pos = None ∧
    position_of st' r = Some (of_tile (landing_tile st r pos)) ∧
    unit_grid st' !! landing_tile st r pos = Some r ∧
    roam_unit st' = None ∧
    speed st' = 0%Q ∧ hspeed st' = 0%Q ∧ vspeed st' = 0%Q ∧ last_move st' = 0.
Proof.
  destruct (rationalize_settles st r u pos Hopen Hr Hu Hpos Htargets)
    as (st' & Hrun & [Hgrid Hp] & Hnone & Hs & Hhs & Hvs & Hlm).
  exists st'. split; [exact Hrun|].
  assert (Hfree : unit_grid st !! landing_tile st r pos = None).
  { unfold landing_tile.
    destruct (unit_grid st !! rounded pos) eqn:Ho; [apply Hopen | exact Ho]. }
  assert (Htile : landing_tile st r pos =
            (if bool_decide (unit_grid st !! rounded pos = None) then rounded pos
             else get_nearest_open_tile st r (rounded pos))).
  { unfold landing_tile. by destruct (unit_grid st !! rounded pos). }
  repeat split; done.
Qed.

(** ** Interrupting regions *)

Lemma rationalize_unit_frame st unit st' :
  rationalize_unit st unit = Ok st' →
  regions st' = regions st ∧ triggered st' = triggered st.
Proof.
  unfold rationalize_unit. destruct (units st !! unit) as [u|] eqn:Hu; [|done].
  destruct (position u) as [pos|]; [|done]. intros [= <-].
  match goal with |- context [set_position st unit (of_tile ?t)] =>
    destruct (settle_spec st unit u t Hu) as (_ & _ & _ & _ & _ & _ & Hr & Ht & _)
  end.
  by split.
Qed.

Lemma rationalize_targets_frame st ts st' :
  rationalize_targets st ts = Ok st' →
  regions st' = regions st ∧ triggered st' = triggered st.
Proof.
  revert st. induction ts as [|t ts IH]; intros st; cbn [rationalize_targets].
  - by intros [= <-].
  - destruct (rationalize_unit st t) as [st1|] eqn:H1; [|done].
    intros H2. apply rationalize_unit_frame in H1 as [<- <-]. by apply IH.
Qed.

Lemma rationalize_frame st st' :
  rationalize st = Ok st' →
  regions st' = regions st ∧ triggered st' = triggered st.
Proof.
  unfold rationalize. destruct (roam_unit st) as [r|]; [|done].
  destruct (units st !! r) as [u|] eqn:Hu; [|done].
  destruct (position u) as [pos|]; [|done].
  destruct (rationalize_targets _ _) as [st2|] eqn:H2; [|done].
  intros [= <-]. cbn [regions triggered with_self].
  apply rationalize_targets_frame in H2 as [-> ->].
  match goal with |- context [set_position st r (of_tile ?t)] =>
    destruct (settle_spec st r u t Hu) as (_ & _ & _ & _ & _ & _ & Hr & Ht & _)
  end.
  by split.
Qed.

(** The regions left after an iteration on [region] whose trigger answered
    [did_trigger]. *)
Definition regions_after (st : State) (region : Region) (did_trigger : bool)
    : list Region :=
  if only_once region && did_trigger
  then List.filter (λ r', negb (String.eqb (region_nid r') (region_nid region)))
         (regions st)
  else regions st.

(** C9 (amended). When the rounded position of the roam unit lies in an
    [interrupt_move] region, the relocation step of the iteration returns.
    On a free tile it changes nothing. When a unit stands on that tile, it is
    the roam unit that is put on the nearest open tile (computed for the
    occupant) before the trigger is fired, with that tile as the trigger's
    position; the occupant and the board are left as they were. Then, on a
    free tile and on an occupied one alike: whenever the iteration returns,
    the trigger was called once, and the region has been removed exactly
    when it is only-once and the trigger fired; and the iteration does
    return when the trigger does not fire, or when open tiles are open, the
    AI-driven units are on the map and the roam unit has a position to be
    put back from. *)
Theorem interrupt_relocates_roam_unit (st : State) (tile : Tile)
    (region : Region) (r : string) (u : UnitObject)
    (Hr : roam_unit st = Some r) (Hu : units st !! r = Some u)
    (Hin : contains region tile = true) (Hint : interrupt_move region = true) :
  ∃ st1 tile1,
    relocate st tile = Ok (st1, tile1) ∧
    match unit_grid st !! tile with
    | None => st1 = st ∧ tile1 = tile
    | Some occ =>
      tile1 = get_nearest_open_tile st occ tile ∧
      st1 = set_position st r (of_tile tile1) ∧
      position_of st1 r = Some (of_tile tile1) ∧
      trigger_position (interrupt_call st1 r region) = Some (of_tile tile1) ∧
      (occ ≠ r → units st1 !! occ = units st !! occ) ∧
      unit_grid st1 = unit_grid st
    end ∧
    let call := interrupt_call st1 r region in
    let did_trigger := trigger st1 call in
    (∀ st' t', interrupt st tile region = Ok (st', t') →
       t' = tile1 ∧
       triggered st' = (triggered st ++ [call])%list ∧
       regions st' = regions_after st region did_trigger) ∧
    (did_trigger = false →
       interrupt st tile region = Ok (record_trigger st1 call, tile1)) ∧
    (open_tiles → Forall (placed st) (targets st) →
     (unit_grid st !! tile = None → is_Some (position u)) →
       ∃ st', interrupt st tile region = Ok (st', tile1)).
Proof.
  (* the relocation step, with what it keeps *)
  assert (Hrel : ∃ st1 tile1,
            relocate st tile = Ok (st1, tile1) ∧
            match unit_grid st !! tile with
            | None => st1 = st ∧ tile1 = tile
            | Some occ =>
              tile1 = get_nearest_open_tile st occ tile ∧
              st1 = set_position st r (of_tile tile1)
            end).
  { unfold relocate. rewrite Hr. destruct (unit_grid st !! tile); by eexists _, _. }
  destruct Hrel as (st1 & tile1 & Hrel & Hcase). exists st1, tile1.
  assert (Hkeep : roam_unit st1 = Some r ∧ regions st1 = regions st ∧
                  triggered st1 = triggered st ∧ targets st1 = targets st ∧
                  (∀ t, placed st t → placed st1 t) ∧
                  ∃ u1, units st1 !! r = Some u1 ∧
                        (is_Some (position u) → is_Some (position u1)) ∧
                        (is_Some (unit_grid st !! tile) → is_Some (position u1))).
  { destruct (unit_grid st !! tile) as [occ|].
    - destruct Hcase as [_ ->]. repeat split; try done.
      + intros t (v & Hv & Hpv). unfold placed, set_position, with_game.
        cbn [units]. rewrite lookup_alter. case_decide.
        * subst. rewrite Hu. eexists. split; [done|]. by eexists.
        * by exists v.
      + eexists. split.
        * unfold set_position, with_game. cbn [units].
          rewrite lookup_alter. case_decide; [by rewrite Hu | done].
        * split; by eexists.
    - destruct Hcase as [-> _]. repeat split; try done.
      exists u. split; [done|]. split; [done | by intros [? [=]]]. }
  destruct Hkeep as (Hr1 & Hregions & Htriggered & Htargets1 & Hplaced & u1 & Hu1 & Hpos1 & Hocc1).
  split; [exact Hrel|]. split.
  { destruct (unit_grid st !! tile) as [occ|]; [|exact Hcase].
    destruct Hcase as [Htile Hst].
    assert (Hp1 : position_of st1 r = Some (of_tile tile1)).
    { rewrite Hst. by eapply position_of_set_position. }
    split; [exact Htile|]. split; [exact Hst|]. split; [exact Hp1|].
    split; [exact Hp1|]. split; [|by rewrite Hst].
    intros Hother. rewrite Hst. unfold set_position, with_game. cbn [units].
    rewrite lookup_alter. by case_decide. }
  intros call did_trigger.
  assert (Hint' : interrupt st tile region =
            match (if did_trigger then rationalize (record_trigger st1 call)
                   else Ok (record_trigger st1 call)) with
            | Raise e => Raise e
            | Ok st2 =>
              Ok (if only_once region && did_trigger
                  then remove_region st2 region else st2, tile1)
            end).
  { unfold interrupt. rewrite Hin, Hint, Hrel. cbn [andb]. by rewrite Hr1. }
  split; [|split].
  - intros st' t'. rewrite Hint'. unfold regions_after.
    destruct did_trigger.
    + destruct (rationalize _) as [st2|] eqn:H2; [|done].
      apply rationalize_frame in H2 as [Hr2 Ht2]. intros [= <- <-].
      split; [done|]. rewrite andb_true_r. cbn [record_trigger with_game regions
        triggered] in Hr2, Ht2.
      destruct (only_once region); cbn; by rewrite ?Hr2, ?Ht2, ?Hregions, ?Htriggered.
    + intros [= <- <-]. rewrite andb_false_r. cbn. by rewrite Hregions, Htriggered.
  - intros Hd. rewrite Hint'. replace did_trigger with false. by rewrite andb_false_r.
  - intros Hopen Htargets Hfree. rewrite Hint'. destruct did_trigger; [|by eexists].
    assert (Hsome : is_Some (position u1)).
    { destruct (unit_grid st !! tile) as [occ|]; [by apply Hocc1 | by apply Hpos1, Hfree]. }
    destruct Hsome as [pos Hpos].
    destruct (rationalize_settles (record_trigger st1 call) r u1 pos
                Hopen Hr1 Hu1 Hpos) as (st2 & -> & _).
    + cbn [record_trigger with_game targets]. rewrite Htargets1.
      eapply Forall_impl; [exact Htargets|]. intros t Ht. by apply Hplaced.
    + by eexists.
Qed.

(** The region loop never stops for lack of fuel: the level's regions only
    get fewer during the loop, so any fuel beyond the number of regions that
    are left to visit changes nothing. *)
Lemma interrupt_regions_length st rp region st' rp' :
  interrupt st rp region = Ok (st', rp') →
  (length (regions st') ≤ length (regions st))%nat.
Proof.
  unfold interrupt. destruct (contains region rp && interrupt_move region).
  2:{ by intros [= <- <-]. }
  assert (Hrel : ∀ st1 rp1, relocate st rp = Ok (st1, rp1) → regions st1 = regions st).
  { unfold relocate. intros st1 rp1. destruct (unit_grid st !! rp); [|by intros [= <- <-]].
    destruct (roam_unit st); [|done]. by intros [= <- <-]. }
  destruct (relocate st rp) as [[st1 rp1]|]; [|done]. specialize (Hrel _ _ eq_refl).
  destruct (roam_unit st1) as [r|]; [|done].
  set (call := interrupt_call st1 r region).
  assert (Hfire : ∀ st2,
            (if trigger st1 call then rationalize (record_trigger st1 call)
             else Ok (record_trigger st1 call)) = Ok st2 →
            regions st2 = regions st).
  { intros st2. destruct (trigger st1 call).
    - intros [-> _]%rationalize_frame. exact Hrel.
    - intros [= <-]. exact Hrel. }
  destruct (if trigger st1 call then _ else _) as [st2|]; [|done].
  specialize (Hfire _ eq_refl). intros [= <- <-].
  destruct (only_once region && trigger st1 call); [|by rewrite Hfire].
  unfold remove_region, with_game. cbn [regions]. rewrite Hfire.
  apply List.filter_length_le.
Qed.

Lemma interrupt_loop_fuel fuel extra i st rp :
  (length (regions st) ≤ i + fuel)%nat →
  interrupt_loop (fuel + extra) i st rp = interrupt_loop fuel i st rp.
Proof.
  revert i st rp. induction fuel as [|fuel IH]; intros i st rp Hlen.
  - cbn [Nat.add interrupt_loop]. destruct extra; [done|]. cbn [interrupt_loop].
    by rewrite lookup_ge_None_2 by lia.
  - cbn [Nat.add interrupt_loop]. destruct (regions st !! i) as [region|]; [|done].
    destruct (interrupt st rp region) as [[st' rp']|] eqn:Hi; [|done].
    apply IH. apply interrupt_regions_length in Hi. lia.
Qed.

End Engine.

(** ** A small level for the examples *)

(** A wall along column 3. *)
Definition wall_mcost (u : UnitObject) (t : Tile) : Z :=
  if fst t =? 3 then 99 else 1.

Definition same_team (t1 t2 : string) : bool := String.eqb t1 t2.

(** An open tile that is easy to find: just right of every occupied one. *)
Definition beyond_board (st : State) (unit : string) (t : Tile) : Tile :=
  (1 + foldr Z.max 0 (map (λ kv, fst (fst kv)) (map_to_list (unit_grid st))), 0).

Definition always_fires (st : State) (c : TriggerCall) : bool := true.
Definition never_fires (st : State) (c : TriggerCall) : bool := false.

Lemma foldr_max_ge (l : list Z) x : In x l → x ≤ foldr Z.max 0 l.
Proof.
  induction l as [|y l IH]; [done|]. intros [->|Hx]; simpl; [lia|].
  specialize (IH Hx). lia.
Qed.

Lemma beyond_board_open : open_tiles beyond_board.
Proof.
  intros st unit t. unfold beyond_board.
  destruct (unit_grid st !! _) as [v|] eqn:Hv; [|done]. exfalso.
  apply elem_of_map_to_list, list_elem_of_In in Hv.
  apply (in_map (λ kv : Z * Z * string, fst (fst kv))) in Hv.
  apply foldr_max_ge in Hv. cbn [fst] in Hv. lia.
Qed.

Definition eirika : UnitObject :=
  {| nid := "Eirika"; team := "player"; position := Some (26 # 10, 1%Q) |}.
Definition seth : UnitObject :=
  {| nid := "Seth"; team := "player"; position := Some (2%Q, 1%Q) |}.
Definition bandit : UnitObject :=
  {| nid := "Bandit"; team := "enemy"; position := Some (1%Q, 2%Q) |}.

Definition gate : Region :=
  {| region_nid := "Gate"; region_position := (2, 1); region_size := (1, 1);
     sub_nid := "GateEvent"; only_once := true; interrupt_move := true |}.

(** Eirika roams at (2.6, 1) with speed 0.1; Seth stands on (2, 1) and a
    bandit on (1, 2). *)
Definition roaming : State :=
  {| units := {[ "Eirika" := eirika; "Seth" := seth; "Bandit" := bandit ]};
     unit_grid := {[ (2, 1) := "Seth"; (1, 2) := "Bandit" ]};
     team_grid := {[ (2, 1) := "player"; (1, 2) := "enemy" ]};
     bounds := (0, 0, 9, 9);
     fow_vantage_point := ∅;
     regions := [gate];
     triggered := [];
     roam_unit := Some "Eirika";
     last_move := 0;
     speed := 1 # 10;
     vspeed := 0;
     hspeed := 0;
     direction := (0, 0);
     targets := [] |}.

(** The same level with Eirika at (2.2, 1), over Seth's tile. *)
Definition at_gate : State :=
  set_position roaming "Eirika" (22 # 10, 1%Q).

#[export] Instance Key_eq_dec : EqDecision Key.
Proof. solve_decision. Defined.

Definition keys (l : list Key) : Input :=
  {| is_pressed := λ k, bool_decide (k ∈ l);
     just_pressed := λ _, false |}.

Example check_tiles_at_start :
  check_tile (26 # 10, 1%Q) RIGHT = (3, 1) ∧ check_tile (26 # 10, 1%Q) LEFT = (2, 1).
Proof. split; reflexivity. Qed.

(** C3 at the demo level: RIGHT is held and the wall is to the right. *)
Lemma roam_blocked_direction_witness :
  ∃ st' pos',
    motion wall_mcost same_team roaming (keys [RIGHT]) 0 1%Q = Ok st' ∧
    position_of st' "Eirika" = Some pos' ∧
    hspeed st' = 0%Q ∧ (fst pos' == 26 # 10)%Q.
Proof.
  destruct (roam_blocked_direction wall_mcost same_team roaming (keys [RIGHT]) 0 1%Q
              "Eirika" eirika (26 # 10, 1%Q) eq_refl eq_refl eq_refl)
    as (st' & pos' & Hrun & Hp & Hdirs).
  destruct (Hdirs RIGHT) as [Hwall _].
  - left. vm_compute. repeat split; intros; discriminate.
  - destruct Hwall as [Hv Hx].
    + vm_compute. discriminate.
    + exists st', pos'. repeat split; assumption.
Defined.

(** The claim of C3 fails when both keys of an axis are held: RIGHT is held
    and the tile to the right is a wall, yet the unit moves (to the left,
    over the tile of its ally Seth), so its x changes from 2.6 to 2.5. *)
Lemma both_keys_held_unit_moves :
  is_pressed (keys [LEFT; RIGHT]) RIGHT = true ∧
  99 ≤ wall_mcost eirika (check_tile (26 # 10, 1%Q) RIGHT) ∧
  match motion wall_mcost same_team roaming (keys [LEFT; RIGHT]) 0 1%Q with
  | Ok st' => position_of st' "Eirika" = Some (250 # 100, 1%Q)
  | Raise _ => False
  end ∧
  (250 # 100 < 26 # 10)%Q.
Proof. repeat split; vm_compute; (reflexivity || discriminate). Qed.

(** C4 at the demo level: Eirika stands over Seth's tile and lands on the
    open tile (3, 0). *)
Lemma rationalize_places_unit_witness :
  ∃ st',
    rationalize beyond_board at_gate = Ok st' ∧
    unit_grid at_gate !! (3, 0) = None ∧
    position_of st' "Eirika" = Some (of_tile (3, 0)) ∧
    unit_grid st' !! (3, 0) = Some "Eirika" ∧
    roam_unit st' = None.
Proof.
  destruct (rationalize_places_unit beyond_board at_gate "Eirika"
              {| nid := "Eirika"; team := "player"; position := Some (22 # 10, 1%Q) |}
              (22 # 10, 1%Q) beyond_board_open eq_refl eq_refl eq_refl)
    as (st' & Hrun & _ & Hfree & Hp & Hg & Hr & _).
  - vm_compute. constructor.
  - exists st'. repeat split; assumption.
Defined.

Example rationalize_free_tile :
  match rationalize beyond_board roaming with
  | Ok st' => position_of st' "Eirika" = Some (of_tile (3, 1)) ∧
              unit_grid st' !! (3, 1) = Some "Eirika"
  | Raise _ => False
  end.
Proof. vm_compute. by split. Qed.

(** The same level once Seth has left the gate: nobody stands on (2, 1). *)
Definition open_gate : State :=
  with_game at_gate (units at_gate)
    (delete (2, 1) (unit_grid at_gate)) (delete (2, 1) (team_grid at_gate))
    (fow_vantage_point at_gate) (regions at_gate) (triggered at_gate).

(** C9 at the demo level, with Seth on the gate and with the gate free: the
    only-once gate is gone either way, its trigger having fired. *)
Lemma interrupt_relocates_roam_unit_witness :
  (relocate beyond_board at_gate (2, 1) =
     Ok (set_position at_gate "Eirika" (of_tile (3, 0)), (3, 0)) ∧
   ∃ st', interrupt beyond_board always_fires at_gate (2, 1) gate = Ok (st', (3, 0)) ∧
          regions st' = []) ∧
  (relocate beyond_board open_gate (2, 1) = Ok (open_gate, (2, 1)) ∧
   ∃ st', interrupt beyond_board always_fires open_gate (2, 1) gate = Ok (st', (2, 1)) ∧
          regions st' = []).
Proof.
  split.
  - destruct (interrupt_relocates_roam_unit beyond_board always_fires at_gate (2, 1)
                gate "Eirika"
                {| nid := "Eirika"; team := "player"; position := Some (22 # 10, 1%Q) |}
                eq_refl eq_refl eq_refl eq_refl)
      as (st1 & tile1 & Hrel & Hcase & Hres & _ & Hret).
    change (unit_grid at_gate !! (2, 1)) with (Some "Seth") in Hcase.
    destruct Hcase as (Htile & Hst & _). subst tile1 st1.
    split; [exact Hrel|].
    destruct Hret as [st' Hrun];
      [exact beyond_board_open | constructor | by intros _; eexists |].
    exists st'. split; [exact Hrun|].
    exact (proj2 (proj2 (Hres st' _ Hrun))).
  - destruct (interrupt_relocates_roam_unit beyond_board always_fires open_gate (2, 1)
                gate "Eirika"
                {| nid := "Eirika"; team := "player"; position := Some (22 # 10, 1%Q) |}
                eq_refl eq_refl eq_refl eq_refl)
      as (st1 & tile1 & Hrel & Hcase & Hres & _ & Hret).
    change (unit_grid open_gate !! (2, 1)) with (@None string) in Hcase.
    destruct Hcase as [Hst Htile]. subst tile1 st1.
    split; [exact Hrel|].
    destruct Hret as [st' Hrun];
      [exact beyond_board_open | constructor | by intros _; eexists |].
    exists st'. split; [exact Hrun|].
    exact (proj2 (proj2 (Hres st' _ Hrun))).
Defined.

(** The claim of C9 fails on the occupant: after the iteration Seth still
    stands on (2, 1) and it is Eirika, the roam unit, who was put on the open
    tile (3, 0). The only-once region is gone, its trigger having fired. *)
Lemma interrupt_leaves_occupant_in_place :
  match interrupt beyond_board always_fires at_gate (2, 1) gate with
  | Ok (st', _) =>
    position_of st' "Seth" = Some (of_tile (2, 1)) ∧
    unit_grid st' !! (2, 1) = Some "Seth" ∧
    position_of st' "Eirika" = Some (of_tile (3, 0)) ∧
    triggered st' = [{| trigger_name := "roaming_interrupt"; trigger_unit := "Eirika";
                        trigger_position := Some (of_tile (3, 0));
                        trigger_region := "Gate" |}] ∧
    regions st' = []
  | Raise _ => False
  end.
Proof. vm_compute. repeat split. Qed.

Example interrupt_keeps_region_without_event :
  match interrupt beyond_board never_fires at_gate (2, 1) gate with
  | Ok (st', _) => regions st' = [gate] ∧ roam_unit st' = Some "Eirika"
  | Raise _ => False
  end.
Proof. vm_compute. repeat split. Qed.

(** ** The registered direction and the speed *)

Section Dynamics.
Variable get_mcost : UnitObject → Tile → Z.
Variable compare_teams : string → string → bool.

(** One step towards zero. *)
Definition decay (d : Z) : Z :=
  if 0 <? d then d - 1 else if d <? 0 then d + 1 else d.

(** No direction key of the axis is touched. *)
Definition idle (inp : Input) (low high : Key) : Prop :=
  is_pressed inp low = false ∧ just_pressed inp low = false ∧
  is_pressed inp high = false ∧ just_pressed inp high = false.

Lemma steer_range inp low high coord lo hi d :
  -5 ≤ d ≤ 5 → -5 ≤ fst (steer inp low high coord lo hi d) ≤ 5.
Proof.
  intros Hd. unfold steer.
  destruct ((is_pressed inp low || just_pressed inp low) && _).
  - destruct (negb (is_pressed inp high) && _) eqn:E1; cbn [fst].
    + apply andb_true_iff in E1 as [_ E1]. apply Z.ltb_lt in E1. lia.
    + destruct (negb (is_pressed inp low) && _); lia.
  - destruct ((is_pressed inp high || just_pressed inp high) && _).
    + destruct (negb (is_pressed inp high) && _); cbn [fst].
      * destruct (negb (is_pressed inp low) && _) eqn:E2; [|lia].
        apply andb_true_iff in E2 as [_ E2]. apply Z.ltb_lt in E2. lia.
      * destruct (negb (is_pressed inp low) && _) eqn:E2; [|lia].
        apply andb_true_iff in E2 as [_ E2]. apply Z.ltb_lt in E2. lia.
    + destruct (negb (is_pressed inp high) && _) eqn:E1; cbn [fst].
      * apply andb_true_iff in E1 as [_ E1]. apply Z.ltb_lt in E1.
        destruct (negb (is_pressed inp low) && _) eqn:E2; [|lia].
        apply andb_true_iff in E2 as [_ E2]. apply Z.ltb_lt in E2. lia.
      * destruct (negb (is_pressed inp low) && _) eqn:E2; [|lia].
        apply andb_true_iff in E2 as [_ E2]. apply Z.ltb_lt in E2. lia.
Qed.

Lemma steer_idle inp low high coord lo hi d :
  idle inp low high → fst (steer inp low high coord lo hi d) = decay d.
Proof.
  intros (Hl & Hjl & Hh & Hjh). unfold steer, decay. rewrite Hl, Hjl, Hh, Hjh.
  cbn [orb andb negb].
  destruct (Z.ltb_spec 0 d); cbn [fst].
  - destruct (Z.ltb_spec (d - 1) 0); [lia | done].
  - by destruct (Z.ltb_spec d 0).
Qed.

Lemma motion_direction st inp time roam_speed st' :
  motion get_mcost compare_teams st inp time roam_speed = Ok st' →
  direction st' = direction st ∧ roam_unit st = None ∨
  ∃ r u pos, roam_unit st = Some r ∧ units st !! r = Some u ∧
    position u = Some pos ∧ direction st' = heading st inp pos.
Proof.
  intros Hrun.
  destruct (roam_unit st) as [r|] eqn:Hr.
  2:{ left. unfold motion in Hrun. rewrite Hr in Hrun. by injection Hrun as <-. }
  destruct (units st !! r) as [u|] eqn:Hu.
  2:{ unfold motion in Hrun. by rewrite Hr, Hu in Hrun. }
  destruct (position u) as [pos|] eqn:Hpos.
  2:{ unfold motion in Hrun. by rewrite Hr, Hu, Hpos in Hrun. }
  destruct (motion_spec get_mcost compare_teams st inp time roam_speed r u pos
              Hr Hu Hpos) as (st'' & Hrun' & Hd & _).
  right. exists r, u, pos. repeat split; try done. congruence.
Qed.

(** X7. A tick of [take_input] keeps both components of the registered
    direction between -5 and 5; on an axis none of whose keys is pressed or
    just pressed, the component moves one step towards zero (and stays at
    zero once there). *)
Theorem direction_stays_in_range (st : State) (inp : Input) (time : Z)
    (roam_speed : Q) (st' : State) (r : string)
    (Hrange : -5 ≤ fst (direction st) ≤ 5 ∧ -5 ≤ snd (direction st) ≤ 5)
    (Hr : roam_unit st = Some r)
    (Hrun : motion get_mcost compare_teams st inp time roam_speed = Ok st') :
  (-5 ≤ fst (direction st') ≤ 5 ∧ -5 ≤ snd (direction st') ≤ 5) ∧
  (idle inp LEFT RIGHT → fst (direction st') = decay (fst (direction st))) ∧
  (idle inp UP DOWN → snd (direction st') = decay (snd (direction st))).
Proof.
  destruct (motion_direction _ _ _ _ _ Hrun) as [[_ Hnone]|(r' & u & pos & _ & _ & _ & Hd)];
    [congruence|].
  rewrite Hd. unfold heading. destruct (bounds st) as [[[b0 b1] b2] b3].
  cbn [fst snd]. destruct Hrange as [Hx Hy].
  split; [split; by apply steer_range|].
  split; intros Hidle; by apply steer_idle.
Qed.

(** The bounds a tick keeps the speed in. *)
Definition speed_bounded (roam_speed sp : Q) : Prop :=
  (- (1 # 100) <= sp)%Q ∧ (sp <= (15 # 100) * roam_speed + (1 # 100))%Q.

Lemma Qle_bool_false a b : Qle_bool a b = false → (b < a)%Q.
Proof.
  intros H. apply Qnot_le_lt. intros Hle. apply Qle_bool_iff in Hle. congruence.
Qed.

Lemma Qltb_false a b : Qltb a b = false → (b <= a)%Q.
Proof.
  unfold Qltb. rewrite negb_false_iff. apply Qle_bool_iff.
Qed.

(** X8. With a non-negative [_roam_speed], a tick of [take_input] keeps the
    speed between -0.01 and 0.15 * _roam_speed + 0.01: it is raised only
    while below the maximal speed, and lowered only while at least the base
    speed or above the maximal speed. *)
Theorem speed_stays_bounded (st : State) (inp : Input) (time : Z)
    (roam_speed : Q) (st' : State)
    (Hrs : (0 <= roam_speed)%Q)
    (Hbounded : speed_bounded roam_speed (speed st))
    (Hrun : motion get_mcost compare_teams st inp time roam_speed = Ok st') :
  speed_bounded roam_speed (speed st').
Proof.
  revert Hrun. unfold motion. destruct (roam_unit st) as [r|]; [|by intros [= <-]].
  destruct (units st !! r) as [u|]; [|done].
  destruct (position u) as [pos|]; [|done].
  destruct (bounds st) as [[[b0 b1] b2] b3].
  destruct (steer inp LEFT RIGHT _ _ _ _) as [dx sx].
  destruct (steer inp UP DOWN _ _ _ _) as [dy sy].
  intros [= <-]. cbn [speed with_self].
  destruct Hbounded as [Hlo Hhi]. unfold speed_bounded.
  set (sp := speed st) in *.
  assert (Hmax : ∀ m, m = ((15 # 100) * roam_speed)%Q ∨ m = ((1 # 10) * roam_speed)%Q →
            (0 <= m)%Q ∧ (m <= (15 # 100) * roam_speed)%Q).
  { intros m [->| ->]; split; lra. }
  set (max_speed := if is_pressed inp BACK then _ else _).
  destruct (Hmax max_speed) as [Hm0 Hm1].
  { unfold max_speed. destruct (is_pressed inp BACK); [by left | by right]. }
  clearbody max_speed. unfold running_accel, base_accel, base_speed.
  destruct (any_direction (just_pressed inp) || any_direction (is_pressed inp)).
  - destruct (Qltb sp max_speed) eqn:E1.
    + apply Qltb_lt in E1.
      destruct (is_pressed inp BACK); cbn [andb]; split; lra.
    + cbn [andb]. destruct (Qltb max_speed sp) eqn:E2; [|by split].
      apply Qltb_lt in E2. split; lra.
  - destruct (Qle_bool (8 # 1000) sp) eqn:E1; cbn [orb].
    + apply Qle_bool_iff in E1. split; lra.
    + destruct (Qltb max_speed sp) eqn:E2; [|by split].
      apply Qltb_lt in E2. split; lra.
Qed.
End Dynamics.

(** ** After the state has let go of the roam unit *)

Section Release.
Variable get_mcost : UnitObject → Tile → Z.
Variable compare_teams : string → string → bool.
Variable get_nearest_open_tile : State → string → Tile → Tile.
Variable trigger : State → TriggerCall → bool.

Lemma rationalize_releases st st' :
  rationalize get_nearest_open_tile st = Ok st' →
  roam_unit st' = None ∧ last_move st' = 0.
Proof.
  unfold rationalize. destruct (roam_unit st) as [r|]; [|done].
  destruct (units st !! r) as [u|]; [|done].
  destruct (position u) as [pos|]; [|done].
  destruct (rationalize_targets _ _ _) as [st2|]; [|done].
  by intros [= <-].
Qed.

Lemma relocate_self st rp st1 rp1 :
  relocate get_nearest_open_tile st rp = Ok (st1, rp1) →
  roam_unit st1 = roam_unit st ∧ last_move st1 = last_move st.
Proof.
  unfold relocate. destruct (unit_grid st !! rp); [|by intros [= <- <-]].
  destruct (roam_unit st) eqn:Hr; [|done]. by intros [= <- <-].
Qed.

(** An interrupting region met without a roam unit: both the relocation and
    the trigger call read [self.roam_unit.position]. *)
Lemma interrupt_without_roam_unit st rp region :
  roam_unit st = None →
  contains region rp = true → interrupt_move region = true →
  interrupt get_nearest_open_tile trigger st rp region = Raise AttributeError.
Proof.
  intros Hr Hin Hint. unfold interrupt, relocate. rewrite Hin, Hint, Hr. cbn [andb].
  destruct (unit_grid st !! rp); [done|]. by rewrite Hr.
Qed.

(** X9. Once the event of an interrupting region has fired, the state has
    let go of the roam unit ([rationalize] sets [roam_unit] to [None]), and
    the loop goes on: the next interrupting region that contains the
    position raises AttributeError, on [self.roam_unit.position]. *)
Theorem interrupt_after_event_raises (st st' : State) (tile tile' : Tile)
    (region next : Region)
    (Hin : contains region tile = true) (Hint : interrupt_move region = true)
    (Hfires : ∀ s c, trigger s c = true)
    (Hrun : interrupt get_nearest_open_tile trigger st tile region = Ok (st', tile'))
    (Hnext : contains next tile' = true) (Hnint : interrupt_move next = true) :
  roam_unit st' = None ∧
  interrupt get_nearest_open_tile trigger st' tile' next = Raise AttributeError.
Proof.
  assert (Hnone : roam_unit st' = None).
  { revert Hrun. unfold interrupt. rewrite Hin, Hint. cbn [andb].
    destruct (relocate _ st tile) as [[st1 rp1]|]; [|done].
    destruct (roam_unit st1) as [r|]; [|done]. rewrite Hfires.
    destruct (rationalize _ _) as [st2|] eqn:H2; [|done].
    apply rationalize_releases in H2 as [H2 _]. intros [= <- <-].
    by destruct (only_once region && true). }
  split; [exact Hnone|]. by apply interrupt_without_roam_unit.
Qed.

(** ** The idle reset of [update] *)

(** [MapState.update] and the AI handler's [update], which run first. *)
Variable map_state_update : State → State.
Variable ai_handler_update : State → State.

(** [update]: some time after the last move the sprite of the roam unit is
    put back to normal and the registered direction is cleared. [time] is
    [engine.get_time()]. *)
Definition update (st : State) (time : Z) : Res State :=
  let st := ai_handler_update (map_state_update st) in
  if negb (last_move st =? 0) && (166 <? time - last_move st) then
    match roam_unit st with
    | None => Raise AttributeError        (* self.roam_unit.sprite *)
    | Some r =>
      Ok (with_self st (Some r) 0 (speed st) (vspeed st) (hspeed st) (0, 0))
    end
  else Ok st.

(** A move is time-stamped only while there is a roam unit. *)
Definition stamped_with_unit (st : State) : Prop :=
  roam_unit st = None → last_move st = 0.

(** The other updates leave the state's own attributes alone. *)
Definition keeps_self (f : State → State) : Prop :=
  ∀ st, roam_unit (f st) = roam_unit st ∧ last_move (f st) = last_move st.

Lemma motion_stamped st inp time roam_speed st' :
  stamped_with_unit st →
  motion get_mcost compare_teams st inp time roam_speed = Ok st' →
  stamped_with_unit st'.
Proof.
  intros Hs. unfold motion. destruct (roam_unit st) as [r|] eqn:Hr.
  2:{ by intros [= <-]. }
  destruct (units st !! r) as [u|]; [|done].
  destruct (position u) as [pos|]; [|done].
  destruct (bounds st) as [[[b0 b1] b2] b3].
  destruct (steer inp LEFT RIGHT _ _ _ _) as [dx sx].
  destruct (steer inp UP DOWN _ _ _ _) as [dy sy].
  intros [= <-]. by intros Hnone.
Qed.

Lemma interrupt_stamped st rp region st' rp' :
  stamped_with_unit st →
  interrupt get_nearest_open_tile trigger st rp region = Ok (st', rp') →
  stamped_with_unit st'.
Proof.
  intros Hs. unfold interrupt.
  destruct (contains region rp && interrupt_move region); [|by intros [= <- <-]].
  destruct (relocate _ st rp) as [[st1 rp1]|] eqn:H1; [|done].
  apply relocate_self in H1 as [Hr1 Hl1].
  destruct (roam_unit st1) as [r|] eqn:Hr; [|done].
  destruct (trigger st1 _).
  - destruct (rationalize _ _) as [st2|] eqn:H2; [|done].
    apply rationalize_releases in H2 as [_ H2]. intros [= <- <-].
    intros _. by destruct (only_once region && true).
  - intros [= <- <-]. cbn [andb]. rewrite andb_false_r.
    intros Hnone. cbn in Hnone. congruence.
Qed.

(** X10. A move is time-stamped only while there is a roam unit: the
    property [roam_unit is None implies last_move == 0] is kept by the
    movement and by the region loop of [take_input], it holds after
    [rationalize], and [update] keeps it. Under it [update] never fails on
    [self.roam_unit.sprite]: it returns, and when more than 166 ms have
    passed since the last move it clears the time stamp and the registered
    direction. *)
Theorem update_finds_roam_unit (st : State) (time : Z)
    (Hmap : keeps_self map_state_update) (Hai : keeps_self ai_handler_update)
    (Hs : stamped_with_unit st) :
  (∃ st', update st time = Ok st' ∧ stamped_with_unit st' ∧
     (last_move st ≠ 0 → 166 < time - last_move st →
      last_move st' = 0 ∧ direction st' = (0, 0))) ∧
  (∀ inp now roam_speed st',
     motion get_mcost compare_teams st inp now roam_speed = Ok st' →
     stamped_with_unit st') ∧
  (∀ rp region st' rp',
     interrupt get_nearest_open_tile trigger st rp region = Ok (st', rp') →
     stamped_with_unit st') ∧
  (∀ st', rationalize get_nearest_open_tile st = Ok st' → stamped_with_unit st').
Proof.
  split; [|split; [|split]].
  - unfold update.
    destruct (Hmap st) as [Hr1 Hl1].
    destruct (Hai (map_state_update st)) as [Hr2 Hl2].
    set (st1 := ai_handler_update (map_state_update st)) in *.
    assert (Hs1 : stamped_with_unit st1).
    { unfold stamped_with_unit. rewrite Hr2, Hr1, Hl2, Hl1. exact Hs. }
    assert (Hl : last_move st1 = last_move st) by congruence.
    destruct (negb (last_move st1 =? 0) && (166 <? time - last_move st1)) eqn:E.
    + apply andb_true_iff in E as [E1 E2].
      apply negb_true_iff, Z.eqb_neq in E1.
      destruct (roam_unit st1) as [r|] eqn:Hr; [|by destruct E1; apply Hs1].
      eexists. split; [reflexivity|]. split; [by intros ?|]. by intros _ _.
    + exists st1. split; [done|]. split; [done|]. intros Hne Hlate. exfalso.
      apply andb_false_iff in E as [E|E].
      * apply negb_false_iff, Z.eqb_eq in E. congruence.
      * apply Z.ltb_ge in E. lia.
  - intros inp now rs st'. by apply motion_stamped.
  - intros rp region st' rp'. by apply interrupt_stamped.
  - intros st' [Hr Hl]%rationalize_releases. by intros _.
Qed.
End Release.

(** ** Talking *)

Section Talk.
(** [utils.calculate_distance] on two actual positions. *)
Variable calculate_distance : Coord → Coord → Q.

(** The test of the loop of [can_talk] for one unit of [game.units]: the
    unit is on the map, is not the roam unit, there is a roam unit, and the
    two are less than 1 apart. The conjunction is evaluated from the left,
    so the distance is only computed when the tests before it pass; a roam
    unit without a position makes the distance call fail. *)
Definition within_reach (st : State) (unit : string) : Res bool :=
  match units st !! unit with
  | None => Raise KeyError
  | Some u =>
    match position u with
    | None => Ok false
    | Some p =>
      match roam_unit st with
      | None => Ok false
      | Some r =>
        if String.eqb unit r then Ok false
        else
          match position_of st r with
          | None => Raise TypeError
          | Some rp => Ok (Qltb (calculate_distance rp p) 1)
          end
      end
    end
  end.

Fixpoint reachable (st : State) (game_units : list string) : Res (list string) :=
  match game_units with
  | [] => Ok []
  | unit :: rest =>
    match within_reach st unit with
    | Raise e => Raise e
    | Ok near =>
      match reachable st rest with
      | Raise e => Raise e
      | Ok units => Ok (if near then unit :: units else units)
      end
    end
  end.

(** The sort key of [can_talk]; it is only ever applied to units that passed
    the test above, for which both positions exist. *)
Definition talk_distance (st : State) (unit : string) : Q :=
  match roam_unit st with
  | Some r =>
    match position_of st r, position_of st unit with
    | Some rp, Some p => calculate_distance rp p
    | _, _ => 0%Q
    end
  | None => 0%Q
  end.

(** [sorted(units, key=key)] for a rational key; the sort is stable. *)
Fixpoint insert_near (key : string → Q) (p : string) (l : list string) : list string :=
  match l with
  | [] => [p]
  | q :: l' => if Qle_bool (key p) (key q) then p :: q :: l' else q :: insert_near key p l'
  end.

Definition sorted_near (key : string → Q) (l : list string) : list string :=
  foldr (insert_near key) [] l.

(** [can_talk]: the closest unit that is close enough to talk to, if any. *)
Definition can_talk (st : State) (game_units : list string) : Res (option string) :=
  match reachable st game_units with
  | Raise e => Raise e
  | Ok units => Ok (head (sorted_near (talk_distance st) units))
  end.

Lemma insert_near_head key p l :
  ∃ x, head (insert_near key p l) = Some x ∧ (x = p ∨ In x l) ∧
       (key x <= key p)%Q ∧ (∀ y, head l = Some y → (key x <= key y)%Q).
Proof.
  destruct l as [|q l]; cbn [insert_near].
  - exists p. split; [done|]. split; [by left|]. split; [apply Qle_refl | done].
  - destruct (Qle_bool (key p) (key q)) eqn:E.
    + exists p. split; [done|]. split; [by left|]. split; [apply Qle_refl|].
      intros y [= <-]. by apply Qle_bool_iff.
    + exists q. split; [done|]. split; [right; by left|]. split.
      * apply Qlt_le_weak, Qnot_le_lt. intros Hle. apply Qle_bool_iff in Hle. congruence.
      * intros y [= <-]. apply Qle_refl.
Qed.

Lemma sorted_near_head key l :
  match head (sorted_near key l) with
  | Some x => In x l ∧ ∀ y, In y l → (key x <= key y)%Q
  | None => l = []
  end.
Proof.
  induction l as [|p l IH]; [done|]. unfold sorted_near in *. cbn [foldr].
  destruct (insert_near_head key p (foldr (insert_near key) [] l))
    as (x & -> & Hx & Hxp & Hhead).
  destruct (head (foldr (insert_near key) [] l)) as [m|] eqn:Hm.
  - destruct IH as [Hin Hmin]. specialize (Hhead m eq_refl). split.
    + destruct Hx as [->|Hx]; [by left|]. right.
      assert (Hperm : ∀ l', In x (foldr (insert_near key) [] l') → In x l').
      { clear. induction l' as [|a l' IH]; [done|]. cbn [foldr].
        generalize (foldr (insert_near key) [] l') IH. clear IH.
        intros s IH Hs.
        assert (Hins : ∀ s', In x (insert_near key a s') → x = a ∨ In x s').
        { clear. induction s' as [|b s' IHs]; cbn [insert_near].
          - intros [<-|[]]. by left.
          - destruct (Qle_bool (key a) (key b)).
            + intros [<-|[<-|H]]; [by left | right; by left | right; by right].
            + intros [<-|H]; [right; by left|].
              destruct (IHs H) as [->|H']; [by left | right; by right]. }
        destruct (Hins s Hs) as [->|H]; [by left | right; by apply IH]. }
      by apply Hperm.
    + intros y [<-|Hy]; [done|]. eapply Qle_trans; [exact Hhead | by apply Hmin].
  - subst l. destruct Hx as [->|[]]. split; [by left|].
    intros y [<-|[]]. apply Qle_refl.
Qed.

Lemma reachable_spec st game_units units :
  reachable st game_units = Ok units →
  ∀ t, In t units ↔ In t game_units ∧ within_reach st t = Ok true.
Proof.
  revert units. induction game_units as [|unit rest IH]; intros units; cbn [reachable].
  - intros [= <-] t. split; [done | by intros [[] _]].
  - destruct (within_reach st unit) as [near|] eqn:Hnear; [|done].
    destruct (reachable st rest) as [tl|]; [|done]. intros [= <-] t.
    specialize (IH tl eq_refl t). destruct near; cbn [In]; rewrite ?IH; split.
    + intros [<-|[Ht Hr]]; [by split; [left|] | by split; [right|]].
    + intros [[<-|Ht] Hr]; [by left | by right].
    + intros [Ht Hr]. by split; [right|].
    + intros [[<-|Ht] Hr]; [congruence | done].
Qed.

Lemma within_reach_spec st t :
  within_reach st t = Ok true →
  ∃ r rp tp, roam_unit st = Some r ∧ t ≠ r ∧ position_of st r = Some rp ∧
    position_of st t = Some tp ∧ (calculate_distance rp tp < 1)%Q ∧
    talk_distance st t = calculate_distance rp tp.
Proof.
  unfold within_reach, talk_distance.
  destruct (units st !! t) as [u|] eqn:Hu; [|done].
  destruct (position u) as [p|] eqn:Hp; [|done].
  destruct (roam_unit st) as [r|]; [|done].
  destruct (String.eqb_spec t r) as [->|Hne]; [done|].
  assert (Ht : position_of st t = Some p).
  { unfold position_of. by rewrite Hu. }
  rewrite Ht. destruct (position_of st r) as [rp|] eqn:Hrp; [|done].
  intros [= Hd]. apply Qltb_lt in Hd. by exists r, rp, p.
Qed.

Lemma within_reach_complete st c r rp cp :
  roam_unit st = Some r → c ≠ r →
  position_of st r = Some rp → position_of st c = Some cp →
  within_reach st c = Ok (Qltb (calculate_distance rp cp) 1).
Proof.
  intros Hr Hne Hrp Hcp. unfold within_reach. unfold position_of in Hcp.
  destruct (units st !! c) as [u|]; [|done]. cbn in Hcp. rewrite Hcp, Hr, Hrp.
  by destruct (String.eqb_spec c r).
Qed.

(** X11. [can_talk] answers [None] when there is no roam unit. When it
    answers with a unit, that unit is one of [game.units] other than the roam
    unit, it is on the map less than 1 away from the roam unit, and no other
    unit of [game.units] on the map is closer. When it answers [None], every
    other unit on the map is at least 1 away. *)
Theorem can_talk_closest (st : State) (game_units : list string)
    (answer : option string)
    (Hrun : can_talk st game_units = Ok answer) :
  (roam_unit st = None → answer = None) ∧
  match answer with
  | Some t =>
    In t game_units ∧
    ∃ r rp tp, roam_unit st = Some r ∧ t ≠ r ∧
      position_of st r = Some rp ∧ position_of st t = Some tp ∧
      (calculate_distance rp tp < 1)%Q ∧
      ∀ c cp, In c game_units → c ≠ r → position_of st c = Some cp →
        (calculate_distance rp tp <= calculate_distance rp cp)%Q
  | None =>
    ∀ r rp c cp, roam_unit st = Some r → position_of st r = Some rp →
      In c game_units → c ≠ r → position_of st c = Some cp →
      (1 <= calculate_distance rp cp)%Q
  end.
Proof.
  revert Hrun. unfold can_talk.
  destruct (reachable st game_units) as [units|] eqn:Hunits; [|done].
  intros [= <-]. pose proof (reachable_spec _ _ _ Hunits) as Hspec.
  pose proof (sorted_near_head (talk_distance st) units) as Hhead.
  destruct (head _) as [t|].
  - destruct Hhead as [Hin Hmin]. apply Hspec in Hin as [Hin Hreach].
    destruct (within_reach_spec st t Hreach)
      as (r & rp & tp & Hr & Hne & Hrp & Htp & Hd & Hk).
    split; [congruence|]. split; [done|].
    exists r, rp, tp. repeat split; try done.
    intros c cp Hc Hcr Hcp.
    pose proof (within_reach_complete st c r rp cp Hr Hcr Hrp Hcp) as Hreach_c.
    destruct (Qltb (calculate_distance rp cp) 1) eqn:E.
    + destruct (within_reach_spec st c Hreach_c)
        as (r' & rp' & cp' & Hr' & _ & Hrp' & Hcp' & _ & Hkc).
      assert (r' = r) by congruence. subst r'.
      assert (rp' = rp) by congruence. subst rp'.
      assert (cp' = cp) by congruence. subst cp'.
      rewrite <-Hk, <-Hkc. apply Hmin. apply Hspec. by split.
    + apply Qltb_false in E. lra.
  - subst units. split; [done|]. intros r rp c cp Hr Hrp Hc Hcr Hcp.
    pose proof (within_reach_complete st c r rp cp Hr Hcr Hrp Hcp) as Hreach_c.
    destruct (Qltb (calculate_distance rp cp) 1) eqn:E.
    + exfalso. by apply (proj2 (Hspec c)).
    + by apply Qltb_false in E.
Qed.
End Talk.

(** ** Putting a unit back twice *)

Section Again.
Variable get_nearest_open_tile : State → string → Tile → Tile.

(** [unit.position = tile] on the unit object. *)
Definition standing_on (tile : Tile) (u : UnitObject) : UnitObject :=
  {| nid := nid u; team := team u; position := Some (of_tile tile) |}.

Lemma settle_eq st unit u tile :
  units st !! unit = Some u →
  arrive (set_position st unit (of_tile tile)) unit =
  with_game st (alter (standing_on tile) unit (units st))
    (<[tile := unit]> (unit_grid st)) (<[tile := team u]> (team_grid st))
    (fow_vantage_point st) (regions st) (triggered st).
Proof.
  intros Hu. unfold arrive.
  assert (Hl : units (set_position st unit (of_tile tile)) !! unit =
               Some (standing_on tile u)).
  { unfold set_position, with_game. cbn [units]. rewrite lookup_alter.
    case_decide; [by rewrite Hu | done]. }
  rewrite Hl. cbn [position standing_on team]. by rewrite as_tile_of_tile.
Qed.

Lemma settle_again st unit u tile :
  units st !! unit = Some u →
  let st' := arrive (set_position st unit (of_tile tile)) unit in
  arrive (set_position st' unit (of_tile tile)) unit = st'.
Proof.
  intros Hu. cbn zeta. rewrite (settle_eq st unit u tile Hu).
  rewrite (settle_eq _ unit (standing_on tile u) tile).
  2:{ unfold with_game. cbn [units]. rewrite lookup_alter.
      case_decide; [by rewrite Hu | done]. }
  unfold with_game. cbn [units unit_grid team_grid fow_vantage_point regions
    triggered bounds roam_unit last_move speed vspeed hspeed direction targets
    standing_on team].
  rewrite !insert_insert_eq. f_equal.
  apply map_eq. intros i. rewrite !lookup_alter.
  repeat case_decide; try done. subst i. by rewrite Hu.
Qed.

(** X12. [rationalize_unit] is idempotent: a unit that has been put on the
    grid is its own occupant, so putting it back once more leaves it where
    it is (the nearest open tile is not asked for again) and changes nothing
    in the state. *)
Theorem rationalize_unit_again (st st' : State) (unit : string)
    (Hrun : rationalize_unit get_nearest_open_tile st unit = Ok st') :
  rationalize_unit get_nearest_open_tile st' unit = Ok st' ∧
  ∃ tile, position_of st' unit = Some (of_tile tile) ∧
          unit_grid st' !! tile = Some unit.
Proof.
  revert Hrun. unfold rationalize_unit at 1.
  destruct (units st !! unit) as [u|] eqn:Hu; [|done].
  destruct (position u) as [pos|] eqn:Hpos; [|done].
  fold (target_tile get_nearest_open_tile st unit pos).
  set (tile := target_tile get_nearest_open_tile st unit pos). intros [= <-].
  destruct (settle_spec st unit u tile Hu) as (Hg & Hp & _).
  split; [|exists tile; split; [exact Hp | by rewrite Hg, lookup_insert_eq]].
  set (st' := arrive (set_position st unit (of_tile tile)) unit) in *.
  unfold position_of in Hp.
  destruct (units st' !! unit) as [u'|] eqn:Hu'; [|done]. cbn in Hp.
  rewrite (rationalize_unit_eq get_nearest_open_tile st' unit u' (of_tile tile) Hu' Hp).
  assert (Ht : target_tile get_nearest_open_tile st' unit (of_tile tile) = tile).
  { unfold target_tile. change (int (of_tile tile).1, int (of_tile tile).2)
      with (as_tile (of_tile tile)). rewrite as_tile_of_tile, Hg, lookup_insert_eq.
    by rewrite String.eqb_refl. }
  rewrite Ht. f_equal. exact (settle_again st unit u tile Hu).
Qed.
End Again.

(** ** The extra properties at the demo level *)

(** The state after one tick with RIGHT held. *)
Definition after_tick : State :=
  match motion wall_mcost same_team roaming (keys [RIGHT]) 0 1%Q with
  | Ok st' => st'
  | Raise _ => roaming
  end.

(** X7 at the demo level. *)
Lemma direction_stays_in_range_witness :
  -5 ≤ fst (direction after_tick) ≤ 5 ∧ -5 ≤ snd (direction after_tick) ≤ 5.
Proof.
  refine (proj1 (direction_stays_in_range wall_mcost same_team roaming (keys [RIGHT])
                   0 1%Q after_tick "Eirika" _ _ _)).
  - cbn. lia.
  - reflexivity.
  - vm_compute. reflexivity.
Defined.

(** X8 at the demo level. *)
Lemma speed_stays_bounded_witness : speed_bounded 1 (speed after_tick).
Proof.
  apply (speed_stays_bounded wall_mcost same_team roaming (keys [RIGHT]) 0 1%Q
           after_tick).
  - discriminate.
  - split; discriminate.
  - vm_compute. reflexivity.
Defined.

(** Releasing the keys at exactly the base speed leaves a small negative
    speed behind. *)
Example speed_below_zero :
  match motion wall_mcost same_team
          (with_self roaming (Some "Eirika") 0 (8 # 1000) 0 0 (0, 0)) (keys []) 0 1%Q with
  | Ok st' => (speed st' == - (2 # 1000))%Q
  | Raise _ => False
  end.
Proof. vm_compute. reflexivity. Qed.

(** A second interrupting region, on the tile Eirika is moved to. *)
Definition ford : Region :=
  {| region_nid := "Ford"; region_position := (3, 0); region_size := (1, 1);
     sub_nid := "FordEvent"; only_once := false; interrupt_move := true |}.

Definition after_gate : State :=
  match interrupt beyond_board always_fires at_gate (2, 1) gate with
  | Ok (st', _) => st'
  | Raise _ => at_gate
  end.

(** X9 at the demo level: the gate event has fired, and the ford raises. *)
Lemma interrupt_after_event_raises_witness :
  roam_unit after_gate = None ∧
  interrupt beyond_board always_fires after_gate (3, 0) ford = Raise AttributeError.
Proof.
  apply (interrupt_after_event_raises beyond_board always_fires at_gate after_gate
           (2, 1) (3, 0) gate ford).
  - reflexivity.
  - reflexivity.
  - intros s c. reflexivity.
  - vm_compute. reflexivity.
  - reflexivity.
  - reflexivity.
Defined.

(** Eirika, 190 ms after a move stamped at time 10. *)
Definition hurried : State :=
  with_self roaming (Some "Eirika") 10 (speed roaming) 0 0 (5, 0).

(** X10 at the demo level. *)
Lemma update_finds_roam_unit_witness :
  ∃ st', update (λ st, st) (λ st, st) hurried 200 = Ok st' ∧
         last_move st' = 0 ∧ direction st' = (0, 0).
Proof.
  destruct (update_finds_roam_unit wall_mcost same_team beyond_board always_fires
              (λ st, st) (λ st, st) hurried 200) as [(st' & Hrun & _ & Hreset) _].
  - intros st. split; reflexivity.
  - intros st. split; reflexivity.
  - intros Hnone. discriminate Hnone.
  - exists st'. split; [exact Hrun|]. apply Hreset.
    + discriminate.
    + reflexivity.
Defined.

Definition city_block (p q : Coord) : Q :=
  (Qabs (fst p - fst q) + Qabs (snd p - snd q))%Q.

(** X11 at the demo level: Seth, 0.6 away, is the one to talk to. *)
Lemma can_talk_closest_witness :
  can_talk city_block roaming ["Eirika"; "Seth"; "Bandit"] = Ok (Some "Seth") ∧
  ∃ r rp tp, roam_unit roaming = Some r ∧ "Seth" ≠ r ∧
    position_of roaming r = Some rp ∧ position_of roaming "Seth" = Some tp ∧
    (city_block rp tp < 1)%Q.
Proof.
  assert (Hrun : can_talk city_block roaming ["Eirika"; "Seth"; "Bandit"]
                 = Ok (Some "Seth")) by (vm_compute; reflexivity).
  split; [exact Hrun|].
  destruct (can_talk_closest city_block roaming ["Eirika"; "Seth"; "Bandit"]
              (Some "Seth") Hrun)
    as [_ (_ & r & rp & tp & Hr & Hne & Hrp & Htp & Hd & _)].
  exists r, rp, tp. repeat split; assumption.
Defined.

Definition seth_settled : State :=
  match rationalize_unit beyond_board roaming "Seth" with
  | Ok st' => st'
  | Raise _ => roaming
  end.

(** X12 at the demo level. *)
Lemma rationalize_unit_again_witness :
  rationalize_unit beyond_board seth_settled "Seth" = Ok seth_settled.
Proof.
  refine (proj1 (rationalize_unit_again beyond_board roaming seth_settled "Seth" _)).
  vm_compute. reflexivity.
Defined.

(** ** How far a tick moves the unit *)

Section Displacement.
Variable get_mcost : UnitObject → Tile → Z.
Variable compare_teams : string → string → bool.

Lemma axis_speed_cases st u pos low high d :
  axis_speed get_mcost compare_teams st u pos low high d = speed st ∨
  axis_speed get_mcost compare_teams st u pos low high d = (- speed st)%Q ∨
  axis_speed get_mcost compare_teams st u pos low high d = 0%Q.
Proof.
  unfold axis_speed. destruct (_ && _); [by left|].
  destruct (_ && _); [right; by left | right; by right].
Qed.

Lemma slow_axis st u pos low high d :
  (Qabs (speed st) <= base_speed)%Q →
  Qltb base_speed (Qabs (axis_speed get_mcost compare_teams st u pos low high d)) = false.
Proof.
  intros Hslow. destruct (Qltb _ _) eqn:E; [|done]. apply Qltb_lt in E. exfalso.
  destruct (axis_speed_cases st u pos low high d) as [H|[H|H]]; rewrite H in E.
  - by apply Qlt_not_le in E.
  - rewrite Qabs_opp in E. by apply Qlt_not_le in E.
  - by vm_compute in E.
Qed.

(** X25. In a tick of [take_input] each of the two velocities is the speed,
    its opposite or zero, the unit either stays where it is or is displaced
    by exactly the two velocities, and it stays where it is whenever the
    speed is at most the base speed of 0.008: a unit at rest first gathers
    speed before it moves. *)
Theorem tick_displacement (st : State) (inp : Input) (time : Z) (roam_speed : Q)
    (r : string) (u : UnitObject) (pos : Coord)
    (Hr : roam_unit st = Some r) (Hu : units st !! r = Some u)
    (Hpos : position u = Some pos) :
  ∃ st' pos',
    motion get_mcost compare_teams st inp time roam_speed = Ok st' ∧
    position_of st' r = Some pos' ∧
    (hspeed st' = speed st ∨ hspeed st' = (- speed st)%Q ∨ hspeed st' = 0%Q) ∧
    (vspeed st' = speed st ∨ vspeed st' = (- speed st)%Q ∨ vspeed st' = 0%Q) ∧
    (pos' = pos ∨ pos' = ((fst pos + hspeed st')%Q, (snd pos + vspeed st')%Q)) ∧
    ((Qabs (speed st) <= base_speed)%Q → pos' = pos).
Proof.
  destruct (motion_spec get_mcost compare_teams st inp time roam_speed r u pos
              Hr Hu Hpos) as (st' & Hrun & Hd & Hhs & Hvs & Hp).
  eexists st', _. split; [exact Hrun|]. split; [exact Hp|].
  rewrite Hhs, Hvs. split; [apply axis_speed_cases|]. split; [apply axis_speed_cases|].
  split.
  - destruct (moves _ _); [by right | by left].
  - intros Hslow. unfold moves. by rewrite !slow_axis.
Qed.
End Displacement.

(** X25 at the demo level, for a unit that has not gathered speed yet. *)
Lemma tick_displacement_witness :
  ∃ st',
    motion wall_mcost same_team
      (with_self roaming (Some "Eirika") 0 0 0 0 (0, 0)) (keys [LEFT]) 0 1%Q = Ok st' ∧
    position_of st' "Eirika" = Some (26 # 10, 1%Q).
Proof.
  destruct (tick_displacement wall_mcost same_team
              (with_self roaming (Some "Eirika") 0 0 0 0 (0, 0)) (keys [LEFT]) 0 1%Q
              "Eirika" eirika (26 # 10, 1%Q) eq_refl eq_refl eq_refl)
    as (st' & pos' & Hrun & Hp & _ & _ & _ & Hslow).
  exists st'. split; [exact Hrun|]. rewrite Hp. f_equal. apply Hslow. discriminate.
Defined.

End Roam.

(* ===================================================================== *)
(** * The event command grammar (app/events/event_commands.py)            *)
(* ===================================================================== *)

(** The parser and the renderer are not among the sources at hand; the
    editor (event_properties.py) only calls them. They are modelled here
    from the specification of the Parser (§4.1), of the Command Catalog
    (§4.3) and of the Command (§3). *)

Module EventCommands.


(** ** Tokens *)

(** Brace depth after a character: an opening brace goes one level down, a
    closing brace one level up when there is a level to leave (this is how
    the editor's own brace scanner counts, event_properties.py l.128-138). *)
Definition depth_after (depth : nat) (c : Ascii.ascii) : nat :=
  if Ascii.eqb c "{"%char then S depth
  else if Ascii.eqb c "}"%char then Nat.pred depth
  else depth.

(** Modelled from the spec: the splitting of a line "on an unescaped
    command-argument delimiter (semicolon), treating content inside matched
    brace pairs as a single opaque token" (§4.1), which stands in for
    [get_command_arguments] of event_commands.py. *)
Fixpoint split_line (depth : nat) (s : string) : list string :=
  match s with
  | EmptyString => [EmptyString]
  | String c s' =>
    if Ascii.eqb c ";"%char && Nat.eqb depth 0 then EmptyString :: split_line 0 s'
    else
      match split_line (depth_after depth c) s' with
      | t :: ts => String c t :: ts
      | [] => [String c EmptyString]
      end
  end.

(** ** The catalog *)

(** Modelled from the spec: a Command definition of the catalog (§3, §4.3):
    name, alias, required and optional keywords, the validator kind of each
    keyword, and the flags. *)
Record CommandDef := {
  nid : string;
  nickname : option string;
  keywords : list string;
  optional_keywords : list string;
  keyword_types : list string;
  flags : list string }.

Definition all_keywords (d : CommandDef) : list string :=
  keywords d ++ optional_keywords d.

(** Modelled from the spec: a parsed Command (§3) — the definition it
    instantiates, [values] (keyword to supplied argument, in the order the
    keywords were supplied) and [active_flags] — or the Comment
    pseudo-command holding its line. *)
Inductive Command : Type :=
| Cmd (def : CommandDef) (values : list (string * string)) (active_flags : list string)
| Comment (text : string).

(** Modelled from the spec: "looks up the Command Catalog entry by exact
    name or by a registered alias/nickname" (§4.1). *)
Definition names (d : CommandDef) (tok : string) : bool :=
  String.eqb (nid d) tok ||
  match nickname d with Some n => String.eqb n tok | None => false end.

(** Modelled from the spec: the catalog lookup of §4.1 over the whole
    catalog, first match first; it stands in for [determine_command_type]. *)
Definition determine_command_type (catalog : list CommandDef) (tok : string)
    : option CommandDef :=
  find (λ d, names d tok) catalog.

(** Modelled from the spec: the helper that maps "a keyword name to its
    positional index (keywords before optional_keywords, concatenated)"
    (§4.3). *)
Fixpoint index_of (k : string) (l : list string) : option nat :=
  match l with
  | [] => None
  | k' :: l' => if String.eqb k' k then Some O else S <$> index_of k l'
  end.

(** Modelled from the spec: [get_index_from_keyword], the positional index
    of §4.3; [None] for a name that is not a keyword of the command. *)
Definition get_index_from_keyword (d : CommandDef) (keyword : string) : option nat :=
  index_of keyword (all_keywords d).

(** Modelled from the spec: the helper that fetches "the validator kind for
    a keyword" (§4.3). *)
Definition get_validator_from_keyword (d : CommandDef) (keyword : string)
    : option string :=
  i ← get_index_from_keyword d keyword; keyword_types d !! i.

(** ** Parsing the arguments *)

Definition has_key (k : string) (values : list (string * string)) : bool :=
  existsb (λ kv, String.eqb (fst kv) k) values.

Definition is_flag (d : CommandDef) (tok : string) : bool :=
  existsb (String.eqb tok) (flags d).

Definition is_keyword (d : CommandDef) (k : string) : bool :=
  existsb (String.eqb k) (all_keywords d).

(** [tok] cut at its first [=]. *)
Fixpoint cut_at_equals (tok : string) : option (string * string) :=
  match tok with
  | EmptyString => None
  | String c s =>
    if Ascii.eqb c "="%char then Some (EmptyString, s)
    else '(k, v) ← cut_at_equals s; Some (String c k, v)
  end.

(** Modelled from the spec: "tokens of the form key=value may target a
    specific keyword out of order" (§4.1). *)
Definition key_value (d : CommandDef) (tok : string) : option (string * string) :=
  match cut_at_equals tok with
  | Some (k, v) => if is_keyword d k then Some (k, v) else None
  | None => None
  end.

(** Modelled from the spec: the positional slot the next plain token goes
    to (§4.1), the first keyword in positional order that has no value yet. *)
Definition next_slot (d : CommandDef) (values : list (string * string))
    : option string :=
  find (λ k, negb (has_key k values)) (all_keywords d).

(** Modelled from the spec: [active_flags] is a set (§3); a flag given twice
    is kept once. *)
Definition add_flag (f : string) (fs : list string) : list string :=
  if existsb (String.eqb f) fs then fs else fs ++ [f].

(** Modelled from the spec: "Subsequent tokens are assigned positionally to
    keywords then optional_keywords; tokens of the form key=value may target
    a specific keyword out of order ... a positional token count exceeding
    declared keywords+optional_keywords is not an error — surplus is treated
    as flags or ignored depending on catalog declaration" (§4.1). A keyword
    keeps the first value it is given. *)
Fixpoint assign (d : CommandDef) (toks : list string)
    (values : list (string * string)) (fs : list string)
    : list (string * string) * list string :=
  match toks with
  | [] => (values, fs)
  | tok :: rest =>
    match key_value d tok with
    | Some (k, v) =>
      if has_key k values then assign d rest values fs
      else assign d rest (values ++ [(k, v)]) fs
    | None =>
      match next_slot d values with
      | Some k => assign d rest (values ++ [(k, tok)]) fs
      | None =>
        if is_flag d tok then assign d rest values (add_flag tok fs)
        else assign d rest values fs
      end
    end
  end.

(** Modelled from the spec: "Trailing tokens matching a declared flag name
    (case-sensitive) are placed into active_flags rather than positional
    slots" (§4.1): the tokens are cut before their longest suffix of
    declared flags. *)
Fixpoint cut_trailing_flags (d : CommandDef) (toks : list string)
    : list string * list string :=
  match toks with
  | [] => ([], [])
  | tok :: rest =>
    let '(body, trailing) := cut_trailing_flags d rest in
    match body with
    | [] => if is_flag d tok then ([], tok :: trailing) else ([tok], trailing)
    | _ :: _ => (tok :: body, trailing)
    end
  end.

(** Modelled from the spec: the arguments of a line (§4.1), trailing flags
    set apart first, then the other tokens assigned in order. *)
Definition parse_arguments (d : CommandDef) (args : list string)
    : list (string * string) * list string :=
  let '(body, trailing) := cut_trailing_flags d args in
  let '(values, fs) := assign d body [] [] in
  (values, foldl (λ fs f, add_flag f fs) fs trailing).

(** Modelled from the spec: "every required keyword must be present in
    values, else parse fails" (§3), with the "error_location pointing at the
    argument index expected to hold it" (§4.1). *)
Fixpoint first_missing (i : nat) (required : list string)
    (values : list (string * string)) : option nat :=
  match required with
  | [] => None
  | k :: rest =>
    if has_key k values then first_missing (S i) rest values else Some i
  end.

Definition starts_with_hash (text : string) : bool :=
  match text with
  | String c _ => Ascii.eqb c "#"%char
  | EmptyString => false
  end.

(** Modelled from the spec: [parse_line(text, strict) -> (Command|None,
    error_location|None)] (§4.1), which stands in for
    [parse_text_to_command] of event_commands.py. *)
Definition parse_text_to_command (catalog : list CommandDef) (text : string)
    (strict : bool) : option Command * option nat :=
  match split_line 0 text with
  | [] => (None, Some O)
  | name :: args =>
    match determine_command_type catalog name with
    | None =>
      if strict then (None, Some O)
      else if starts_with_hash text then (Some (Comment text), None)
      else (None, None)
    | Some d =>
      let '(values, fs) := parse_arguments d args in
      match first_missing 0 (keywords d) values with
      | Some i => (None, Some i)
      | None => (Some (Cmd d values fs), None)
      end
    end
  end.

(** ** Rendering *)

(** Modelled from the spec: one supplied argument as a [key=value] token,
    the form of §4.1 that names its keyword. *)
Definition render_value (kv : string * string) : string :=
  (fst kv ++ "=" ++ snd kv)%string.

(** Modelled from the spec: the "plain-text round-trip renderer that
    reconstructs a line of source text from a populated Command" (§4.3),
    which stands in for [EventCommand.to_plain_text]: the name, the supplied
    arguments each under its keyword, then the active flags. *)
Definition to_plain_text (c : Command) : string :=
  match c with
  | Cmd d values fs =>
    String.concat ";" (nid d :: map render_value values ++ fs)
  | Comment text => text
  end.

(** ** A small catalog for the examples *)

Definition speak : CommandDef :=
  {| nid := "speak"; nickname := Some "s";
     keywords := ["Speaker"; "Text"];
     optional_keywords := ["TextPosition"; "Width"];
     keyword_types := ["Speaker"; "Text"; "TextPosition"; "Width"];
     flags := ["low_priority"; "hold"] |}.

Definition wait : CommandDef :=
  {| nid := "wait"; nickname := None;
     keywords := ["Time"]; optional_keywords := []; keyword_types := ["Time"];
     flags := [] |}.

Definition demo_catalog : list CommandDef := [speak; wait].

Example parse_speak :
  parse_text_to_command demo_catalog "s;Eirika;Hello {e:x;y}; there;Width=10;hold" true
  = (Some (Cmd speak [("Speaker", "Eirika"); ("Text", "Hello {e:x;y}");
                      ("TextPosition", " there"); ("Width", "10")] ["hold"]),
     None).
Proof. reflexivity. Qed.

Example render_speak :
  to_plain_text (Cmd speak [("Speaker", "Eirika"); ("Text", "Hello {e:x;y}")] ["hold"])
  = "speak;Speaker=Eirika;Text=Hello {e:x;y};hold"%string.
Proof. reflexivity. Qed.

Example parse_missing_keyword :
  parse_text_to_command demo_catalog "speak;Eirika" true = (None, Some 1%nat).
Proof. reflexivity. Qed.

Example parse_unknown_strict :
  parse_text_to_command demo_catalog "shout;Eirika" true = (None, Some 0%nat).
Proof. reflexivity. Qed.

Example parse_comment :
  parse_text_to_command demo_catalog "# a note; with a semicolon" false
  = (Some (Comment "# a note; with a semicolon"), None).
Proof. reflexivity. Qed.

(** ** Scanning a token *)

Local Open Scope list_scope.

(** The brace depth at the end of [s], scanned from [depth]; [None] when a
    semicolon is met outside braces. *)
Fixpoint scan (depth : nat) (s : string) : option nat :=
  match s with
  | EmptyString => Some depth
  | String c s' =>
    if Ascii.eqb c ";"%char && Nat.eqb depth 0 then None
    else scan (depth_after depth c) s'
  end.

(** A token that can be followed by a delimiter, and one that can only end
    the line. *)
Definition closed (t : string) : Prop := scan 0 t = Some O.
Definition semi (t : string) : Prop := is_Some (scan 0 t).

(** Tokens that a line splits into: every token but the last is closed. *)
Fixpoint wf_toks (l : list string) : Prop :=
  match l with
  | [] => True
  | [t] => semi t
  | t :: rest => closed t ∧ wf_toks rest
  end.

Lemma closed_semi t : closed t → semi t.
Proof. unfold closed, semi. intros ->. by eexists. Qed.

Lemma Forall_closed_wf_toks l : Forall closed l → wf_toks l.
Proof.
  induction 1 as [|t l Ht Hl IH]; [done|]. destruct l; [by apply closed_semi|].
  by split.
Qed.

Lemma wf_toks_snoc l t : Forall closed l → semi t → wf_toks (l ++ [t]).
Proof.
  induction 1 as [|x l Hx Hl IH]; intros Ht; [done|].
  specialize (IH Ht). cbn [app]. destruct (l ++ [t]) eqn:E; [by destruct l|].
  by split.
Qed.

Lemma wf_toks_app l1 l2 : Forall closed l1 → wf_toks l2 → wf_toks (l1 ++ l2).
Proof.
  induction 1 as [|x l Hx Hl IH]; intros H2; [done|].
  specialize (IH H2). cbn [app]. destruct (l ++ l2) eqn:E; [|by split].
  by apply closed_semi.
Qed.

Lemma split_line_whole d t : is_Some (scan d t) → split_line d t = [t].
Proof.
  revert d. induction t as [|c t IH]; intros d; [done|]. cbn [scan split_line].
  destruct (Ascii.eqb c ";" && Nat.eqb d 0); [by intros [? [=]]|].
  intros H. by rewrite (IH _ H).
Qed.

Lemma append_cons c (t s : string) :
  (String c t ++ s)%string = String c (t ++ s)%string.
Proof. reflexivity. Qed.

Lemma append_nil (s : string) : (EmptyString ++ s)%string = s.
Proof. reflexivity. Qed.

Lemma split_line_cons d t rest :
  scan d t = Some O →
  split_line d (t ++ String ";" rest) = t :: split_line 0 rest.
Proof.
  revert d. induction t as [|c t IH]; intros d;
    rewrite ?append_cons, ?append_nil; cbn [scan split_line].
  - intros [= ->]. done.
  - destruct (Ascii.eqb c ";" && Nat.eqb d 0); [done|].
    intros H. by rewrite (IH _ H).
Qed.

Lemma split_line_concat l :
  l ≠ [] → wf_toks l → split_line 0 (String.concat ";" l) = l.
Proof.
  induction l as [|t l IH]; [done|]. intros _ Hwf.
  destruct l as [|t2 l].
  - by apply split_line_whole.
  - destruct Hwf as [Ht Hwf].
    change (String.concat ";" (t :: t2 :: l))
      with (t ++ String ";" (String.concat ";" (t2 :: l)))%string.
    rewrite split_line_cons by done. by rewrite IH.
Qed.

(** What [split_line] gives is well formed. *)
Lemma split_line_wf d s :
  match split_line d s with
  | [] => False
  | [t] => is_Some (scan d t)
  | t :: rest => scan d t = Some O ∧ wf_toks rest
  end.
Proof.
  revert d. induction s as [|c s IH]; intros d; cbn [split_line]; [by eexists|].
  destruct (Ascii.eqb c ";" && Nat.eqb d 0) eqn:E.
  - apply andb_true_iff in E as [_ ->%Nat.eqb_eq]. specialize (IH O).
    destruct (split_line 0 s) as [|t [|t2 ts]]; [done| |]; split; try done.
  - specialize (IH (depth_after d c)).
    destruct (split_line (depth_after d c) s) as [|t [|t2 ts]]; [done| |];
      cbn [scan]; by rewrite E.
Qed.

Lemma split_line_args name args text :
  split_line 0 text = name :: args → wf_toks args.
Proof.
  intros H. pose proof (split_line_wf 0 text) as Hwf. rewrite H in Hwf.
  destruct args; [done|]. by destruct Hwf.
Qed.

(** ** Plain names *)

(** A name without delimiter, brace or equals sign. *)
Fixpoint plain (s : string) : bool :=
  match s with
  | EmptyString => true
  | String c s' =>
    negb (Ascii.eqb c ";"%char) && negb (Ascii.eqb c "{"%char) &&
    negb (Ascii.eqb c "}"%char) && negb (Ascii.eqb c "="%char) && plain s'
  end.

Lemma plain_cons c s :
  plain (String c s) = true →
  Ascii.eqb c ";"%char = false ∧ Ascii.eqb c "{"%char = false ∧
  Ascii.eqb c "}"%char = false ∧ Ascii.eqb c "="%char = false ∧ plain s = true.
Proof.
  cbn [plain]. rewrite !andb_true_iff, !negb_true_iff. tauto.
Qed.

Lemma scan_plain_app d k v : plain k = true → scan d (k ++ v)%string = scan d v.
Proof.
  revert d. induction k as [|c k IH]; intros d; [done|].
  rewrite append_cons. cbn [scan].
  intros (H1 & H2 & H3 & H4 & Hk)%plain_cons. unfold depth_after.
  rewrite H1, H2, H3. cbn [andb]. by apply IH.
Qed.

Lemma scan_render_value d k v :
  plain k = true → scan d (render_value (k, v)) = scan d v.
Proof.
  intros Hk. unfold render_value. cbn [fst snd]. rewrite scan_plain_app by done.
  done.
Qed.

Lemma scan_plain d k : plain k = true → scan d k = Some d.
Proof.
  revert d. induction k as [|c k IH]; intros d; [done|]. cbn [scan].
  intros (H1 & H2 & H3 & H4 & Hk)%plain_cons. unfold depth_after.
  rewrite H1, H2, H3. cbn [andb]. by apply IH.
Qed.

Lemma plain_closed k : plain k = true → closed k.
Proof. apply scan_plain. Qed.

Lemma cut_at_equals_render k v :
  plain k = true → cut_at_equals (render_value (k, v)) = Some (k, v).
Proof.
  unfold render_value. cbn [fst snd]. induction k as [|c k IH]; [done|].
  rewrite append_cons. cbn [cut_at_equals].
  intros (H1 & H2 & H3 & H4 & Hk)%plain_cons. rewrite H4, (IH Hk). done.
Qed.

Lemma cut_at_equals_inv tok k v :
  cut_at_equals tok = Some (k, v) → tok = render_value (k, v).
Proof.
  revert k. induction tok as [|c tok IH]; intros k; [done|]. cbn [cut_at_equals].
  destruct (Ascii.eqb_spec c "="%char) as [->|Hc].
  - by intros [= <- <-].
  - destruct (cut_at_equals tok) as [[k' v']|]; [|done]. cbn.
    intros [= <- <-]. unfold render_value in *. cbn [fst snd] in *.
    by rewrite append_cons, <-(IH k' eq_refl).
Qed.

Lemma plain_has_equals k v : plain (render_value (k, v)) = false.
Proof.
  change (plain (k ++ String "=" v)%string = false).
  induction k as [|c k IH]; [reflexivity|].
  rewrite append_cons. cbn [plain]. rewrite IH. apply andb_false_r.
Qed.

(** ** Well-formed catalogs *)

(** The names of a definition are plain, and a definition is found again
    under its own name. *)
Definition def_wf (d : CommandDef) : Prop :=
  plain (nid d) = true ∧
  Forall (λ k, plain k = true) (all_keywords d) ∧
  Forall (λ f, plain f = true) (flags d).

Definition catalog_wf (catalog : list CommandDef) : Prop :=
  ∀ d, In d catalog → def_wf d ∧ determine_command_type catalog (nid d) = Some d.

Lemma existsb_eqb_In (x : string) l : existsb (String.eqb x) l = true ↔ In x l.
Proof.
  rewrite existsb_exists. split.
  - intros (y & Hy & ->%String.eqb_eq). done.
  - intros Hx. exists x. split; [done | apply String.eqb_refl].
Qed.

Lemma is_keyword_plain d k : def_wf d → is_keyword d k = true → plain k = true.
Proof.
  intros (_ & Hk & _) Hin%existsb_eqb_In. rewrite Forall_forall in Hk.
  by apply Hk, list_elem_of_In.
Qed.

Lemma is_flag_plain d f : def_wf d → is_flag d f = true → plain f = true.
Proof.
  intros (_ & _ & Hf) Hin%existsb_eqb_In. rewrite Forall_forall in Hf.
  by apply Hf, list_elem_of_In.
Qed.

Lemma key_value_inv d tok k v :
  key_value d tok = Some (k, v) → is_keyword d k = true ∧ tok = render_value (k, v).
Proof.
  unfold key_value. destruct (cut_at_equals tok) as [[k' v']|] eqn:Hc; [|done].
  destruct (is_keyword d k') eqn:Hk; [|done]. intros [= <- <-].
  split; [done | by apply cut_at_equals_inv].
Qed.

Lemma key_value_render d k v :
  def_wf d → is_keyword d k = true → key_value d (render_value (k, v)) = Some (k, v).
Proof.
  intros Hd Hk. unfold key_value.
  rewrite cut_at_equals_render by (by eapply is_keyword_plain). by rewrite Hk.
Qed.

Lemma key_value_scan d tok k v :
  def_wf d → key_value d tok = Some (k, v) → scan 0 v = scan 0 tok.
Proof.
  intros Hd [Hk ->]%key_value_inv. symmetry. apply scan_render_value.
  by eapply is_keyword_plain.
Qed.

Lemma has_key_false k (values : list (string * string)) :
  has_key k values = false ↔ ¬ In k (map fst values).
Proof.
  unfold has_key. rewrite <-not_true_iff_false, existsb_exists, in_map_iff.
  split.
  - intros Hn (kv & Hk & Hin). apply Hn. exists kv. split; [done|].
    rewrite Hk. apply String.eqb_refl.
  - intros Hn (kv & Hin & Heq%String.eqb_eq). apply Hn. by exists kv.
Qed.

Lemma next_slot_Some d values k :
  next_slot d values = Some k → is_keyword d k = true ∧ has_key k values = false.
Proof.
  unfold next_slot. intros [Hin Hk]%find_some. apply negb_true_iff in Hk.
  split; [by apply existsb_eqb_In | done].
Qed.

Lemma next_slot_None d values k :
  next_slot d values = None → is_keyword d k = true → has_key k values = true.
Proof.
  unfold next_slot. intros Hn Hk%existsb_eqb_In.
  apply (find_none _ _ Hn) in Hk. by apply negb_false_iff in Hk.
Qed.

(** ** One token at a time *)

(** The effect of one argument token on the values and flags gathered so
    far, as in [assign]. *)
Definition step (d : CommandDef) (tok : string)
    (st : list (string * string) * list string)
    : list (string * string) * list string :=
  let '(values, fs) := st in
  match key_value d tok with
  | Some (k, v) => if has_key k values then (values, fs) else (values ++ [(k, v)], fs)
  | None =>
    match next_slot d values with
    | Some k => (values ++ [(k, tok)], fs)
    | None => if is_flag d tok then (values, add_flag tok fs) else (values, fs)
    end
  end.

Lemma assign_cons d tok rest values fs :
  assign d (tok :: rest) values fs =
  assign d rest (fst (step d tok (values, fs))) (snd (step d tok (values, fs))).
Proof.
  cbn [assign step]. destruct (key_value d tok) as [[k v]|].
  - by destruct (has_key k values).
  - destruct (next_slot d values); [done|]. by destruct (is_flag d tok).
Qed.

(** What holds of the values and flags gathered at any point. *)
Record gathered (d : CommandDef) (values : list (string * string))
    (fs : list string) : Prop := {
  keys_nodup : NoDup (map fst values);
  keys_declared : Forall (λ kv, is_keyword d (fst kv) = true) values;
  flags_nodup : NoDup fs;
  flags_declared : Forall (λ f, is_flag d f = true) fs;
  flags_after_slots : fs ≠ [] → next_slot d values = None }.

Lemma gathered_nil d : gathered d [] [].
Proof. split; try constructor; done. Qed.

Lemma add_flag_spec f fs :
  NoDup fs → NoDup (add_flag f fs) ∧ (∀ x, In x (add_flag f fs) ↔ In x fs ∨ x = f).
Proof.
  intros Hfs. unfold add_flag. destruct (existsb (String.eqb f) fs) eqn:E.
  - apply existsb_eqb_In in E. split; [done|]. intros x. split; [tauto|].
    intros [?| ->]; done.
  - split.
    + apply NoDup_app. split; [done|]. split; [|apply NoDup_singleton].
      intros x Hx ->%list_elem_of_singleton.
      apply list_elem_of_In, existsb_eqb_In in Hx. congruence.
    + intros x. rewrite in_app_iff. cbn. split; [intros [?|[?|[]]]|intros [?|?]]; auto.
Qed.

Lemma gathered_snoc d values fs k v :
  gathered d values fs → is_keyword d k = true → has_key k values = false →
  gathered d (values ++ [(k, v)]) fs ∧ fs = [].
Proof.
  intros [H1 H2 H3 H4 H5] Hk Hn.
  assert (Hfs : fs = []).
  { destruct fs as [|f fs]; [done|].
    rewrite (next_slot_None d values k) in Hn; [done | by apply H5 | done]. }
  split; [|done]. subst. split; try done.
  - rewrite map_app. apply NoDup_app. split; [done|]. split; [|apply NoDup_singleton].
    intros x Hx ->%list_elem_of_singleton. apply has_key_false in Hn.
    by apply Hn, list_elem_of_In.
  - apply Forall_app. split; [done|]. by constructor.
Qed.

Lemma step_gathered d tok values fs :
  gathered d values fs →
  gathered d (fst (step d tok (values, fs))) (snd (step d tok (values, fs))).
Proof.
  intros Hg. cbn [step]. destruct (key_value d tok) as [[k v]|] eqn:Hkv.
  - destruct (has_key k values) eqn:Hk; [done|]. cbn [fst snd].
    apply key_value_inv in Hkv as [Hkw _].
    by apply (gathered_snoc d values fs k v Hg Hkw Hk).
  - destruct (next_slot d values) as [k|] eqn:Hs; cbn [fst snd].
    + apply next_slot_Some in Hs as [Hkw Hk].
      by apply (gathered_snoc d values fs k tok Hg Hkw Hk).
    + destruct (is_flag d tok) eqn:Hf; [|done]. cbn [fst snd].
      destruct Hg as [H1 H2 H3 H4 H5].
      destruct (add_flag_spec tok fs H3) as [Hnd Hin].
      split; try done.
      apply Forall_forall. intros x Hx%list_elem_of_In%Hin.
      destruct Hx as [Hx| ->]; [|done].
      eapply Forall_forall in H4; [done | by apply list_elem_of_In].
Qed.

(** A token in the middle of the line leaves closed values closed. *)
Lemma step_closed d tok values fs :
  def_wf d → closed tok → Forall closed (map snd values) →
  Forall closed (map snd (fst (step d tok (values, fs)))).
Proof.
  intros Hd Ht Hv. cbn [step]. destruct (key_value d tok) as [[k v]|] eqn:Hkv.
  - destruct (has_key k values); [done|]. cbn [fst]. rewrite map_app.
    apply Forall_app. split; [done|]. constructor; [|done]. cbn [snd].
    unfold closed. by rewrite (key_value_scan d tok k v).
  - destruct (next_slot d values); cbn [fst].
    + rewrite map_app. apply Forall_app. split; [done|]. by constructor.
    + by destruct (is_flag d tok).
Qed.

(** The shape the rendered arguments need: with flags to follow every value
    is closed, without them every value but the last. *)
Definition renderable (values : list (string * string)) (fs : list string) : Prop :=
  match fs with
  | [] => wf_toks (map snd values)
  | _ :: _ => Forall closed (map snd values)
  end.

Lemma closed_renderable values fs :
  Forall closed (map snd values) → renderable values fs.
Proof. intros H. destruct fs; [by apply Forall_closed_wf_toks | done]. Qed.

(** The last token of the line. *)
Lemma step_last d tok values fs :
  def_wf d → gathered d values fs → semi tok → Forall closed (map snd values) →
  renderable (fst (step d tok (values, fs))) (snd (step d tok (values, fs))).
Proof.
  intros Hd Hg Ht Hv. cbn [step]. destruct (key_value d tok) as [[k v]|] eqn:Hkv.
  - destruct (has_key k values) eqn:Hk; [by apply closed_renderable|]. cbn [fst snd].
    pose proof Hkv as [Hkw _]%key_value_inv.
    destruct (gathered_snoc d values fs k v Hg Hkw Hk) as [_ ->].
    cbn [renderable]. rewrite map_app. apply wf_toks_snoc; [done|].
    cbn [snd]. unfold semi. by rewrite (key_value_scan d tok k v).
  - destruct (next_slot d values) as [k|] eqn:Hs; cbn [fst snd].
    + apply next_slot_Some in Hs as [Hkw Hk].
      destruct (gathered_snoc d values fs k tok Hg Hkw Hk) as [_ ->].
      cbn [renderable]. rewrite map_app. by apply wf_toks_snoc.
    + destruct (is_flag d tok); by apply closed_renderable.
Qed.

Lemma assign_spec d toks values fs :
  def_wf d → gathered d values fs → wf_toks toks → Forall closed (map snd values) →
  gathered d (fst (assign d toks values fs)) (snd (assign d toks values fs)) ∧
  renderable (fst (assign d toks values fs)) (snd (assign d toks values fs)) ∧
  (Forall closed toks →
   Forall closed (map snd (fst (assign d toks values fs)))).
Proof.
  intros Hd. revert values fs. induction toks as [|tok rest IH]; intros values fs Hg Hw Hv.
  - cbn [assign fst snd]. split; [done|]. split; [by apply closed_renderable | done].
  - rewrite assign_cons. pose proof (step_gathered d tok values fs Hg) as Hg'.
    destruct rest as [|tok2 rest].
    + cbn [assign]. split; [done|]. split; [by apply step_last|].
      intros [Ht _]%Forall_cons. by apply step_closed.
    + destruct Hw as [Ht Hw].
      pose proof (step_closed d tok values fs Hd Ht Hv) as Hv'.
      destruct (IH _ _ Hg' Hw Hv') as (H1 & H2 & H3).
      split; [done|]. split; [done|]. intros [_ Hc]%Forall_cons. by apply H3.
Qed.

(** ** Trailing flags *)

Lemma cut_trailing_flags_spec d toks :
  toks = fst (cut_trailing_flags d toks) ++ snd (cut_trailing_flags d toks) ∧
  Forall (λ f, is_flag d f = true) (snd (cut_trailing_flags d toks)).
Proof.
  induction toks as [|tok rest [IH1 IH2]]; [by split|]. cbn [cut_trailing_flags].
  destruct (cut_trailing_flags d rest) as [body trailing]. cbn [fst snd] in *.
  destruct body as [|b body].
  - destruct (is_flag d tok) eqn:Hf; cbn [fst snd app] in *.
    + split; [by rewrite IH1 | by constructor].
    + split; [by rewrite IH1 | done].
  - cbn [fst snd]. split; [by rewrite IH1 | done].
Qed.

Lemma cut_trailing_flags_render d kvs fs :
  Forall (λ t, is_flag d t = false) kvs → Forall (λ f, is_flag d f = true) fs →
  cut_trailing_flags d (kvs ++ fs) = (kvs, fs).
Proof.
  intros Hk Hf. induction Hk as [|t kvs Ht Hk IH].
  - cbn [app]. induction Hf as [|f fs Hf Hfs IH]; [done|].
    cbn [cut_trailing_flags]. by rewrite IH, Hf.
  - cbn [app cut_trailing_flags]. rewrite IH. destruct kvs; [by rewrite Ht | done].
Qed.

Lemma wf_toks_app_inv l1 l2 :
  wf_toks (l1 ++ l2) → l2 ≠ [] → Forall closed l1.
Proof.
  intros Hw Hne. induction l1 as [|x l1 IH]; [done|]. cbn [app] in Hw.
  destruct (l1 ++ l2) eqn:E.
  - by destruct l1, l2.
  - destruct Hw as [Hx Hw]. constructor; [done | by apply IH].
Qed.

Lemma foldl_add_flag_spec fs trailing :
  NoDup fs →
  NoDup (foldl (λ fs f, add_flag f fs) fs trailing) ∧
  ∀ x, In x (foldl (λ fs f, add_flag f fs) fs trailing) ↔ In x fs ∨ In x trailing.
Proof.
  revert fs. induction trailing as [|f trailing IH]; intros fs Hfs; cbn [foldl].
  - split; [done|]. intros x. cbn. tauto.
  - destruct (add_flag_spec f fs Hfs) as [Hnd Hin].
    destruct (IH _ Hnd) as [H1 H2]. split; [done|].
    intros x. rewrite H2, Hin. cbn. clear.
    split; intros H; [destruct H as [[H| ->]|H] | destruct H as [H|[->|H]]]; auto.
Qed.

Lemma foldl_add_flag_nodup acc l :
  NoDup (acc ++ l) → foldl (λ fs f, add_flag f fs) acc l = acc ++ l.
Proof.
  revert acc. induction l as [|f l IH]; intros acc Hnd; cbn [foldl].
  - by rewrite app_nil_r.
  - assert (Hf : add_flag f acc = acc ++ [f]).
    { unfold add_flag. destruct (existsb (String.eqb f) acc) eqn:E; [|done].
      apply existsb_eqb_In, list_elem_of_In in E.
      apply NoDup_app in Hnd as (_ & Hd & _). destruct (Hd f E). by left. }
    rewrite Hf, IH; rewrite <-app_assoc; done.
Qed.

(** ** What the parser gathers can be rendered *)

Lemma parse_arguments_spec d args :
  def_wf d → wf_toks args →
  gathered d (fst (parse_arguments d args)) [] ∧
  NoDup (snd (parse_arguments d args)) ∧
  Forall (λ f, is_flag d f = true) (snd (parse_arguments d args)) ∧
  renderable (fst (parse_arguments d args)) (snd (parse_arguments d args)).
Proof.
  intros Hd Hw. unfold parse_arguments.
  destruct (cut_trailing_flags_spec d args) as [Happ Hfl].
  destruct (cut_trailing_flags d args) as [body trailing]. cbn [fst snd] in *.
  assert (Hwb : wf_toks body).
  { destruct trailing; [by rewrite Happ, app_nil_r in Hw|].
    apply Forall_closed_wf_toks. rewrite Happ in Hw.
    by apply (wf_toks_app_inv _ _ Hw). }
  destruct (assign_spec d body [] [] Hd (gathered_nil d) Hwb) as (Hg & Hr & Hc);
    [by constructor|].
  destruct (assign d body [] []) as [values fs]. cbn [fst snd] in *.
  destruct Hg as [H1 H2 H3 H4 H5].
  destruct (foldl_add_flag_spec fs trailing H3) as [Hnd Hin].
  split; [split; [done | done | constructor | constructor | done]|].
  split; [done|]. split.
  - apply Forall_forall. intros x Hx%list_elem_of_In%Hin.
    destruct Hx as [Hx|Hx]; apply list_elem_of_In in Hx.
    + by eapply Forall_forall in H4.
    + by eapply Forall_forall in Hfl.
  - destruct trailing as [|f trailing]; [done|].
    apply closed_renderable, Hc. rewrite Happ in Hw.
    by apply (wf_toks_app_inv _ _ Hw).
Qed.

Lemma wf_toks_render_values d values :
  def_wf d → Forall (λ kv, is_keyword d (fst kv) = true) values →
  (wf_toks (map snd values) → wf_toks (map render_value values)) ∧
  (Forall closed (map snd values) → Forall closed (map render_value values)).
Proof.
  intros Hd Hk. induction Hk as [|[k v] values Hkv Hk [IH1 IH2]]; [done|].
  cbn [fst] in Hkv. apply (is_keyword_plain d k Hd) in Hkv. cbn [map snd]. split.
  - intros Hw. destruct values as [|kv2 values]; cbn [map wf_toks] in *.
    + unfold semi in *. by rewrite scan_render_value.
    + destruct Hw as [Hv Hw]. split; [|by apply IH1].
      unfold closed in *. by rewrite scan_render_value.
  - intros [Hv Hc]%Forall_cons. constructor; [|by apply IH2].
    unfold closed in *. by rewrite scan_render_value.
Qed.

Lemma rendered_wf d values fs :
  def_wf d → Forall (λ kv, is_keyword d (fst kv) = true) values →
  Forall (λ f, is_flag d f = true) fs → renderable values fs →
  wf_toks (nid d :: map render_value values ++ fs).
Proof.
  intros Hd Hk Hf Hr. destruct (wf_toks_render_values d values Hd Hk) as [H1 H2].
  change (wf_toks ([nid d] ++ (map render_value values ++ fs))).
  apply wf_toks_app; [constructor; [apply plain_closed, Hd | done]|].
  destruct fs as [|f fs].
  - rewrite app_nil_r. by apply H1.
  - apply wf_toks_app; [by apply H2|]. apply Forall_closed_wf_toks.
    eapply Forall_impl; [exact Hf|]. intros x Hx. cbn in Hx.
    by apply plain_closed, (is_flag_plain d).
Qed.

(** ** Parsing what was rendered *)

Lemma render_value_not_flag d kv :
  def_wf d → is_flag d (render_value kv) = false.
Proof.
  intros Hd. destruct (is_flag d (render_value kv)) eqn:E; [|done].
  apply (is_flag_plain d _ Hd) in E. destruct kv as [k v].
  by rewrite plain_has_equals in E.
Qed.

Lemma assign_render d vs1 vs2 fs :
  def_wf d → Forall (λ kv, is_keyword d (fst kv) = true) vs2 →
  NoDup (map fst (vs1 ++ vs2)) →
  assign d (map render_value vs2) vs1 fs = (vs1 ++ vs2, fs).
Proof.
  intros Hd Hk. revert vs1. induction Hk as [|[k v] vs2 Hkv Hk IH]; intros vs1 Hnd.
  - by rewrite app_nil_r.
  - cbn [map assign]. cbn [fst] in Hkv. rewrite (key_value_render d k v Hd Hkv).
    assert (Hn : has_key k vs1 = false).
    { apply has_key_false. intros Hin%list_elem_of_In.
      rewrite map_app in Hnd. apply NoDup_app in Hnd as (_ & Hd' & _).
      apply (Hd' k Hin). by left. }
    rewrite Hn. rewrite IH; rewrite <-app_assoc; done.
Qed.

Lemma parse_arguments_render d values fs :
  def_wf d → gathered d values [] → NoDup fs →
  Forall (λ f, is_flag d f = true) fs →
  parse_arguments d (map render_value values ++ fs) = (values, fs).
Proof.
  intros Hd [H1 H2 _ _ _] Hnd Hf. unfold parse_arguments.
  rewrite cut_trailing_flags_render; [|by apply Forall_map, Forall_forall;
    intros; apply render_value_not_flag | done].
  rewrite (assign_render d [] values [] Hd H2 H1). cbn [app].
  by rewrite (foldl_add_flag_nodup [] fs Hnd).
Qed.

(** ** The round trip *)

(** C1. On a well-formed catalog, every Command the parser produces from a
    line is produced again, with no error location, from the line the
    renderer writes for it: same definition (hence same name), same values
    in the same order, same active flags. In particular parsing the rendering
    of a parsed line gives the parse of that line. *)
Theorem parse_render_round_trip (catalog : list CommandDef) (text : string)
    (strict : bool) (c : Command) (loc : option nat)
    (Hcat : catalog_wf catalog)
    (Hparse : parse_text_to_command catalog text strict = (Some c, loc)) :
  parse_text_to_command catalog (to_plain_text c) strict = (Some c, None) ∧
  parse_text_to_command catalog (to_plain_text c) strict =
    parse_text_to_command catalog text strict.
Proof.
  assert (Hloc : loc = None ∧
            parse_text_to_command catalog (to_plain_text c) strict = (Some c, None)).
  2:{ destruct Hloc as [-> H]. split; [done | by rewrite H, Hparse]. }
  unfold parse_text_to_command in Hparse.
  destruct (split_line 0 text) as [|name args] eqn:Hs; [done|].
  destruct (determine_command_type catalog name) as [d|] eqn:Hd.
  - apply find_some in Hd as [Hin _]. destruct (Hcat d Hin) as [Hwf Hfind].
    pose proof (parse_arguments_spec d args Hwf (split_line_args _ _ _ Hs))
      as (Hg & Hnd & Hfl & Hr).
    destruct (parse_arguments d args) as [values fs]. cbn [fst snd] in *.
    destruct (first_missing 0 (keywords d) values) eqn:Hm; [done|].
    injection Hparse as <- <-. split; [done|].
    unfold parse_text_to_command. cbn [to_plain_text].
    rewrite split_line_concat; [|done|].
    2:{ apply rendered_wf; try done. by destruct Hg. }
    rewrite Hfind, parse_arguments_render by done. by rewrite Hm.
  - destruct strict; [done|]. destruct (starts_with_hash text) eqn:Hh; [|done].
    injection Hparse as <- <-. split; [done|].
    unfold parse_text_to_command. cbn [to_plain_text]. by rewrite Hs, Hd, Hh.
Qed.

Lemma demo_catalog_wf : catalog_wf demo_catalog.
Proof.
  intros d [<-|[<-|[]]]; (split; [repeat split; repeat constructor | reflexivity]).
Qed.

(** C1 at a line of the demo catalog, with an alias, a braced text holding a
    semicolon and a trailing flag. *)
Lemma parse_render_round_trip_witness :
  parse_text_to_command demo_catalog
    (to_plain_text (Cmd speak [("Speaker", "Eirika"); ("Text", "Hello {e:x;y}")]
                      ["hold"])) true
  = (Some (Cmd speak [("Speaker", "Eirika"); ("Text", "Hello {e:x;y}")] ["hold"]),
     None).
Proof.
  apply (parse_render_round_trip demo_catalog "s;Eirika;Hello {e:x;y};hold" true
           _ None demo_catalog_wf).
  reflexivity.
Defined.

End EventCommands.

(* ===================================================================== *)
(** * app/editor/event_editor/event_properties.py                         *)
(* ===================================================================== *)

Module EventEditor.
Import Py.

Local Open Scope nat_scope.

(** What [validate_tokens] hands to the highlighter: ['all'], or the
    indices of the broken tokens. *)
Inductive Broken : Type :=
| All
| Args (indices : list nat).

Section ValidateTokens.
(** The services of app.events the method calls; each may raise. *)
Context {Command : Type}.
Variable keywords : Command → list string.
Variable parse_text_to_command : string → bool → Res (option Command * option nat).
Variable parse : Command → Res (list (string * string) * list string).
Variable get_validator_from_keyword : Command → string → Res string.
Variable get_index_from_keyword : Command → string → Res nat.
(* event_validators.validate, with the level, DB and RESOURCES at hand *)
Variable validate : string → string → Res (option string).

(** [keyword not in parameters] *)
Definition missing (parameters : list (string * string)) (keyword : string) : bool :=
  negb (existsb (λ kv, String.eqb (fst kv) keyword) parameters).

(** The loop over [parameters.items()] that collects the broken arguments. *)
Fixpoint broken_args (command : Command) (parameters : list (string * string))
    : Res (list nat) :=
  match parameters with
  | [] => Ok []
  | (keyword, value) :: rest =>
    match get_validator_from_keyword command keyword with
    | Raise e => Raise e
    | Ok validator =>
      match validate validator value with
      | Raise e => Raise e
      | Ok text =>
        match text with
        | None =>
          match get_index_from_keyword command keyword with
          | Raise e => Raise e
          | Ok i =>
            match broken_args command rest with
            | Ok broken => Ok (i + 1 :: broken)
            | Raise e => Raise e
            end
          end
        | Some _ => broken_args command rest
        end
      end
    end
  end.

(** [EventSyntaxRuleHighlighter.validate_tokens]; any exception ends in
    ['all']. *)
Definition validate_tokens (line : string) : Broken :=
  match parse_text_to_command line true with
  | Raise _ => All
  | Ok (Some command, _) =>
    match parse command with
    | Raise _ => All
    | Ok (parameters, flags) =>
      if existsb (missing parameters) (keywords command) then All
      else
        match broken_args command parameters with
        | Ok broken => Args broken
        | Raise _ => All
        end
    end
  | Ok (None, Some (S n)) => Args [S n + 1]   (* the first idx that is broken *)
  | Ok (None, _) => Args [0]                  (* First arg is broken *)
  end.

(** The answers that do not depend on a validator. A command that comes
    back without one of its required keywords gets ['all']. A single index is
    reported when the parser gives no command: its error location plus one
    when that location is not zero, and zero otherwise. *)
Lemma validate_tokens_without_validation (line : string) :
  (∀ command error_loc parameters flags keyword,
     parse_text_to_command line true = Ok (Some command, error_loc) →
     parse command = Ok (parameters, flags) →
     In keyword (keywords command) → missing parameters keyword = true →
     validate_tokens line = All) ∧
  (∀ error_loc,
     parse_text_to_command line true = Ok (None, Some error_loc) →
     validate_tokens line = Args [if Nat.eqb error_loc 0 then 0 else error_loc + 1]) ∧
  (parse_text_to_command line true = Ok (None, None) →
   validate_tokens line = Args [0]).
Proof.
  unfold validate_tokens. split; [|split].
  - intros command error_loc parameters flags keyword -> -> Hin Hmiss.
    assert (He : existsb (missing parameters) (keywords command) = true).
    { apply existsb_exists. by exists keyword. }
    by rewrite He.
  - intros error_loc ->. by destruct error_loc.
  - by intros ->.
Qed.
End ValidateTokens.

(** ** The parser of the command grammar *)

(** [event_commands.parse_text_to_command], which answers without raising. *)
Definition grammar_parse (catalog : list EventCommands.CommandDef)
    (line : string) (strict : bool)
    : Res (option EventCommands.Command * option nat) :=
  Ok (EventCommands.parse_text_to_command catalog line strict).

Definition command_keywords (c : EventCommands.Command) : list string :=
  match c with
  | EventCommands.Cmd d _ _ => EventCommands.keywords d
  | EventCommands.Comment _ => []
  end.

Definition command_parse (c : EventCommands.Command)
    : Res (list (string * string) * list string) :=
  match c with
  | EventCommands.Cmd _ values fs => Ok (values, fs)
  | EventCommands.Comment text => Ok ([], [])
  end.

Definition command_validator (c : EventCommands.Command) (keyword : string)
    : Res string :=
  match c with
  | EventCommands.Cmd d _ _ =>
    match EventCommands.get_validator_from_keyword d keyword with
    | Some v => Ok v
    | None => Raise KeyError
    end
  | EventCommands.Comment _ => Raise KeyError
  end.

Definition command_index (c : EventCommands.Command) (keyword : string) : Res nat :=
  match c with
  | EventCommands.Cmd d _ _ =>
    match EventCommands.get_index_from_keyword d keyword with
    | Some i => Ok i
    | None => Raise KeyError
    end
  | EventCommands.Comment _ => Raise KeyError
  end.

(** The error location of a missing required keyword: the index of the
    first required keyword without a value, all the keywords before it
    having one. *)
Lemma first_missing_spec i required values :
  match EventCommands.first_missing i required values with
  | Some n =>
    ∃ j k, n = i + j ∧ required !! j = Some k ∧
           EventCommands.has_key k values = false ∧
           ∀ j' k', j' < j → required !! j' = Some k' →
                    EventCommands.has_key k' values = true
  | None => ∀ k, In k required → EventCommands.has_key k values = true
  end.
Proof.
  revert i. induction required as [|k required IH]; intros i; [by intros k []|].
  cbn [EventCommands.first_missing].
  destruct (EventCommands.has_key k values) eqn:Hk.
  - specialize (IH (S i)). destruct (EventCommands.first_missing _ _ _) as [n|].
    + destruct IH as (j & k0 & -> & Hj & Hk0 & Hbefore).
      exists (S j), k0. split; [lia|]. split; [done|]. split; [done|].
      intros [|j'] k' Hlt; cbn.
      * by intros [= <-].
      * apply Hbefore. lia.
    + intros k0 [<-|Hk0]; [done | by apply IH].
  - exists 0, k. split; [lia|]. split; [done|]. split; [done|]. intros j' k' Hlt. lia.
Qed.

(** C8 (amended). When a line names a known command and one of the command's
    required keywords is absent from the arguments it supplies, the strict
    parse gives no command but the index [i] of the first required keyword
    that is absent, and [validate_tokens] reports one token: token [i + 1],
    the one expected to hold that keyword, when [i] is not zero, and token 0,
    the command name, when it is the first required keyword that is absent. *)
Theorem validate_tokens_missing_keyword (catalog : list EventCommands.CommandDef)
    (validate : string → string → Res (option string))
    (line name : string) (args : list string) (d : EventCommands.CommandDef)
    (keyword : string)
    (Hline : EventCommands.split_line 0 line = name :: args)
    (Hname : EventCommands.determine_command_type catalog name = Some d)
    (Hkeyword : In keyword (EventCommands.keywords d))
    (Hmissing : EventCommands.has_key keyword
                  (fst (EventCommands.parse_arguments d args)) = false) :
  ∃ i first,
    EventCommands.keywords d !! i = Some first ∧
    EventCommands.has_key first (fst (EventCommands.parse_arguments d args)) = false ∧
    (∀ j k, j < i → EventCommands.keywords d !! j = Some k →
            EventCommands.has_key k (fst (EventCommands.parse_arguments d args)) = true) ∧
    EventCommands.parse_text_to_command catalog line true = (None, Some i) ∧
    validate_tokens command_keywords (grammar_parse catalog) command_parse
      command_validator command_index validate line
    = Args [if Nat.eqb i 0 then 0 else i + 1].
Proof.
  destruct (EventCommands.parse_arguments d args) as [values fs] eqn:Hargs.
  cbn [fst] in *.
  pose proof (first_missing_spec 0 (EventCommands.keywords d) values) as Hfirst.
  assert (Hrun : EventCommands.parse_text_to_command catalog line true =
            match EventCommands.first_missing 0 (EventCommands.keywords d) values with
            | Some i => (None, Some i)
            | None => (Some (EventCommands.Cmd d values fs), None)
            end).
  { unfold EventCommands.parse_text_to_command. by rewrite Hline, Hname, Hargs. }
  destruct (EventCommands.first_missing 0 _ values) as [n|].
  - destruct Hfirst as (i & first & -> & Hi & Hno & Hbefore). cbn [Nat.add] in *.
    exists i, first. split; [done|]. split; [done|]. split; [done|]. split; [done|].
    unfold validate_tokens, grammar_parse. rewrite Hrun. by destruct i.
  - by rewrite (Hfirst keyword Hkeyword) in Hmissing.
Qed.

(** A validator registry that accepts everything but an empty argument. *)
Definition accept_non_empty (validator value : string) : Res (option string) :=
  Ok (if String.eqb value "" then None else Some value).

Definition demo_validate_tokens : string → Broken :=
  validate_tokens command_keywords (grammar_parse EventCommands.demo_catalog)
    command_parse command_validator command_index accept_non_empty.

(** C8 at the demo catalog: [speak;Eirika] lacks Text, the second required
    keyword of [speak], and token 2 is reported. *)
Lemma validate_tokens_missing_keyword_witness :
  EventCommands.parse_text_to_command EventCommands.demo_catalog "speak;Eirika" true
    = (None, Some 1) ∧
  demo_validate_tokens "speak;Eirika" = Args [2].
Proof.
  destruct (validate_tokens_missing_keyword EventCommands.demo_catalog accept_non_empty
              "speak;Eirika" "speak" ["Eirika"] EventCommands.speak "Text"
              eq_refl eq_refl)
    as (i & first & Hi & Hfirst & Hbefore & Hparse & Hrun).
  - right. left. reflexivity.
  - reflexivity.
  - assert (Heq : Some 1 = Some i) by exact (f_equal snd Hparse).
    injection Heq as <-. split; [exact Hparse | exact Hrun].
Defined.

(** The claim of C8 fails for the first required keyword: [speak] and
    [speak;Text=Hello] both lack Speaker, which token 1 is expected to hold;
    the error location is 0, which [validate_tokens] takes for no location,
    and the token reported is token 0, the command name. *)
Lemma first_keyword_marks_command_name :
  EventCommands.keywords EventCommands.speak !! 0 = Some "Speaker" ∧
  EventCommands.parse_text_to_command EventCommands.demo_catalog "speak" true
    = (None, Some 0) ∧
  demo_validate_tokens "speak" = Args [0] ∧
  EventCommands.parse_text_to_command EventCommands.demo_catalog "speak;Text=Hello" true
    = (None, Some 0) ∧
  demo_validate_tokens "speak;Text=Hello" = Args [0] ∧
  EventCommands.split_line 0 "speak;Text=Hello" !! 0 = Some "speak".
Proof. repeat split; reflexivity. Qed.

(** An unrecognized command name gets the same answer. *)
Example unknown_command_index :
  demo_validate_tokens "shout;Eirika" = Args [0].
Proof. reflexivity. Qed.

Example broken_argument_index :
  demo_validate_tokens "speak;Eirika;;Width=10" = Args [2].
Proof. reflexivity. Qed.

(** ** The broken arguments *)

Section BrokenArguments.
Context {Command : Type}.
Variable keywords : Command → list string.
Variable parse_text_to_command : string → bool → Res (option Command * option nat).
Variable parse : Command → Res (list (string * string) * list string).
Variable get_validator_from_keyword : Command → string → Res string.
Variable get_index_from_keyword : Command → string → Res nat.
Variable validate : string → string → Res (option string).

(** The parameter fails its validator. *)
Definition rejected (command : Command) (kv : string * string) : Prop :=
  ∃ validator, get_validator_from_keyword command (fst kv) = Ok validator ∧
               validate validator (snd kv) = Ok None.

(** The services answer for the parameter: its validator is found and
    gives a verdict, and the index of a rejected parameter is found. *)
Definition answered (command : Command) (kv : string * string) : Prop :=
  ∃ validator verdict,
    get_validator_from_keyword command (fst kv) = Ok validator ∧
    validate validator (snd kv) = Ok verdict ∧
    (verdict = None → ∃ i, get_index_from_keyword command (fst kv) = Ok i).

Lemma broken_args_answered command parameters :
  Forall (answered command) parameters →
  ∃ broken,
    broken_args get_validator_from_keyword get_index_from_keyword validate
      command parameters = Ok broken ∧
    Forall (λ n, 1 ≤ n) broken ∧
    List.length broken ≤ List.length parameters ∧
    ∀ n, In n broken ↔
      ∃ kv i, In kv parameters ∧ rejected command kv ∧
              get_index_from_keyword command (fst kv) = Ok i ∧ n = i + 1.
Proof.
  induction 1 as [|[keyword value] parameters Hkv _ IH].
  - exists []. split; [done|]. split; [constructor|]. split; [done|].
    intros n. split; [done | by intros (kv & i & [] & _)].
  - destruct IH as (broken & Hrun & Hpos & Hlen & Hin).
    destruct Hkv as (validator & verdict & Hv & Hverdict & Hidx).
    cbn [fst snd] in *. cbn [broken_args]. rewrite Hv, Hverdict.
    destruct verdict as [text|].
    + exists broken. split; [done|]. split; [done|]. split; [cbn; lia|].
      intros n. rewrite Hin. split.
      * intros (kv & i & Hkv & Hrest). exists kv, i. split; [by right | done].
      * intros (kv & i & [<-|Hkv] & Hrej & Hrest).
        -- destruct Hrej as (validator' & Hv' & Hnone). cbn [fst snd] in *.
           congruence.
        -- by exists kv, i.
    + destruct (Hidx eq_refl) as [i Hi]. rewrite Hi, Hrun.
      exists (i + 1 :: broken). split; [done|].
      split; [constructor; [lia | done]|]. split; [cbn; lia|].
      intros n. cbn [In]. rewrite Hin. split.
      * intros [<-|(kv & j & Hkv & Hrest)].
        -- exists (keyword, value), i. split; [by left|]. split; [|done].
           by exists validator.
        -- exists kv, j. split; [by right | done].
      * intros (kv & j & [<-|Hkv] & Hrej & Hj & ->).
        -- left. cbn [fst] in Hj. congruence.
        -- right. by exists kv, j.
Qed.

(** X26. When the strict parse gives a command that has all its required
    keywords and the validators answer for every parameter,
    [validate_tokens] reports token indices rather than ['all']: one index
    per parameter whose validation gives [None], namely the index of its
    keyword plus one, so the command name (token 0) is never among them and
    a command whose parameters all validate gets the empty list. *)
Theorem validate_tokens_broken_arguments (line : string) (command : Command)
    (error_loc : option nat) (parameters : list (string * string))
    (flags : list string)
    (Hcommand : parse_text_to_command line true = Ok (Some command, error_loc))
    (Hparse : parse command = Ok (parameters, flags))
    (Hpresent : ∀ keyword, In keyword (keywords command) →
                  missing parameters keyword = false)
    (Hanswered : Forall (answered command) parameters) :
  ∃ broken,
    validate_tokens keywords parse_text_to_command parse get_validator_from_keyword
      get_index_from_keyword validate line = Args broken ∧
    Forall (λ n, 1 ≤ n) broken ∧
    List.length broken ≤ List.length parameters ∧
    (∀ n, In n broken ↔
       ∃ kv i, In kv parameters ∧ rejected command kv ∧
               get_index_from_keyword command (fst kv) = Ok i ∧ n = i + 1) ∧
    ((∀ kv, In kv parameters → ¬ rejected command kv) → broken = []).
Proof.
  destruct (broken_args_answered command parameters Hanswered)
    as (broken & Hrun & Hpos & Hlen & Hin).
  exists broken. unfold validate_tokens. rewrite Hcommand, Hparse.
  assert (He : existsb (missing parameters) (keywords command) = false).
  { apply not_true_is_false. intros (k & Hk & Hm)%existsb_exists.
    by rewrite (Hpresent k Hk) in Hm. }
  rewrite He, Hrun. split; [done|]. split; [done|]. split; [done|]. split; [done|].
  intros Hnone. destruct broken as [|n broken]; [done|]. exfalso.
  destruct (proj1 (Hin n) (or_introl eq_refl)) as (kv & i & Hkv & Hrej & _).
  by apply (Hnone kv).
Qed.
End BrokenArguments.

(** X26 at the demo catalog: the empty Text of [speak] is token 2. *)
Lemma validate_tokens_broken_arguments_witness :
  ∃ broken,
    demo_validate_tokens "speak;Eirika;;Width=10" = Args broken ∧
    Forall (λ n, 1 ≤ n) broken.
Proof.
  destruct (validate_tokens_broken_arguments command_keywords
              (grammar_parse EventCommands.demo_catalog) command_parse
              command_validator command_index accept_non_empty
              "speak;Eirika;;Width=10"
              (EventCommands.Cmd EventCommands.speak
                 [("Speaker", "Eirika"); ("Text", ""); ("Width", "10")] [])
              None [("Speaker", "Eirika"); ("Text", ""); ("Width", "10")] [])
    as (broken & Hrun & Hpos & _).
  - reflexivity.
  - reflexivity.
  - intros keyword [<-|[<-|[]]]; reflexivity.
  - repeat constructor.
    + eexists _, _. split; [reflexivity|]. split; [reflexivity|]. discriminate.
    + eexists _, _. split; [reflexivity|]. split; [reflexivity|].
      intros _. eexists. reflexivity.
    + eexists _, _. split; [reflexivity|]. split; [reflexivity|]. discriminate.
  - exists broken. split; [exact Hrun | exact Hpos].
Defined.

(** ** Brace formatting *)

Local Open Scope list_scope.

(** The piece of a line [match_line] asks the highlighter to format: where
    it starts and how long it is. The brace pass always asks for the
    special-text format. *)
Record LineToFormat := { start : nat; length : nat }.

(** The last loop of [match_line], over [enumerate(line)], from index [idx]
    on. A line is its sequence of characters. *)
Fixpoint brace_loop (line : list ascii) (idx brace_mode special_start : nat)
    : list LineToFormat :=
  match line with
  | [] => []
  | char :: rest =>
    if Ascii.eqb char "{" then
      let special_start := if brace_mode =? 0 then idx else special_start in
      brace_loop rest (S idx) (brace_mode + 1) special_start
    else if Ascii.eqb char "}" then
      if 0 <? brace_mode then
        {| start := special_start; length := idx - special_start + 1 |}
        :: brace_loop rest (S idx) (brace_mode - 1) special_start
      else brace_loop rest (S idx) brace_mode special_start
    else brace_loop rest (S idx) brace_mode special_start
  end.

Definition brace_formatting (line : list ascii) : list LineToFormat :=
  brace_loop line 0 0 0.

(** A piece that starts on an opening brace and ends on a closing one. *)
Definition braced (line : list ascii) (piece : LineToFormat) : Prop :=
  line !! start piece = Some "{"%char ∧
  line !! (start piece + length piece - 1) = Some "}"%char ∧
  2 ≤ length piece ∧
  start piece + length piece ≤ List.length line.

Lemma brace_loop_braced rest : ∀ pre brace_mode special_start,
  (0 < brace_mode →
   special_start < List.length pre ∧ pre !! special_start = Some "{"%char) →
  Forall (braced (pre ++ rest))
    (brace_loop rest (List.length pre) brace_mode special_start).
Proof.
  induction rest as [|char rest IH]; intros pre bm ss Hinv; [constructor|].
  cbn [brace_loop].
  assert (Hstep : ∀ bm' ss',
    (0 < bm' → ss' < List.length (pre ++ [char]) ∧
               (pre ++ [char]) !! ss' = Some "{"%char) →
    Forall (braced (pre ++ char :: rest))
      (brace_loop rest (S (List.length pre)) bm' ss')).
  { intros bm' ss' H. specialize (IH (pre ++ [char]) bm' ss' H).
    rewrite <-app_assoc in IH. cbn [app] in IH.
    rewrite length_app in IH. cbn [List.length] in IH.
    by replace (List.length pre + 1) with (S (List.length pre)) in IH by lia. }
  assert (Hkeep : 0 < bm → ss < List.length (pre ++ [char]) ∧
                           (pre ++ [char]) !! ss = Some "{"%char).
  { intros Hbm. destruct (Hinv Hbm) as [Hlt Hss]. rewrite length_app. split; [lia|].
    by rewrite lookup_app_l. }
  destruct (Ascii.eqb_spec char "{") as [->|Hopen].
  - apply Hstep. intros _. destruct (Nat.eqb_spec bm 0) as [->|Hbm].
    + rewrite length_app. cbn [List.length]. split; [lia|].
      rewrite lookup_app_r by lia. by rewrite Nat.sub_diag.
    + apply Hkeep. lia.
  - destruct (Ascii.eqb_spec char "}") as [->|Hclose].
    + destruct (Nat.ltb_spec 0 bm) as [Hbm|Hbm].
      * constructor.
        -- destruct (Hinv Hbm) as [Hlt Hss]. unfold braced. cbn [start length].
           repeat split.
           ++ by rewrite lookup_app_l.
           ++ replace (ss + (List.length pre - ss + 1) - 1) with (List.length pre) by lia.
              rewrite lookup_app_r by lia. by rewrite Nat.sub_diag.
           ++ lia.
           ++ rewrite length_app. cbn [List.length]. lia.
        -- apply Hstep. intros Hbm'. apply Hkeep. lia.
      * by apply Hstep.
    + by apply Hstep.
Qed.

Lemma brace_loop_count rest : ∀ idx brace_mode special_start,
  List.length (brace_loop rest idx brace_mode special_start)
    ≤ count_occ ascii_dec rest "}"%char ∧
  List.length (brace_loop rest idx brace_mode special_start)
    ≤ brace_mode + count_occ ascii_dec rest "{"%char.
Proof.
  induction rest as [|char rest IH]; intros idx bm ss; [cbn; lia|].
  cbn [brace_loop count_occ].
  destruct (Ascii.eqb_spec char "{") as [->|Hopen].
  - destruct (IH (S idx) (bm + 1) (if bm =? 0 then idx else ss)) as [H1 H2].
    destruct (ascii_dec "{" "}") as [?|_]; [done|].
    destruct (ascii_dec "{" "{") as [_|?]; [|done]. lia.
  - destruct (ascii_dec char "{") as [?|_]; [done|].
    destruct (Ascii.eqb_spec char "}") as [->|Hclose].
    + destruct (ascii_dec "}" "}") as [_|?]; [|done].
      destruct (Nat.ltb_spec 0 bm) as [Hbm|Hbm].
      * destruct (IH (S idx) (bm - 1) ss) as [H1 H2]. cbn [List.length]. lia.
      * destruct (IH (S idx) bm ss) as [H1 H2]. lia.
    + destruct (ascii_dec char "}") as [?|_]; [done|]. apply IH.
Qed.

(** X14. Every piece the brace pass of [match_line] asks to format lies
    within the line, starts on an opening brace and ends on a closing brace
    further right; and there are at most as many pieces as the line has
    closing braces, and at most as many as it has opening braces (so a line
    without a brace pair gets none). *)
Theorem brace_formatting_braced (line : list ascii) :
  Forall (braced line) (brace_formatting line) ∧
  List.length (brace_formatting line) ≤ count_occ ascii_dec line "}"%char ∧
  List.length (brace_formatting line) ≤ count_occ ascii_dec line "{"%char.
Proof.
  split.
  - apply (brace_loop_braced line [] 0 0). intros H. lia.
  - apply (brace_loop_count line 0 0 0).
Qed.

(** Nested braces are formatted from the outermost opening brace each time;
    a closing brace without an opening one is ignored. *)
Example brace_formatting_nested :
  brace_formatting (list_ascii_of_string "a{b{c}d}e}") =
  [{| start := 1; length := 5 |}; {| start := 1; length := 7 |}].
Proof. reflexivity. Qed.

(** ** Python blocks *)

(** [HighlighterState]; a block without a predecessor has the previous
    state -1 in Qt. *)
Definition EVENT_CODE : Z := (-1)%Z.
Definition PYTHON_CODE : Z := 0%Z.
Definition TRIPLE_SINGLE_QUOTES : Z := 1%Z.
Definition TRIPLE_DOUBLE_QUOTES : Z := 2%Z.

(** [highlightBlock] on a block with text [text] whose previous block has
    state [previous]: the state it sets for the block, and whether it
    highlights the block as event code. *)
Definition highlightBlock (previous : Z) (text : string) : Z * bool :=
  if String.prefix "python" text then (PYTHON_CODE, true)
  else if String.prefix "end_python" text then (EVENT_CODE, true)
  else ((previous, previous =? EVENT_CODE)%Z).

(** The highlighter run over the blocks of a document, first to last: the
    state left on the last block, and for each block whether it was
    highlighted as event code. Each block sees the state of the block before
    it. *)
Definition state_after (previous : Z) (document : list string) : Z :=
  foldl (λ previous text, fst (highlightBlock previous text)) previous document.

Definition block_state (document : list string) : Z :=
  state_after EVENT_CODE document.

Fixpoint highlight_from (previous : Z) (document : list string) : list bool :=
  match document with
  | [] => []
  | text :: rest =>
    let r := highlightBlock previous text in
    snd r :: highlight_from (fst r) rest
  end.

Definition highlight (document : list string) : list bool :=
  highlight_from EVENT_CODE document.

(** A line that opens or closes a Python block. *)
Definition opens (text : string) : bool := String.prefix "python" text.
Definition closes (text : string) : bool :=
  negb (String.prefix "python" text) && String.prefix "end_python" text.
Definition plain (text : string) : bool := negb (opens text) && negb (closes text).

Lemma state_after_plain previous post :
  forallb plain post = true → state_after previous post = previous.
Proof.
  revert previous. induction post as [|text post IH]; intros previous; [done|].
  cbn [forallb]. intros [Ht Hpost]%andb_true_iff. unfold state_after. cbn [foldl].
  unfold plain, opens, closes in Ht. unfold highlightBlock at 2.
  destruct (String.prefix "python" text); [done|].
  destruct (String.prefix "end_python" text); [done|].
  cbn [fst]. by apply IH.
Qed.

Lemma block_state_last pre text post :
  forallb plain post = true →
  block_state (pre ++ text :: post) =
  fst (highlightBlock (block_state pre) text).
Proof.
  intros Hpost. unfold block_state, state_after. rewrite foldl_app. cbn [foldl].
  by apply state_after_plain.
Qed.

(** X15. The state the highlighter leaves on a block is decided by the last
    line at or above it that starts with 'python' or with 'end_python': the
    block is Python code if that line starts with 'python', event code if it
    starts with 'end_python' or if there is no such line. The states for
    triple-quoted strings are never set. A block is highlighted as event
    code exactly when it is such a line itself or the block before it is in
    event-code state. *)
Theorem python_block_state (pre post : list string) (text : string)
    (Hpost : forallb plain post = true) :
  (opens text = true → block_state (pre ++ text :: post) = PYTHON_CODE) ∧
  (closes text = true → block_state (pre ++ text :: post) = EVENT_CODE) ∧
  (block_state post = EVENT_CODE) ∧
  (∀ document, block_state document = EVENT_CODE ∨
               block_state document = PYTHON_CODE) ∧
  (∀ previous line,
     snd (highlightBlock previous line) = true ↔
     opens line = true ∨ closes line = true ∨ previous = EVENT_CODE).
Proof.
  split; [|split; [|split; [|split]]].
  - intros Ho. rewrite block_state_last by done. unfold highlightBlock.
    unfold opens in Ho. by rewrite Ho.
  - intros Hc. rewrite block_state_last by done. unfold highlightBlock.
    unfold closes in Hc. apply andb_true_iff in Hc as [Hn Hc].
    apply negb_true_iff in Hn. by rewrite Hn, Hc.
  - by apply state_after_plain.
  - intros document. unfold block_state.
    assert (H : ∀ previous, (previous = EVENT_CODE ∨ previous = PYTHON_CODE) →
              state_after previous document = EVENT_CODE ∨
              state_after previous document = PYTHON_CODE).
    { induction document as [|line document IH]; intros previous Hp; [done|].
      unfold state_after. cbn [foldl]. apply IH.
      unfold highlightBlock. destruct (String.prefix "python" line); [by right|].
      destruct (String.prefix "end_python" line); [by left | done]. }
    apply H. by left.
  - intros previous line. unfold highlightBlock, opens, closes.
    destruct (String.prefix "python" line); cbn [snd negb andb].
    + split; [by left | done].
    + destruct (String.prefix "end_python" line); cbn [snd].
      * split; [right; by left | done].
      * rewrite Z.eqb_eq. split; [by intros ->; right; right|].
        intros [?|[?|?]]; done.
Qed.

(** X15 on a small event: the line inside the Python block is left alone. *)
Lemma python_block_state_witness :
  block_state ["speak;Eirika;Hello"; "python"; "x = 1"] = PYTHON_CODE ∧
  block_state ["python"; "x = 1"; "end_python"; "wait;100"] = EVENT_CODE ∧
  highlight ["python"; "x = 1"; "end_python"; "wait;100"] = [true; false; true; true].
Proof.
  split; [|split].
  - apply (proj1 (python_block_state ["speak;Eirika;Hello"] ["x = 1"] "python" eq_refl)).
    reflexivity.
  - apply (proj1 (proj2 (python_block_state ["python"; "x = 1"] ["wait;100"]
                           "end_python" eq_refl))).
    reflexivity.
  - reflexivity.
Defined.

(** ** From commands to text and back *)

Local Open Scope string_scope.

(** [str.isspace] on the ASCII range: tab, line feed, vertical tab, form
    feed, carriage return, the separators 28 to 31, and space. *)
Definition is_space (c : ascii) : bool :=
  let n := nat_of_ascii c in
  (((9 <=? n) && (n <=? 13)) || ((28 <=? n) && (n <=? 32)))%nat.

Fixpoint lstrip (s : string) : string :=
  match s with
  | EmptyString => EmptyString
  | String c rest => if is_space c then lstrip rest else s
  end.

Fixpoint rstrip (s : string) : string :=
  match s with
  | EmptyString => EmptyString
  | String c rest =>
    match rstrip rest with
    | EmptyString => if is_space c then EmptyString else String c EmptyString
    | rest' => String c rest'
    end
  end.

(** [line.strip()] *)
Definition strip (s : string) : string := rstrip (lstrip s).

Definition newline : ascii := ascii_of_nat 10.

(** The blocks of a document holding [text]: its lines. A text that ends
    with a line break has an empty last block. *)
Fixpoint blocks (text : string) : list string :=
  match text with
  | EmptyString => [EmptyString]
  | String c rest =>
    if Ascii.eqb c newline then EmptyString :: blocks rest
    else
      match blocks rest with
      | block :: others => String c block :: others
      | [] => [String c EmptyString]
      end
  end.

(** ['    ' * num_tabs]; a negative count gives the empty string. *)
Fixpoint spaces (n : nat) : string :=
  match n with
  | O => EmptyString
  | S n' => String " " (spaces n')
  end.

Definition tabs (num_tabs : Z) : string := spaces (4 * Z.to_nat num_tabs).

Definition one_of (nids : list string) (nid : string) : bool :=
  existsb (String.eqb nid) nids.

Section Conversion.
Context {Command : Type}.
Variable nid : Command → string.                 (* command.nid *)
Variable to_plain_text : Command → string.       (* command.to_plain_text() *)
(* event_commands.parse_text_to_command(line) *)
Variable parse_text_to_command : string → Res (option Command * option nat).

(** The text [set_current] puts into the editor for the commands of an
    event, with the indentation it keeps track of. A [None] among the
    commands is logged and skipped. *)
Fixpoint convert_text (commands : list (option Command)) (num_tabs : Z) : string :=
  match commands with
  | [] => EmptyString
  | None :: rest => convert_text rest num_tabs
  | Some command :: rest =>
    let num_tabs :=
      if one_of ["else"; "elif"; "end"; "endf"] (nid command)
      then (num_tabs - 1)%Z else num_tabs in
    tabs num_tabs ++ to_plain_text command ++ String newline
      (convert_text rest
         (if one_of ["if"; "elif"; "else"; "for"] (nid command)
          then (num_tabs + 1)%Z else num_tabs))
  end.

(** The second loop of [text_changed]: every line that parses to a command
    contributes it. *)
Fixpoint parse_lines (lines : list string) : Res (list Command) :=
  match lines with
  | [] => Ok []
  | line :: rest =>
    match parse_text_to_command line with
    | Raise e => Raise e
    | Ok (command, error_loc) =>
      match parse_lines rest with
      | Raise e => Raise e
      | Ok commands =>
        Ok (match command with Some c => c :: commands | None => commands end)
      end
    end
  end.

(** [text_changed]: the commands of the event are rebuilt from the stripped,
    non-empty blocks of the document. *)
Definition text_changed (document : list string) : Res (list Command) :=
  parse_lines
    (List.filter (λ line, negb (String.eqb line EmptyString)) (map strip document)).

Definition no_newline (s : string) : Prop :=
  ∀ i, String.get i s ≠ Some newline.

Lemma string_app_cons c (s t : string) : String c s ++ t = String c (s ++ t).
Proof. done. Qed.

Lemma string_app_nil (t : string) : EmptyString ++ t = t.
Proof. done. Qed.

Lemma no_newline_cons c s :
  no_newline (String c s) → c ≠ newline ∧ no_newline s.
Proof.
  intros H. split.
  - intros ->. by apply (H 0).
  - intros i. apply (H (S i)).
Qed.

Lemma blocks_line s rest :
  no_newline s → blocks (s ++ String newline rest) = s :: blocks rest.
Proof.
  induction s as [|c s IH]; intros Hs.
  - rewrite string_app_nil. cbn [blocks]. by rewrite Ascii.eqb_refl.
  - apply no_newline_cons in Hs as [Hc Hs]. rewrite string_app_cons. cbn [blocks].
    apply Ascii.eqb_neq in Hc. rewrite Hc. by rewrite (IH Hs).
Qed.

Lemma lstrip_spaces n s : lstrip (spaces n ++ s) = lstrip s.
Proof. induction n as [|n IH]; [done|]. cbn [spaces]. by rewrite string_app_cons. Qed.

Lemma strip_tabs num_tabs s : strip (tabs num_tabs ++ s) = strip s.
Proof. unfold strip, tabs. by rewrite lstrip_spaces. Qed.

Lemma text_changed_cons line document c e commands :
  strip line ≠ EmptyString →
  parse_text_to_command (strip line) = Ok (Some c, e) →
  text_changed document = Ok commands →
  text_changed (line :: document) = Ok (c :: commands).
Proof.
  intros Hne Hparse Hrest. unfold text_changed in *. cbn [map List.filter].
  apply String.eqb_neq in Hne. rewrite Hne. cbn [negb parse_lines].
  by rewrite Hparse, Hrest.
Qed.

(** X16. The indentation [set_current] adds is invisible to [text_changed]:
    when the plain text of every command stays on one line, is not blank and
    parses (once stripped) back to the command, the document that
    [set_current] fills the editor with is read back by [text_changed] as
    the very same commands, in order, whatever the nesting of the 'if',
    'for', 'else' and 'end' commands is. *)
Theorem set_current_text_changed (commands : list Command) (num_tabs : Z)
    (Hline : ∀ c, In c commands → no_newline (to_plain_text c))
    (Hblank : ∀ c, In c commands → strip (to_plain_text c) ≠ EmptyString)
    (Hparse : ∀ c, In c commands →
       ∃ e, parse_text_to_command (strip (to_plain_text c)) = Ok (Some c, e)) :
  text_changed (blocks (convert_text (map Some commands) num_tabs)) = Ok commands.
Proof.
  revert num_tabs. induction commands as [|c commands IH]; intros num_tabs; [done|].
  cbn [map convert_text].
  set (n1 := if one_of _ (nid c) then _ else _).
  set (n2 := if one_of _ (nid c) then _ else _).
  assert (Hc : In c (c :: commands)) by (by left).
  assert (Hsplit : ∀ rest,
    blocks (tabs n1 ++ to_plain_text c ++ String newline rest) =
    (tabs n1 ++ to_plain_text c) :: blocks rest).
  { intros rest.
    assert (Hassoc : tabs n1 ++ to_plain_text c ++ String newline rest =
                     (tabs n1 ++ to_plain_text c) ++ String newline rest).
    { unfold tabs. induction (4 * Z.to_nat n1) as [|k IHk]; [done|].
      cbn [spaces]. rewrite !string_app_cons. by rewrite IHk. }
    rewrite Hassoc. apply blocks_line.
    unfold tabs. induction (4 * Z.to_nat n1) as [|k IHk].
    - rewrite string_app_nil. by apply Hline.
    - cbn [spaces]. rewrite string_app_cons. intros [|i]; [done | apply IHk]. }
  rewrite Hsplit. destruct (Hparse c Hc) as [e He].
  apply (text_changed_cons _ _ c e).
  - rewrite strip_tabs. by apply Hblank.
  - by rewrite strip_tabs.
  - apply IH; intros c' Hc'; [apply Hline | apply Hblank | apply Hparse]; by right.
Qed.
End Conversion.

(** Commands as (nid, plain text) pairs, parsed by looking the line up. *)
Definition demo_event : list (string * string) :=
  [("if", "if;x > 0"); ("speak", "speak;Eirika;Hello"); ("end", "end")].

Definition demo_parse (line : string) : Res (option (string * string) * option nat) :=
  Ok (find (λ c, String.eqb (snd c) line) demo_event, None).

Example set_current_indents :
  convert_text fst snd (map Some demo_event) 0 =
  "if;x > 0" ++ String newline ("    speak;Eirika;Hello" ++ String newline
    ("end" ++ String newline "")).
Proof. reflexivity. Qed.

(** X16 at the demo event. *)
Lemma set_current_text_changed_witness :
  text_changed demo_parse (blocks (convert_text fst snd (map Some demo_event) 0))
  = Ok demo_event.
Proof.
  apply (set_current_text_changed fst snd demo_parse demo_event 0).
  - intros c [<-|[<-|[<-|[]]]] i;
      (do 20 (destruct i as [|i]; [discriminate|])); discriminate.
  - intros c [<-|[<-|[<-|[]]]]; discriminate.
  - intros c [<-|[<-|[<-|[]]]]; exists None; reflexivity.
Defined.

End EventEditor.

(* ===================================================================== *)
(** * app/engine/background.py                                            *)
(* ===================================================================== *)

(** What a method of this file can fail with. *)
Module Background.

Inductive failure : Type := ZeroDivisionError | TypeError.

Inductive outcome (A : Type) : Type :=
| Done (a : A)
| Failed (e : failure).
Arguments Done {A} a.
Arguments Failed {A} e.

End Background.

(** ** SpriteBackground *)

Module SpriteBackground.

(** The values of [self.state]: 'in', 'normal' and 'out'. *)
Inductive State : Type := fading_in | normal | fading_out.

Record SpriteBackground := {
  counter : Z;
  fade : Z;
  state : State }.

(** [__init__]; [fade] is the truth value of the argument. *)
Definition init (fade : bool) : SpriteBackground :=
  if fade then {| counter := 0; fade := 100; state := fading_in |}
  else {| counter := 0; fade := 0; state := normal |}.

(** [draw]: the background after the call and the value returned. *)
Definition draw (bg : SpriteBackground) : SpriteBackground * bool :=
  match state bg with
  | fading_in =>
    let fade := fade bg - 4 in
    if fade <=? 0 then ({| counter := counter bg; fade := 0; state := normal |}, false)
    else ({| counter := counter bg; fade := fade; state := fading_in |}, false)
  | fading_out =>
    let fade := fade bg + 4 in
    ({| counter := counter bg; fade := fade; state := fading_out |}, 100 <=? fade)
  | normal => (bg, false)
  end.

Definition fade_out (bg : SpriteBackground) : SpriteBackground :=
  {| counter := counter bg; fade := fade bg; state := fading_out |}.

(** The background after [n] calls of [draw]. *)
Fixpoint draws (n : nat) (bg : SpriteBackground) : SpriteBackground :=
  match n with
  | O => bg
  | S n' => draws n' (fst (draw bg))
  end.

Lemma draws_succ n bg : draws (S n) bg = fst (draw (draws n bg)).
Proof. revert bg. induction n as [|n IH]; intros bg; [done|]. cbn [draws] in *. apply IH. Qed.

Lemma draws_fading_in n :
  (n < 25)%nat →
  draws n (init true) =
  {| counter := 0; fade := 100 - 4 * Z.of_nat n; state := fading_in |}.
Proof.
  induction n as [|n IH]; intros Hn; [done|].
  rewrite draws_succ, IH by lia. unfold draw. cbn [state fade counter].
  destruct (Z.leb_spec (100 - 4 * Z.of_nat n - 4) 0); [lia|].
  cbn [fst]. f_equal. lia.
Qed.

Lemma draws_normal n bg : state bg = normal → draws n bg = bg.
Proof.
  intros Hs. induction n as [|n IH]; [done|]. rewrite draws_succ, IH.
  unfold draw. by rewrite Hs.
Qed.

Lemma draws_faded_in n :
  (25 ≤ n)%nat → draws n (init true) = {| counter := 0; fade := 0; state := normal |}.
Proof.
  intros Hn. replace n with (S 24 + (n - 25))%nat by lia.
  assert (H25 : draws 25 (init true) = {| counter := 0; fade := 0; state := normal |}).
  { rewrite draws_succ, draws_fading_in by lia. reflexivity. }
  assert (Hadd : ∀ a b bg, draws (a + b) bg = draws b (draws a bg)).
  { induction a as [|a IHa]; intros b bg; [done|]. cbn [Nat.add draws]. apply IHa. }
  rewrite Hadd, H25. by apply draws_normal.
Qed.

(** X17. A background created with [fade] fades in over 25 calls of
    [draw]: after [n] calls the fade is 100 - 4 n, never below 0, the state
    turns 'normal' at the 25th call and stays so, and [draw] keeps
    returning False. *)
Theorem sprite_fades_in (n : nat) :
  fade (draws n (init true)) = Z.max 0 (100 - 4 * Z.of_nat n) ∧
  (state (draws n (init true)) = normal ↔ (25 ≤ n)%nat) ∧
  (state (draws n (init true)) = fading_in ↔ (n < 25)%nat) ∧
  snd (draw (draws n (init true))) = false.
Proof.
  destruct (Nat.lt_ge_cases n 25) as [Hn|Hn].
  - rewrite draws_fading_in by done. cbn [fade state]. split; [lia|].
    split; [split; [done | lia]|]. split; [done|].
    unfold draw. cbn [state fade]. by destruct (_ <=? 0).
  - rewrite draws_faded_in by done. cbn [fade state]. split; [lia|].
    split; [done|]. split; [split; [done | lia] | done].
Qed.

Lemma draws_fading_out n bg :
  state bg = fading_out →
  draws n bg = {| counter := counter bg; fade := fade bg + 4 * Z.of_nat n;
                  state := fading_out |}.
Proof.
  intros Hs. induction n as [|n IH].
  - destruct bg. cbn in *. subst. f_equal. lia.
  - rewrite draws_succ, IH. unfold draw. cbn [state fade counter fst]. f_equal. lia.
Qed.

(** X18. After [fade_out], every call of [draw] adds 4 to the fade, and the
    call that follows [n] earlier ones returns True exactly when the fade
    has then reached 100, that is when fade + 4 (n + 1) >= 100; the fade is
    not capped, so once True the answer stays True. From a fully faded-in
    background the first True is the 25th call. *)
Theorem sprite_fades_out (bg : SpriteBackground) (n : nat) :
  let bg' := draws n (fade_out bg) in
  fade bg' = fade bg + 4 * Z.of_nat n ∧
  state bg' = fading_out ∧
  (snd (draw bg') = true ↔ 100 ≤ fade bg + 4 * (Z.of_nat n + 1)) ∧
  (snd (draw bg') = true → ∀ m, (n ≤ m)%nat →
     snd (draw (draws m (fade_out bg))) = true) ∧
  (fade bg = 0 → (snd (draw bg') = true ↔ (24 ≤ n)%nat)).
Proof.
  cbn zeta.
  assert (Hd : ∀ k, draws k (fade_out bg) =
            {| counter := counter bg; fade := fade bg + 4 * Z.of_nat k;
               state := fading_out |}).
  { intros k. by rewrite draws_fading_out. }
  assert (Hr : ∀ k, snd (draw (draws k (fade_out bg))) = true ↔
                    100 ≤ fade bg + 4 * (Z.of_nat k + 1)).
  { intros k. rewrite Hd. unfold draw. cbn [state fade snd].
    rewrite Z.leb_le. lia. }
  rewrite Hd. cbn [fade state]. split; [done|]. split; [done|].
  rewrite <-Hd. split; [apply Hr|]. split.
  - intros Ht m Hm. apply Hr. apply Hr in Ht. lia.
  - intros H0. rewrite Hr, H0. lia.
Qed.

End SpriteBackground.

(** ** Foreground *)

Module Foreground.
Import Background.

Section Flash.
(** The colour a flash fills the screen with. *)
Context {Color : Type}.

Record Foreground := {
  foreground : option Color;
  foreground_frames : Z;
  fade_out : bool;
  fade_out_frames : Z }.

Definition init : Foreground :=
  {| foreground := None; foreground_frames := 0; fade_out := false;
     fade_out_frames := 0 |}.

(** [flash(num_frames, fade_out, color)]; the flag [self.fade_out] is left
    as it is. *)
Definition flash (fg : Foreground) (num_frames fade_out_arg : Z) (color : Color)
    : Foreground :=
  {| foreground := Some color; foreground_frames := num_frames;
     fade_out := fade_out fg; fade_out_frames := fade_out_arg |}.

(** [draw]. While fading out, the translucency is
    [1 - foreground_frames / fade_out_frames]. Blitting needs a surface. *)
Definition draw (fg : Foreground) : outcome Foreground :=
  if bool_decide (is_Some (foreground fg)) || negb (fade_out_frames fg =? 0) then
    if fade_out fg && (fade_out_frames fg =? 0) then Failed ZeroDivisionError
    else
      match foreground fg with
      | None => Failed TypeError
      | Some color =>
        let frames := foreground_frames fg - 1 in
        if frames <=? 0 then
          if negb (fade_out_frames fg =? 0) && negb (fade_out fg) then
            Done {| foreground := Some color; foreground_frames := fade_out_frames fg;
                    fade_out := true; fade_out_frames := fade_out_frames fg |}
          else Done init
        else
          Done {| foreground := Some color; foreground_frames := frames;
                  fade_out := fade_out fg; fade_out_frames := fade_out_frames fg |}
      end
  else Done fg.

(** [n] calls of [draw] in a row. *)
Fixpoint draws (n : nat) (fg : Foreground) : outcome Foreground :=
  match n with
  | O => Done fg
  | S n' =>
    match draw fg with
    | Done fg' => draws n' fg'
    | Failed e => Failed e
    end
  end.

Lemma draws_add a b fg :
  draws (a + b) fg =
  match draws a fg with Done fg' => draws b fg' | Failed e => Failed e end.
Proof.
  revert fg. induction a as [|a IH]; intros fg; [done|]. cbn [Nat.add draws].
  destruct (draw fg) as [fg'|e]; [apply IH | done].
Qed.

Lemma draws_init n : draws n init = Done init.
Proof. induction n as [|n IH]; [done|]. cbn [draws]. exact IH. Qed.

(** The flash is on the screen, with [frames] draws to go in its phase. *)
Definition showing (color : Color) (frames : Z) (fading : bool) (fade_frames : Z)
    : Foreground :=
  {| foreground := Some color; foreground_frames := frames; fade_out := fading;
     fade_out_frames := fade_frames |}.

Lemma draw_showing color frames fading fade_frames :
  1 < frames → (fading = true → fade_frames ≠ 0) →
  draw (showing color frames fading fade_frames) =
  Done (showing color (frames - 1) fading fade_frames).
Proof.
  intros Hf Hfade. unfold draw, showing. cbn [foreground fade_out fade_out_frames
    foreground_frames]. rewrite bool_decide_eq_true_2 by (by eexists). cbn [orb].
  destruct fading; cbn [andb].
  - destruct (Z.eqb_spec fade_frames 0) as [H0|_]; [by destruct Hfade|].
    destruct (Z.leb_spec (frames - 1) 0); [lia | done].
  - destruct (Z.leb_spec (frames - 1) 0); [lia | done].
Qed.

Lemma draws_showing color fading fade_frames (k : nat) frames :
  Z.of_nat k < frames → (fading = true → fade_frames ≠ 0) →
  draws k (showing color frames fading fade_frames) =
  Done (showing color (frames - Z.of_nat k) fading fade_frames).
Proof.
  revert frames. induction k as [|k IH]; intros frames Hk Hfade.
  - by rewrite Z.sub_0_r.
  - cbn [draws]. rewrite draw_showing by (done || lia).
    rewrite IH by (done || lia). do 2 f_equal. lia.
Qed.

Lemma draw_last_solid color fade_frames :
  draw (showing color 1 false fade_frames) =
  Done (if fade_frames =? 0 then init else showing color fade_frames true fade_frames).
Proof.
  unfold draw, showing. cbn [foreground fade_out fade_out_frames foreground_frames].
  rewrite bool_decide_eq_true_2 by (by eexists). cbn [orb andb Z.sub Z.leb].
  by destruct (fade_frames =? 0).
Qed.

Lemma draw_last_fading color fade_frames :
  fade_frames ≠ 0 → draw (showing color 1 true fade_frames) = Done init.
Proof.
  intros Hf. unfold draw, showing.
  cbn [foreground fade_out fade_out_frames foreground_frames].
  rewrite bool_decide_eq_true_2 by (by eexists). apply Z.eqb_neq in Hf.
  by rewrite Hf.
Qed.

(** The solid phase of a flash: [num_frames] draws. *)
Lemma draws_solid color (num_frames : nat) fade_frames :
  (1 ≤ num_frames)%nat →
  draws num_frames (showing color (Z.of_nat num_frames) false fade_frames) =
  Done (if fade_frames =? 0 then init else showing color fade_frames true fade_frames).
Proof.
  intros Hn. replace num_frames with ((num_frames - 1) + 1)%nat at 1 by lia.
  rewrite draws_add, draws_showing by (done || lia).
  replace (Z.of_nat num_frames - Z.of_nat (num_frames - 1)) with 1 by lia.
  cbn [draws]. by rewrite draw_last_solid.
Qed.

(** The fade-out phase: [fade_frames] draws. *)
Lemma draws_fading color (fade_frames : nat) :
  (1 ≤ fade_frames)%nat →
  draws fade_frames (showing color (Z.of_nat fade_frames) true (Z.of_nat fade_frames)) =
  Done init.
Proof.
  intros Hn. replace fade_frames with ((fade_frames - 1) + 1)%nat at 1 by lia.
  rewrite draws_add, draws_showing by (lia || (intros _; lia)).
  replace (Z.of_nat fade_frames - Z.of_nat (fade_frames - 1)) with 1 by lia.
  cbn [draws]. rewrite draw_last_fading by lia. done.
Qed.

(** The draws that lead into the fade-out phase. *)
Lemma draws_into_fade color (num_frames fade_frames k : nat) :
  (1 ≤ num_frames)%nat → (k < fade_frames)%nat →
  draws (num_frames + k)
    (showing color (Z.of_nat num_frames) false (Z.of_nat fade_frames)) =
  Done (showing color (Z.of_nat fade_frames - Z.of_nat k) true (Z.of_nat fade_frames)).
Proof.
  intros Hn Hk. rewrite draws_add, draws_solid by done.
  destruct (Z.eqb_spec (Z.of_nat fade_frames) 0) as [H0|_]; [lia|].
  apply draws_showing; [lia | intros _; lia].
Qed.

(** X19. A flash of [num_frames] frames with [fade_out] fading frames,
    started on a foreground at rest, is on the screen for exactly
    num_frames + fade_out calls of [draw]: the first [num_frames] calls show
    it solid, the next [fade_out] calls fade it out (no division by zero
    occurs), and after the last of them the foreground is at rest again, where
    further calls change nothing. *)
Theorem flash_runs_its_course (color : Color) (num_frames fade_frames : nat)
    (Hframes : (1 ≤ num_frames)%nat) :
  let fg := flash init (Z.of_nat num_frames) (Z.of_nat fade_frames) color in
  (∀ k, (k < num_frames)%nat →
     draws k fg = Done (showing color (Z.of_nat num_frames - Z.of_nat k) false
                          (Z.of_nat fade_frames))) ∧
  (∀ k, (k < fade_frames)%nat →
     draws (num_frames + k) fg =
     Done (showing color (Z.of_nat fade_frames - Z.of_nat k) true
             (Z.of_nat fade_frames))) ∧
  (∀ k, draws (num_frames + fade_frames + k) fg = Done init).
Proof.
  cbn zeta. change (flash init (Z.of_nat num_frames) (Z.of_nat fade_frames) color)
    with (showing color (Z.of_nat num_frames) false (Z.of_nat fade_frames)).
  assert (Hsolid := draws_solid color num_frames (Z.of_nat fade_frames) Hframes).
  split; [|split].
  - intros k Hk. apply draws_showing; [lia | done].
  - intros k Hk. by apply draws_into_fade.
  - intros k. rewrite <-Nat.add_assoc, draws_add, Hsolid.
    destruct (Z.eqb_spec (Z.of_nat fade_frames) 0) as [H0|Hne].
    + apply draws_init.
    + rewrite draws_add, draws_fading by lia. apply draws_init.
Qed.

(** X20. [flash] does not reset the fading flag: a flash without fading
    frames that is started while an earlier flash is fading out makes the
    next [draw] divide by zero. *)
Theorem flash_during_fade_out (color color' : Color)
    (num_frames fade_frames k : nat) (frames' : Z)
    (Hframes : (1 ≤ num_frames)%nat) (Hk : (k < fade_frames)%nat) :
  ∃ fg,
    draws (num_frames + k)
      (flash init (Z.of_nat num_frames) (Z.of_nat fade_frames) color) = Done fg ∧
    fade_out fg = true ∧
    draw (flash fg frames' 0 color') = Failed ZeroDivisionError.
Proof.
  eexists. split; [by apply (draws_into_fade color)|]. split; [done|].
  unfold draw, flash, showing. cbn [foreground fade_out fade_out_frames].
  by rewrite bool_decide_eq_true_2 by (by eexists).
Qed.
End Flash.

(** X20 for a second flash started while the first one fades out. *)
Lemma flash_during_fade_out_witness :
  ∃ fg,
    draws 3 (flash init 2 3 "white") = Done fg ∧
    draw (flash fg 1 0 "red") = Failed ZeroDivisionError.
Proof.
  destruct (flash_during_fade_out "white" "red" 2 3 1 1) as (fg & Hrun & _ & Hfail);
    [lia | lia |].
  exists fg. split; [exact Hrun | exact Hfail].
Defined.

(** X19 for a white flash of 2 frames that fades for 3. *)
Lemma flash_runs_its_course_witness :
  draws 4 (flash init 2 3 "white") = Done (showing "white" 1 true 3) ∧
  draws 5 (flash init 2 3 "white") = Done init.
Proof.
  destruct (flash_runs_its_course "white" 2 3) as (_ & Hfade & Hrest); [lia|].
  split.
  - apply (Hfade 2%nat). lia.
  - apply (Hrest 0%nat).
Defined.

End Foreground.

(** ** PanoramaBackground *)

Module PanoramaBackground.
Import Background.

(** The values of [self.fade_state]. *)
Inductive FadeState : Type :=
| normal | off | to_black | to_image | from_image | from_black.

(** The attributes [update] reads and writes; [num_frames] is
    [self.panorama.num_frames]. Times are in milliseconds; the transition is
    a float, idealised as a rational. *)
Record PanoramaBackground := {
  counter : Z;
  num_frames : Z;
  speed : Z;
  loop : bool;
  fade_state : FadeState;
  fade_time : Q;
  transition : Q;
  last_update : Z }.

(** [__init__], at time [time], with the defaults [speed=125], [loop=True]. *)
Definition init (num_frames speed : Z) (loop : bool) (time : Z) : PanoramaBackground :=
  {| counter := 0; num_frames := num_frames; speed := speed; loop := loop;
     fade_state := normal; fade_time := 0; transition := 0; last_update := time |}.

Definition with_fade (bg : PanoramaBackground) (s : FadeState) (t tr : Q)
    : PanoramaBackground :=
  {| counter := counter bg; num_frames := num_frames bg; speed := speed bg;
     loop := loop bg; fade_state := s; fade_time := t; transition := tr;
     last_update := last_update bg |}.

Definition set_off (bg : PanoramaBackground) := with_fade bg off (fade_time bg) 0.
Definition set_normal (bg : PanoramaBackground) := with_fade bg normal (fade_time bg) 0.
Definition fade_in (bg : PanoramaBackground) (time_ms : Q) := with_fade bg to_black time_ms 0.
Definition fade_out (bg : PanoramaBackground) (time_ms : Q) :=
  with_fade bg from_image time_ms 0.

(** The state a finished transition leads to. *)
Definition next_fade_state (s : FadeState) : FadeState :=
  match s with
  | to_black => to_image
  | to_image => normal
  | from_image => from_black
  | from_black => off
  | s => s
  end.

(** The first half of [update]: the fade. [delta] is [engine.get_delta()]. *)
Definition update_fade (bg : PanoramaBackground) (delta : Q) : outcome PanoramaBackground :=
  match fade_state bg with
  | normal | off => Done bg
  | s =>
    if Qeq_bool (fade_time bg * (1 # 2)) 0 then Failed ZeroDivisionError
    else
      let transition := (transition bg + delta / (fade_time bg * (1 # 2)))%Q in
      if Qle_bool 1 transition
      then Done (with_fade bg (next_fade_state s) (fade_time bg) 0)
      else Done (with_fade bg s (fade_time bg) transition)
  end.

(** The second half: the procession of frames. [time] is
    [engine.get_time()]. *)
Definition update_frame (bg : PanoramaBackground) (time : Z) : PanoramaBackground * bool :=
  if speed bg <? time - last_update bg then
    let counter := counter bg + 1 in
    let counter := if num_frames bg <=? counter then 0 else counter in
    ({| counter := counter; num_frames := num_frames bg; speed := speed bg;
        loop := loop bg; fade_state := fade_state bg; fade_time := fade_time bg;
        transition := transition bg; last_update := time |},
     (counter =? 0) && negb (loop bg))
  else (bg, false).

Definition update (bg : PanoramaBackground) (time : Z) (delta : Q)
    : outcome (PanoramaBackground * bool) :=
  match update_fade bg delta with
  | Failed e => Failed e
  | Done bg => Done (update_frame bg time)
  end.

(** X21. [update] keeps the frame counter a valid index of the panorama's
    images: with at least one frame and a counter within range, the counter
    stays within range; a frame step happens exactly when more than [speed]
    ms have passed since the last one, and moves the counter one frame on,
    wrapping to 0 after the last frame; [update] returns True exactly when
    such a step wraps to frame 0 on a background that does not loop. *)
Theorem update_keeps_counter_in_range (bg bg' : PanoramaBackground) (time : Z)
    (delta : Q) (finished : bool)
    (Hframes : 1 ≤ num_frames bg)
    (Hcounter : 0 ≤ counter bg < num_frames bg)
    (Hrun : update bg time delta = Done (bg', finished)) :
  0 ≤ counter bg' < num_frames bg' ∧
  num_frames bg' = num_frames bg ∧
  (speed bg < time - last_update bg →
     counter bg' = (counter bg + 1) mod num_frames bg ∧ last_update bg' = time) ∧
  (time - last_update bg ≤ speed bg →
     counter bg' = counter bg ∧ last_update bg' = last_update bg) ∧
  (finished = true ↔
     speed bg < time - last_update bg ∧ counter bg + 1 = num_frames bg ∧ loop bg = false).
Proof.
  revert Hrun. unfold update.
  destruct (update_fade bg delta) as [bg1|] eqn:Hfade; [|done].
  assert (Hsame : counter bg1 = counter bg ∧ num_frames bg1 = num_frames bg ∧
                  speed bg1 = speed bg ∧ loop bg1 = loop bg ∧
                  last_update bg1 = last_update bg).
  { revert Hfade. unfold update_fade.
    destruct (fade_state bg); try (by intros [= <-]);
      (destruct (Qeq_bool _ 0); [done|]);
      (destruct (Qle_bool 1 _); by intros [= <-]). }
  destruct Hsame as (Hc & Hn & Hs & Hl & Hu).
  unfold update_frame. rewrite Hc, Hn, Hs, Hl, Hu.
  destruct (Z.ltb_spec (speed bg) (time - last_update bg)) as [Hlt|Hge].
  - intros [= <- <-]. cbn [counter num_frames last_update].
    destruct (Z.leb_spec (num_frames bg) (counter bg + 1)) as [Hwrap|Hin].
    + assert (Heq : counter bg + 1 = num_frames bg) by lia.
      split; [lia|]. split; [done|]. split.
      { intros _. by rewrite Heq, Z.mod_same by lia. }
      split; [lia|]. cbn [Z.eqb andb]. rewrite negb_true_iff. tauto.
    + split; [lia|]. split; [done|]. split.
      { intros _. by rewrite Z.mod_small by lia. }
      split; [lia|].
      destruct (Z.eqb_spec (counter bg + 1) 0); [lia|]. cbn [andb].
      split; [done | lia].
  - intros [= <- <-]. rewrite Hc, Hn, Hu.
    split; [lia|]. split; [done|]. split; [lia|]. split; [done|].
    split; [done | lia].
Qed.

(** X21 for a looping panorama of 3 frames on its last frame. *)
Lemma update_keeps_counter_in_range_witness :
  update {| counter := 2; num_frames := 3; speed := 125; loop := true;
            fade_state := normal; fade_time := 0; transition := 0;
            last_update := 0 |} 200 16
  = Done ({| counter := 0; num_frames := 3; speed := 125; loop := true;
             fade_state := normal; fade_time := 0; transition := 0;
             last_update := 200 |}, false) ∧
  0 ≤ 0 < 3.
Proof.
  split; [reflexivity|].
  refine (proj1 (update_keeps_counter_in_range
    {| counter := 2; num_frames := 3; speed := 125; loop := true;
       fade_state := normal; fade_time := 0; transition := 0; last_update := 0 |}
    {| counter := 0; num_frames := 3; speed := 125; loop := true;
       fade_state := normal; fade_time := 0; transition := 0; last_update := 200 |}
    200 16 false _ _ _)).
  - cbn. lia.
  - cbn. lia.
  - reflexivity.
Defined.

(** The stage of a fade: a fade-in runs through stages 0 and 1 to 'normal',
    a fade-out through stages 0 and 1 to 'off'. *)
Definition settled (s : FadeState) : bool :=
  match s with normal | off => true | _ => false end.

(** X22. The fade of a panorama only moves forward: [update] leaves a
    background that is 'normal' or 'off' in that state; otherwise it either
    stays in its fade state or, when the transition is complete, moves on to
    the next one ('to_black', 'to_image', 'normal' for a fade-in;
    'from_image', 'from_black', 'off' for a fade-out) with the transition
    back at 0; it fails with a division by zero exactly when a fade is under
    way whose time is 0. With a positive fade time and a non-negative delta
    the transition stays in [0, 1). *)
Theorem fade_only_moves_forward (bg : PanoramaBackground) (time : Z) (delta : Q) :
  (settled (fade_state bg) = true →
     ∃ bg' finished, update bg time delta = Done (bg', finished) ∧
       fade_state bg' = fade_state bg ∧ transition bg' = transition bg) ∧
  (settled (fade_state bg) = false →
     (update bg time delta = Failed ZeroDivisionError ↔ (fade_time bg == 0)%Q) ∧
     ∀ bg' finished, update bg time delta = Done (bg', finished) →
       (fade_state bg' = fade_state bg ∨
        fade_state bg' = next_fade_state (fade_state bg) ∧ transition bg' = 0%Q) ∧
       ((0 < fade_time bg)%Q → (0 <= delta)%Q →
        (0 <= transition bg)%Q → (0 <= transition bg' < 1)%Q)).
Proof.
  split.
  - intros Hs.
    assert (Hf : update_fade bg delta = Done bg).
    { unfold update_fade. by destruct (fade_state bg). }
    unfold update. rewrite Hf.
    exists (fst (update_frame bg time)), (snd (update_frame bg time)).
    split; [by destruct (update_frame bg time)|].
    unfold update_frame. by destruct (_ <? _).
  - intros Hs.
    assert (Hz : Qeq_bool (fade_time bg * (1 # 2)) 0 = true ↔ (fade_time bg == 0)%Q).
    { rewrite Qeq_bool_iff. split; intros H; lra. }
    assert (Hfade : update_fade bg delta =
      if Qeq_bool (fade_time bg * (1 # 2)) 0 then Failed ZeroDivisionError
      else if Qle_bool 1 (transition bg + delta / (fade_time bg * (1 # 2)))
           then Done (with_fade bg (next_fade_state (fade_state bg)) (fade_time bg) 0)
           else Done (with_fade bg (fade_state bg) (fade_time bg)
                        (transition bg + delta / (fade_time bg * (1 # 2))))).
    { unfold update_fade. by destruct (fade_state bg). }
    unfold update. rewrite Hfade. clear Hfade. split.
    + destruct (Qeq_bool _ 0) eqn:E.
      * split; [intros _; by apply Hz | done].
      * split; [by destruct (Qle_bool 1 _)|].
        intros H0. apply Hz in H0. congruence.
    + intros bg' finished. destruct (Qeq_bool _ 0) eqn:E; [done|].
      assert (Hne : ¬ (fade_time bg == 0)%Q).
      { intros H0. apply Hz in H0. congruence. }
      destruct (Qle_bool 1 _) eqn:E1; unfold update_frame;
        (destruct (_ <? _); intros [= <- <-]; cbn [fade_state transition with_fade]).
      * split; [by right|]. intros _ _ _. lra.
      * split; [by right|]. intros _ _ _. lra.
      * split; [by left|]. intros Ht Hd Htr. split.
        -- apply Qle_trans with (transition bg); [done|].
           rewrite <-(Qplus_0_r (transition bg)) at 1.
           apply Qplus_le_r. apply Qle_shift_div_l; lra.
        -- apply Qnot_le_lt. intros Hle. apply Qle_bool_iff in Hle. congruence.
      * split; [by left|]. intros Ht Hd Htr. split.
        -- apply Qle_trans with (transition bg); [done|].
           rewrite <-(Qplus_0_r (transition bg)) at 1.
           apply Qplus_le_r. apply Qle_shift_div_l; lra.
        -- apply Qnot_le_lt. intros Hle. apply Qle_bool_iff in Hle. congruence.
Qed.

End PanoramaBackground.
